(** * A shallow embedding of the portfolio page's physics-text scene

    The page lays out a title and a description as one rigid body per
    letter, lets the pointer push the letters around, and snaps them
    back on request.  Two revisions of the page component are embedded
    side by side (they differ in the description text, the second title
    line, the origin offset of the letters and the size of the walls),
    together with the subscription endpoint that ships with the later
    revision.

    Modelling conventions.
    - JavaScript numbers are embedded as exact rationals [Q]:
      [a * b], [a / b], [Math.floor] and [Math.abs] become [Qmult],
      [Qdiv], [Qfloor] and [Qabs].  Rounding of IEEE doubles is not
      modelled; the word-wrap results are proved for every value of
      [maxCharsPerLine], so they do not depend on it.  The one place
      where rounding decides a result is the reset, whose two computing
      calls are embedded a second time with their arithmetic
      ([resetTextBy], and [Double] for binary64 itself).
    - Strings of the page itself are ASCII literals and are embedded as
      [string]; the untrusted e-mail string of the endpoint is a list of
      UTF-16 code units.
    - Matter.js bodies are objects shared between the world and the
      component's refs; they live in a heap [gmap handle Body] and are
      referred to by handle.
    - React's scheduling (re-rendering, re-running effects) is outside
      the model: each callback is a function on the scene. *)

From Stdlib Require Import ZArith QArith Qround Qabs String Ascii List Lia Lqa.
From Stdlib Require PrimFloat.
From stdpp Require Import gmap.
Import ListNotations.
Close Scope Q_scope.

(* ================================================================= *)
(** ** Strings as the page uses them *)

Module Str.

(** [s.length] of an ASCII string. *)
Definition len (s : string) : Z := Z.of_nat (String.length s).

(** JavaScript truthiness of a string: only [''] is falsy. *)
Definition truthy (s : string) : bool :=
  match s with EmptyString => false | String _ _ => true end.

(** [s.split(sep)] for a one-character separator.  The result is never
    empty: [''.split(' ')] is [['']]. *)
Fixpoint split (sep : ascii) (s : string) : list string :=
  match s with
  | EmptyString => [EmptyString]
  | String c rest =>
      if Ascii.eqb c sep then EmptyString :: split sep rest
      else match split sep rest with
           | [] => [String c EmptyString]
           | w :: ws => String c w :: ws
           end
  end.

(** Does the character occur in the string? *)
Fixpoint mem (c : ascii) (s : string) : bool :=
  match s with
  | EmptyString => false
  | String d rest => Ascii.eqb d c || mem c rest
  end.

(** The characters of a string with their indices, as the loop
    [for (let i = 0; i < text.length; i++) text[i]] visits them. *)
Fixpoint indexedFrom (i : nat) (s : string) : list (nat * ascii) :=
  match s with
  | EmptyString => []
  | String c rest => (i, c) :: indexedFrom (S i) rest
  end.

(** Number of characters other than [c]. *)
Fixpoint countNot (c : ascii) (s : string) : nat :=
  match s with
  | EmptyString => 0
  | String d rest => (if Ascii.eqb d c then 0 else 1) + countNot c rest
  end.

End Str.

Definition SPACE : ascii := " "%char.

(* ================================================================= *)
(** ** The two revisions of the page *)

(** [ContainerCanvas] is the revision whose canvas overlays the hero
    container and extends 200px on each side; [FullViewport] is the
    revision whose canvas covers the whole viewport. *)
Inductive Revision := ContainerCanvas | FullViewport.

Definition MOVEMENT_THRESHOLD : Q := 5.
Definition CANVAS_EXTENSION : Q := 200.

Definition DESCRIPTION_TEXT (v : Revision) : string :=
  match v with
  | ContainerCanvas =>
      "I'm a product & software engineer interested in agentic systems, design systems. I studied comp sci @ UCL and work on everything front end @ CodeWords"%string
  | FullViewport =>
      "Hey! I'm a product engineer based in London, interested in agentic systems, design systems and bringing people joy through software. I studied comp sci @ UCL and work on everything front end @ codewords"%string
  end.

(* ================================================================= *)
(** ** Responsive layout planner: [getResponsiveConfig] *)

Record Config := {
  titleFontSize : Q;
  descFontSize : Q;
  lineHeight : Q;
  descLineHeight : Q;
  descriptionLines : list string;
}.

(** One iteration of [for (const word of words)]: the state is the
    array [lines] and the string [currentLine]. *)
Definition wrapStep (maxCharsPerLine : Z) (st : list string * string)
    (word : string) : list string * string :=
  let '(lines, currentLine) := st in
  let testLine :=
    if Str.truthy currentLine
    then (currentLine ++ " " ++ word)%string
    else word in
  if (Str.len testLine <=? maxCharsPerLine)%Z
  then (lines, testLine)
  else ((if Str.truthy currentLine then lines ++ [currentLine] else lines),
        word).

(** The whole loop followed by the final flush
    [if (currentLine) lines.push(currentLine)]. *)
Definition wrapWords (maxCharsPerLine : Z) (words : list string) : list string :=
  let '(lines, currentLine) :=
    fold_left (wrapStep maxCharsPerLine) words ([], EmptyString) in
  if Str.truthy currentLine then lines ++ [currentLine] else lines.

Definition isMobile (containerWidth : Q) : bool :=
  if Qlt_le_dec containerWidth 500 then true else false.
Definition isTablet (containerWidth : Q) : bool :=
  if Qlt_le_dec containerWidth 768 then true else false.

(** [isMobile ? a : isTablet ? b : c] *)
Definition bySize {A} (containerWidth : Q) (a b c : A) : A :=
  if isMobile containerWidth then a
  else if isTablet containerWidth then b else c.

(** [Math.floor(containerWidth / (descFontSize * 0.62)) - 2] *)
Definition maxCharsPerLine (descFontSize containerWidth : Q) : Z :=
  let charWidth := (descFontSize * 0.62)%Q in
  (Qfloor (containerWidth / charWidth) - 2)%Z.

Definition getResponsiveConfig (v : Revision) (containerWidth : Q) : Config :=
  let titleFontSize := bySize containerWidth 20%Q 18%Q 16%Q in
  let descFontSize := bySize containerWidth 16%Q 15%Q 14%Q in
  let lineHeight := bySize containerWidth 28%Q 26%Q 24%Q in
  let descLineHeight := bySize containerWidth 24%Q 23%Q 22%Q in
  let words := Str.split SPACE (DESCRIPTION_TEXT v) in
  let lines := wrapWords (maxCharsPerLine descFontSize containerWidth) words in
  {| titleFontSize := titleFontSize;
     descFontSize := descFontSize;
     lineHeight := lineHeight;
     descLineHeight := descLineHeight;
     descriptionLines := lines |}.

(* ================================================================= *)
(** ** The physics world: bodies, the heap and the scene *)

Definition handle := nat.

Record Vector := { x : Q; y : Q }.

Inductive Shape :=
| Rectangle (width height : Q)
| Circle (radius : Q).

(** The fields of a [Matter.Body] that the page sets or reads.  The
    render options are always the transparent fill and stroke and are
    left out. *)
Record Body := {
  position : Vector;
  angle : Q;
  velocity : Vector;
  angularVelocity : Q;
  isStatic : bool;
  shape : Shape;
  restitution : Q;
  friction : Q;
  frictionAir : Q;
  density : Q;
}.

(** [interface TextBody]; the [body] field is a reference. *)
Record TextBody := {
  body : handle;
  char : ascii;
  fontSize : Q;
  initialX : Q;
  initialY : Q;
  isTitle : bool;
}.

(** The refs and state of the [Home] component.  [engineRef] holds the
    body list of [engineRef.current.world], in insertion order, or
    [None] while [engineRef.current] is [null]. *)
Record Scene := {
  heap : gmap handle Body;
  nextHandle : handle;
  engineRef : option (list handle);
  textBodiesRef : list TextBody;
  mouseBodyRef : option handle;
  wallsRef : list handle;
  hasBeenTouchedRef : bool;
  showResetButton : bool;
  renderSize : Q * Q;
}.

Definition withHeap (f : gmap handle Body -> gmap handle Body) (s : Scene) : Scene :=
  {| heap := f (heap s); nextHandle := nextHandle s; engineRef := engineRef s;
     textBodiesRef := textBodiesRef s; mouseBodyRef := mouseBodyRef s;
     wallsRef := wallsRef s; hasBeenTouchedRef := hasBeenTouchedRef s;
     showResetButton := showResetButton s; renderSize := renderSize s |}.

Definition withWorld (f : list handle -> list handle) (s : Scene) : Scene :=
  {| heap := heap s; nextHandle := nextHandle s;
     engineRef := option_map f (engineRef s);
     textBodiesRef := textBodiesRef s; mouseBodyRef := mouseBodyRef s;
     wallsRef := wallsRef s; hasBeenTouchedRef := hasBeenTouchedRef s;
     showResetButton := showResetButton s; renderSize := renderSize s |}.

Definition setEngine (e : option (list handle)) (s : Scene) : Scene :=
  {| heap := heap s; nextHandle := nextHandle s; engineRef := e;
     textBodiesRef := textBodiesRef s; mouseBodyRef := mouseBodyRef s;
     wallsRef := wallsRef s; hasBeenTouchedRef := hasBeenTouchedRef s;
     showResetButton := showResetButton s; renderSize := renderSize s |}.

Definition setTextBodies (l : list TextBody) (s : Scene) : Scene :=
  {| heap := heap s; nextHandle := nextHandle s; engineRef := engineRef s;
     textBodiesRef := l; mouseBodyRef := mouseBodyRef s;
     wallsRef := wallsRef s; hasBeenTouchedRef := hasBeenTouchedRef s;
     showResetButton := showResetButton s; renderSize := renderSize s |}.

Definition setMouseBody (m : option handle) (s : Scene) : Scene :=
  {| heap := heap s; nextHandle := nextHandle s; engineRef := engineRef s;
     textBodiesRef := textBodiesRef s; mouseBodyRef := m;
     wallsRef := wallsRef s; hasBeenTouchedRef := hasBeenTouchedRef s;
     showResetButton := showResetButton s; renderSize := renderSize s |}.

Definition setWalls (l : list handle) (s : Scene) : Scene :=
  {| heap := heap s; nextHandle := nextHandle s; engineRef := engineRef s;
     textBodiesRef := textBodiesRef s; mouseBodyRef := mouseBodyRef s;
     wallsRef := l; hasBeenTouchedRef := hasBeenTouchedRef s;
     showResetButton := showResetButton s; renderSize := renderSize s |}.

Definition setTouched (b : bool) (s : Scene) : Scene :=
  {| heap := heap s; nextHandle := nextHandle s; engineRef := engineRef s;
     textBodiesRef := textBodiesRef s; mouseBodyRef := mouseBodyRef s;
     wallsRef := wallsRef s; hasBeenTouchedRef := b;
     showResetButton := showResetButton s; renderSize := renderSize s |}.

Definition setShowResetButton (b : bool) (s : Scene) : Scene :=
  {| heap := heap s; nextHandle := nextHandle s; engineRef := engineRef s;
     textBodiesRef := textBodiesRef s; mouseBodyRef := mouseBodyRef s;
     wallsRef := wallsRef s; hasBeenTouchedRef := hasBeenTouchedRef s;
     showResetButton := b; renderSize := renderSize s |}.

Definition setRenderSize (wh : Q * Q) (s : Scene) : Scene :=
  {| heap := heap s; nextHandle := nextHandle s; engineRef := engineRef s;
     textBodiesRef := textBodiesRef s; mouseBodyRef := mouseBodyRef s;
     wallsRef := wallsRef s; hasBeenTouchedRef := hasBeenTouchedRef s;
     showResetButton := showResetButton s; renderSize := wh |}.

(* ----------------------------------------------------------------- *)
(** *** The part of Matter.js the page calls *)

Module Matter.

(** Options of a body; Matter.js fills in its defaults for the ones
    the caller leaves out. *)
Record Options := {
  optStatic : bool;
  optRestitution : Q;
  optFriction : Q;
  optFrictionAir : Q;
  optDensity : Q;
}.

Definition defaults : Options :=
  {| optStatic := false; optRestitution := 0; optFriction := 0.1;
     optFrictionAir := 0.01; optDensity := 0.001 |}.

Definition newBody (px py : Q) (sh : Shape) (o : Options) : Body :=
  {| position := {| x := px; y := py |};
     angle := 0;
     velocity := {| x := 0; y := 0 |};
     angularVelocity := 0;
     isStatic := optStatic o;
     shape := sh;
     restitution := optRestitution o;
     friction := optFriction o;
     frictionAir := optFrictionAir o;
     density := optDensity o |}.

(** Allocation of a new body object: a fresh handle. *)
Definition alloc (b : Body) (s : Scene) : handle * Scene :=
  let h := nextHandle s in
  (h, {| heap := <[h := b]> (heap s); nextHandle := S h;
         engineRef := engineRef s; textBodiesRef := textBodiesRef s;
         mouseBodyRef := mouseBodyRef s; wallsRef := wallsRef s;
         hasBeenTouchedRef := hasBeenTouchedRef s;
         showResetButton := showResetButton s;
         renderSize := renderSize s |}).

(** [Bodies.rectangle(x, y, width, height, options)] *)
Definition Bodies_rectangle (px py w h : Q) (o : Options) (s : Scene) :=
  alloc (newBody px py (Rectangle w h) o) s.

(** [Bodies.circle(x, y, radius, options)] *)
Definition Bodies_circle (px py r : Q) (o : Options) (s : Scene) :=
  alloc (newBody px py (Circle r) o) s.

(** Removal of the first occurrence, as [indexOf] and [splice] do. *)
Fixpoint removeFirst (h : handle) (l : list handle) : list handle :=
  match l with
  | [] => []
  | k :: rest => if Nat.eqb k h then rest else k :: removeFirst h rest
  end.

(** [World.remove(world, body)] *)
Definition World_remove (h : handle) (s : Scene) : Scene :=
  withWorld (removeFirst h) s.

(** [World.add(world, body)] *)
Definition World_add (h : handle) (s : Scene) : Scene :=
  withWorld (fun bodies => bodies ++ [h]) s.

(** [Body.setPosition(body, position)].  Matter.js does not store
    [position]: it takes [delta = Vector.sub(position, body.position)]
    and adds it to the position of the body.  In exact arithmetic the
    sum is [position] ([moveBy_exact]), and that is the value kept
    here; what the two rounded operations make of it is
    [Body_setPositionBy] and, in binary64, [Double.Body_setPosition]
    below. *)
Definition Body_setPosition (h : handle) (p : Vector) (s : Scene) : Scene :=
  withHeap (alter (fun b =>
    {| position := p; angle := angle b; velocity := velocity b;
       angularVelocity := angularVelocity b; isStatic := isStatic b;
       shape := shape b; restitution := restitution b;
       friction := friction b; frictionAir := frictionAir b;
       density := density b |}) h) s.

Definition Body_setAngle (h : handle) (a : Q) (s : Scene) : Scene :=
  withHeap (alter (fun b =>
    {| position := position b; angle := a; velocity := velocity b;
       angularVelocity := angularVelocity b; isStatic := isStatic b;
       shape := shape b; restitution := restitution b;
       friction := friction b; frictionAir := frictionAir b;
       density := density b |}) h) s.

Definition Body_setVelocity (h : handle) (vel : Vector) (s : Scene) : Scene :=
  withHeap (alter (fun b =>
    {| position := position b; angle := angle b; velocity := vel;
       angularVelocity := angularVelocity b; isStatic := isStatic b;
       shape := shape b; restitution := restitution b;
       friction := friction b; frictionAir := frictionAir b;
       density := density b |}) h) s.

Definition Body_setAngularVelocity (h : handle) (w : Q) (s : Scene) : Scene :=
  withHeap (alter (fun b =>
    {| position := position b; angle := angle b; velocity := velocity b;
       angularVelocity := w; isStatic := isStatic b;
       shape := shape b; restitution := restitution b;
       friction := friction b; frictionAir := frictionAir b;
       density := density b |}) h) s.

(** One engine update.  The integrator is not part of the page; it is
    any function that rewrites the bodies it finds. *)
Definition Engine_update (f : handle -> Body -> Body) (s : Scene) : Scene :=
  withHeap (map_imap (fun h b => Some (f h b))) s.

End Matter.

(* ================================================================= *)
(** ** The callbacks of the [Home] component *)

Import Matter.

(** The state of the refs before the effect has run. *)
Definition initialScene : Scene :=
  {| heap := ∅; nextHandle := 0%nat; engineRef := None;
     textBodiesRef := []; mouseBodyRef := None; wallsRef := [];
     hasBeenTouchedRef := false; showResetButton := false;
     renderSize := (0%Q, 0%Q) |}.

(** Options of a letter body. *)
Definition letterOptions : Options :=
  {| optStatic := false; optRestitution := 0.8; optFriction := 0.1;
     optFrictionAir := 0.03; optDensity := 0.002 |}.

(** [wallOptions], also used for the pointer body: [{ isStatic: true }]. *)
Definition wallOptions : Options :=
  {| optStatic := true; optRestitution := optRestitution defaults;
     optFriction := optFriction defaults;
     optFrictionAir := optFrictionAir defaults;
     optDensity := optDensity defaults |}.

Definition ofIndex (i : nat) : Q := inject_Z (Z.of_nat i).

(** The body of [for (let i = 0; i < text.length; i++)] for one
    character: a space is skipped with [continue], any other character
    gets a rectangle that is added to the world and recorded. *)
Definition addLetter (title : bool) (size py startX charWidth : Q)
    (s : Scene) (ic : nat * ascii) : Scene :=
  let '(i, c) := ic in
  if Ascii.eqb c SPACE then s
  else
    let px := (startX + ofIndex i * charWidth)%Q in
    let bodyWidth := (charWidth * 0.9)%Q in
    let bodyHeight := (size * 1.1)%Q in
    let '(b, s1) := Bodies_rectangle px py bodyWidth bodyHeight letterOptions s in
    let s2 := World_add b s1 in
    setTextBodies
      (textBodiesRef s2 ++
         [{| body := b; char := c; fontSize := size;
             initialX := px; initialY := py; isTitle := title |}])
      s2.

(** One line of text: the callback of [titleLines.forEach] and of
    [descriptionLines.forEach]. *)
Definition addLine (title : bool) (originX : Q) (s : Scene)
    (line : string * Q * Q) : Scene :=
  let '(text, size, py) := line in
  let charWidth := (size * 0.62)%Q in
  let startX := (originX + charWidth / 2)%Q in
  fold_left (addLetter title size py startX charWidth)
            (Str.indexedFrom 0 text) s.

(** The second title line of each revision. *)
Definition titleLine2 (v : Revision) : string :=
  match v with
  | ContainerCanvas => "SOFTWARE ENGINEER"%string
  | FullViewport => "PRODUCT ENGINEER"%string
  end.

(** The horizontal origin: [paddingOffset] in one revision, the
    [offsetX] argument in the other. *)
Definition originX (v : Revision) (offsetX : Q) : Q :=
  match v with
  | ContainerCanvas => CANVAS_EXTENSION
  | FullViewport => offsetX
  end.

(** The height of the first title line: [50] in one revision,
    [offsetY + 50] in the other. *)
Definition titleY (v : Revision) (offsetY : Q) : Q :=
  match v with
  | ContainerCanvas => 50
  | FullViewport => (offsetY + 50)%Q
  end.

Definition titleLines (v : Revision) (cfg : Config) (offsetY : Q)
  : list (string * Q * Q) :=
  [ ("AMMAN VEDI"%string, titleFontSize cfg, titleY v offsetY);
    (titleLine2 v, titleFontSize cfg, (titleY v offsetY + lineHeight cfg)%Q) ].

(** [descriptionLines] paired with the [y] of each line:
    [descStartY + lineIndex * descLineHeight]. *)
Fixpoint descLinesFrom (cfg : Config) (descStartY : Q) (lineIndex : nat)
    (lines : list string) : list (string * Q * Q) :=
  match lines with
  | [] => []
  | text :: rest =>
      (text, descFontSize cfg,
       (descStartY + ofIndex lineIndex * descLineHeight cfg)%Q)
        :: descLinesFrom cfg descStartY (S lineIndex) rest
  end.

Definition descLines (v : Revision) (cfg : Config) (offsetY : Q)
  : list (string * Q * Q) :=
  let descStartY := (titleY v offsetY + lineHeight cfg * 2 + 40)%Q in
  descLinesFrom cfg descStartY 0 (descriptionLines cfg).

(** [createLetterBodies(containerWidth, offsetX, offsetY)].  The
    [ContainerCanvas] revision takes [containerWidth] only; there the
    two offsets are ignored. *)
Definition createLetterBodies (v : Revision) (containerWidth offsetX offsetY : Q)
    (s : Scene) : Scene :=
  match engineRef s with
  | None => s
  | Some _ =>
      let s1 :=
        fold_left (fun acc tb => World_remove (body tb) acc)
                  (textBodiesRef s) s in
      let s2 := setTextBodies [] s1 in
      let config := getResponsiveConfig v containerWidth in
      let s3 :=
        fold_left (addLine true (originX v offsetX))
                  (titleLines v config offsetY) s2 in
      fold_left (addLine false (originX v offsetX))
                (descLines v config offsetY) s3
  end.

(** The four static rectangles of [createWalls], as centre and size. *)
Definition wallRects (v : Revision) (w h : Q) : list (Q * Q * Q * Q) :=
  let wallThickness : Q := 100%Q in
  let extent : Q :=
    match v with ContainerCanvas => h | FullViewport => 2000%Q end in
  [ ((w / 2)%Q, (extent + wallThickness / 2)%Q, (w * 2)%Q, wallThickness);
    ((w / 2)%Q, (- wallThickness / 2)%Q, (w * 2)%Q, wallThickness);
    ((- wallThickness / 2)%Q, (extent / 2)%Q, wallThickness, (extent * 2)%Q);
    ((w + wallThickness / 2)%Q, (extent / 2)%Q, wallThickness, (extent * 2)%Q) ].

(** Creation of the wall objects, in array order. *)
Definition makeWall (acc : list handle * Scene) (r : Q * Q * Q * Q)
  : list handle * Scene :=
  let '(hs, s) := acc in
  let '(cx, cy, w, h) := r in
  let '(b, s1) := Bodies_rectangle cx cy w h wallOptions s in
  (hs ++ [b], s1).

(** [createWalls(width, height)]; the [FullViewport] revision takes
    [width] only and uses its fixed [extendedHeight]. *)
Definition createWalls (v : Revision) (w h : Q) (s : Scene) : Scene :=
  match engineRef s with
  | None => s
  | Some _ =>
      let s1 := fold_left (fun acc wall => World_remove wall acc) (wallsRef s) s in
      let '(walls, s2) := fold_left makeWall (wallRects v w h) ([], s1) in
      let s3 := fold_left (fun acc wall => World_add wall acc) walls s2 in
      setWalls walls s3
  end.

(** The callback of [textBodiesRef.current.forEach] in [resetText]. *)
Definition resetBody (s : Scene) (tb : TextBody) : Scene :=
  let s1 := Body_setPosition (body tb) {| x := initialX tb; y := initialY tb |} s in
  let s2 := Body_setAngle (body tb) 0 s1 in
  let s3 := Body_setVelocity (body tb) {| x := 0; y := 0 |} s2 in
  Body_setAngularVelocity (body tb) 0 s3.

Definition resetText (s : Scene) : Scene :=
  let s1 := fold_left resetBody (textBodiesRef s) s in
  setShowResetButton false (setTouched false s1).

(** [a > b] on numbers. *)
Definition gt (a b : Q) : bool := negb (Qle_bool a b).

(** The test inside the loop of [checkForMovement], for one body. *)
Definition exceeds (b : Body) (tb : TextBody) : bool :=
  let dx := Qabs (x (position b) - initialX tb) in
  let dy := Qabs (y (position b) - initialY tb) in
  let a := Qabs (angle b) in
  gt dx MOVEMENT_THRESHOLD || gt dy MOVEMENT_THRESHOLD || gt a 0.1.

(** The loop with its [break]: is there a body that exceeds? *)
Definition hasMoved (s : Scene) : bool :=
  existsb (fun tb =>
             match heap s !! body tb with
             | Some b => exceeds b tb
             | None => false
             end)
          (textBodiesRef s).

(** [checkForMovement].  The callback reads the [showResetButton] of
    the render that created it; the effect registers the callback anew
    whenever that state changes, so it is read from the scene here. *)
Definition checkForMovement (s : Scene) : Scene :=
  if hasMoved s then
    let s1 := setTouched true s in
    if negb (showResetButton s1) then setShowResetButton true s1 else s1
  else s.

(* ----------------------------------------------------------------- *)
(** *** What the callbacks read from the browser *)

Module DOMRect.
(** The result of [getBoundingClientRect()]. *)
Record t := { left : Q; top : Q; width : Q; height : Q }.
End DOMRect.

(** [window.innerWidth], [window.innerHeight], whether
    [sceneRef.current] is attached, and the rectangle of
    [heroRef.current], or [None] while that ref is [null]. *)
Record Page := {
  innerWidth : Q;
  innerHeight : Q;
  sceneRef : bool;
  heroRef : option DOMRect.t;
}.

(** [handleMouseMove]: the pointer body follows the pointer, in canvas
    coordinates. *)
Definition handleMouseMove (clientX clientY : Q) (canvas : DOMRect.t)
    (s : Scene) : Scene :=
  match mouseBodyRef s with
  | Some m =>
      let px := (clientX - DOMRect.left canvas)%Q in
      let py := (clientY - DOMRect.top canvas)%Q in
      Body_setPosition m {| x := px; y := py |} s
  | None => s
  end.

(** [handleTouchMove] and [handleTouchStart] ([FullViewport] only):
    the first touch point, if there is one. *)
Definition handleTouchMove (touches : list (Q * Q)) (canvas : DOMRect.t)
    (s : Scene) : Scene :=
  match touches with
  | (clientX, clientY) :: _ => handleMouseMove clientX clientY canvas s
  | [] => s
  end.

(** [handleResize] *)
Definition handleResize (v : Revision) (p : Page) (s : Scene) : Scene :=
  match heroRef p with
  | None => s
  | Some heroRect =>
      match v with
      | ContainerCanvas =>
          let newContainerWidth := DOMRect.width heroRect in
          let newHeight := DOMRect.height heroRect in
          let newCanvasWidth := (newContainerWidth + CANVAS_EXTENSION * 2)%Q in
          let s1 := setRenderSize (newCanvasWidth, newHeight) s in
          let s2 := createWalls v newCanvasWidth newHeight s1 in
          if negb (hasBeenTouchedRef s2)
          then createLetterBodies v newContainerWidth 0 0 s2
          else s2
      | FullViewport =>
          let newCanvasWidth := innerWidth p in
          let newCanvasHeight := innerHeight p in
          let s1 := setRenderSize (newCanvasWidth, newCanvasHeight) s in
          let s2 := createWalls v newCanvasWidth 0 s1 in
          if negb (hasBeenTouchedRef s2)
          then createLetterBodies v (DOMRect.width heroRect)
                 (DOMRect.left heroRect) (DOMRect.top heroRect) s2
          else s2
      end
  end.

(** The body of the effect up to the registration of the listeners: a
    new engine with an empty world, the walls, the letters and the
    pointer body. *)
Definition mount (v : Revision) (p : Page) (s : Scene) : Scene :=
  if negb (sceneRef p) then s
  else
    match heroRef p with
    | None => s
    | Some heroRect =>
        let s0 := setEngine (Some []) s in
        let s3 :=
          match v with
          | ContainerCanvas =>
              let containerWidth := DOMRect.width heroRect in
              let h := DOMRect.height heroRect in
              let canvasWidth := (containerWidth + CANVAS_EXTENSION * 2)%Q in
              let s1 := setRenderSize (canvasWidth, h) s0 in
              let s2 := createWalls v canvasWidth h s1 in
              createLetterBodies v containerWidth 0 0 s2
          | FullViewport =>
              let canvasWidth := innerWidth p in
              let canvasHeight := innerHeight p in
              let s1 := setRenderSize (canvasWidth, canvasHeight) s0 in
              let s2 := createWalls v canvasWidth 0 s1 in
              createLetterBodies v (DOMRect.width heroRect)
                (DOMRect.left heroRect) (DOMRect.top heroRect) s2
          end in
        let '(mouseBody, s4) := Bodies_circle 0 0 15 wallOptions s3 in
        World_add mouseBody (setMouseBody (Some mouseBody) s4)
    end.

(* ----------------------------------------------------------------- *)
(** *** The scene as a transition system *)

(** What can happen to a mounted scene: the runner advances the
    physics, a frame is rendered (which ends with [checkForMovement]),
    the pointer or a finger moves, the window is resized, the reset
    button is clicked. *)
Inductive Event :=
| EngineTick (f : handle -> Body -> Body)
| AfterRender
| MouseMove (clientX clientY : Q) (canvas : DOMRect.t)
| TouchMove (touches : list (Q * Q)) (canvas : DOMRect.t)
| Resize (p : Page)
| ResetClick.

Definition step (v : Revision) (s : Scene) (e : Event) : Scene :=
  match e with
  | EngineTick f => Engine_update f s
  | AfterRender => checkForMovement s
  | MouseMove cx cy canvas => handleMouseMove cx cy canvas s
  | TouchMove touches canvas => handleTouchMove touches canvas s
  | Resize p => handleResize v p s
  | ResetClick => resetText s
  end.

Definition run (v : Revision) (s : Scene) (es : list Event) : Scene :=
  fold_left (step v) es s.

Definition isReset (e : Event) : bool :=
  match e with ResetClick => true | _ => false end.

(* ================================================================= *)
(** ** The subscription endpoint: [POST /api/subscribe] *)

Module Subscribe.

(** A JavaScript string: its UTF-16 code units. *)
Definition jsString := list N.

Definition codeUnits (s : string) : jsString :=
  map N_of_ascii (list_ascii_of_string s).

(** A parsed JSON value. *)
#[local] Unset Elimination Schemes.
Inductive Json :=
| JNull
| JBool (b : bool)
| JNumber (q : Q)
| JString (s : jsString)
| JArray (items : list Json)
| JObject (fields : list (jsString * Json)).
#[local] Set Elimination Schemes.

Fixpoint jsString_eqb (a b : jsString) : bool :=
  match a, b with
  | [], [] => true
  | c :: a', d :: b' => N.eqb c d && jsString_eqb a' b'
  | _, _ => false
  end.

(** Property lookup on a parsed object; a later duplicate key
    overwrites an earlier one. *)
Fixpoint getField (k : jsString) (fields : list (jsString * Json))
  : option Json :=
  match fields with
  | [] => None
  | (k', val) :: rest =>
      match getField k rest with
      | Some later => Some later
      | None => if jsString_eqb k' k then Some val else None
      end
  end.

(** [const { email } = value]: [None] when the destructuring throws,
    [Some None] when [email] is [undefined]. *)
Definition destructureEmail (value : Json) : option (option Json) :=
  match value with
  | JNull => None
  | JObject fields => Some (getField (codeUnits "email") fields)
  | JBool _ | JNumber _ | JString _ | JArray _ => Some None
  end.

(** [!email] is the negation of this. *)
Definition truthy (email : option Json) : bool :=
  match email with
  | None => false
  | Some JNull => false
  | Some (JBool b) => b
  | Some (JNumber q) => negb (Qeq_bool q 0)
  | Some (JString s) => match s with [] => false | _ :: _ => true end
  | Some (JArray _) => true
  | Some (JObject _) => true
  end.

(** [typeof email === 'string'], with the string when it is one. *)
Definition asString (email : option Json) : option jsString :=
  match email with
  | Some (JString s) => Some s
  | _ => None
  end.

(* --------------------------------------------------------------- *)
(** *** Regular expressions *)

Inductive Regex :=
| Never
| Empty
| Class (p : N -> bool)
| Cat (r1 r2 : Regex)
| Alt (r1 r2 : Regex)
| Star (r : Regex).

(** [r+] *)
Definition Plus (r : Regex) : Regex := Cat r (Star r).

(** A literal character. *)
Definition Lit (c : N) : Regex := Class (N.eqb c).

Fixpoint nullable (r : Regex) : bool :=
  match r with
  | Never => false
  | Empty => true
  | Class _ => false
  | Cat r1 r2 => nullable r1 && nullable r2
  | Alt r1 r2 => nullable r1 || nullable r2
  | Star _ => true
  end.

(** What is left of [r] after reading [c]. *)
Fixpoint deriv (c : N) (r : Regex) : Regex :=
  match r with
  | Never => Never
  | Empty => Never
  | Class p => if p c then Empty else Never
  | Cat r1 r2 =>
      if nullable r1
      then Alt (Cat (deriv c r1) r2) (deriv c r2)
      else Cat (deriv c r1) r2
  | Alt r1 r2 => Alt (deriv c r1) (deriv c r2)
  | Star r1 => Cat (deriv c r1) (Star r1)
  end.

(** [/^r$/.test(s)]: the whole string matches [r]. *)
Fixpoint test (r : Regex) (s : jsString) : bool :=
  match s with
  | [] => nullable r
  | c :: rest => test (deriv c r) rest
  end.

(** The class [\s]: WhiteSpace and LineTerminator code points. *)
Definition isSpace (c : N) : bool :=
  (N.eqb c 9 || N.eqb c 10 || N.eqb c 11 || N.eqb c 12 || N.eqb c 13
   || N.eqb c 32 || N.eqb c 160 || N.eqb c 5760
   || (N.leb 8192 c && N.leb c 8202)
   || N.eqb c 8232 || N.eqb c 8233 || N.eqb c 8239 || N.eqb c 8287
   || N.eqb c 12288 || N.eqb c 65279)%bool.

Definition AT : N := 64.
Definition DOT : N := 46.

(** The class [[^\s@]]. *)
Definition notSpaceAt (c : N) : bool := negb (isSpace c || N.eqb c AT).

(** [/^[^\s@]+@[^\s@]+\.[^\s@]+$/] *)
Definition emailRegex : Regex :=
  Cat (Plus (Class notSpaceAt))
    (Cat (Lit AT)
       (Cat (Plus (Class notSpaceAt))
          (Cat (Lit DOT) (Plus (Class notSpaceAt))))).

(* --------------------------------------------------------------- *)
(** *** The handler *)

(** What [resend.contacts.create] answers. *)
Inductive CreateResult :=
| Created (id : option jsString)
| Refused
| Threw.

Inductive Payload :=
| ErrorMessage (msg : string)
| Success (id : option jsString).

(** The response, and the e-mails [resend.contacts.create] was called
    with while the request was handled. *)
Record Outcome := {
  status : Z;
  payload : Payload;
  createCalls : list jsString;
}.

Definition respond (st : Z) (p : Payload) (calls : list jsString) : Outcome :=
  {| status := st; payload := p; createCalls := calls |}.

(** [POST(request)].  [body] is what [request.json()] resolves to, or
    [None] when it rejects. *)
Definition POST (resend : jsString -> CreateResult) (body : option Json)
  : Outcome :=
  let caught := respond 500 (ErrorMessage "Something went wrong") in
  match body with
  | None => caught []
  | Some value =>
      match destructureEmail value with
      | None => caught []
      | Some email =>
          match (if truthy email then asString email else None) with
          | None => respond 400 (ErrorMessage "Email is required") []
          | Some addr =>
              if negb (test emailRegex addr)
              then respond 400 (ErrorMessage "Invalid email format") []
              else
                match resend addr with
                | Threw => caught [addr]
                | Refused =>
                    respond 500 (ErrorMessage "Failed to subscribe") [addr]
                | Created id => respond 200 (Success id) [addr]
                end
          end
      end
  end.

(** The [email] the handler read from the request, when it read one. *)
Definition emailOf (body : option Json) : option (option Json) :=
  match body with
  | None => None
  | Some value => destructureEmail value
  end.

(** What "matches the pattern" means, in words: a non-empty local
    part, ['@'], a non-empty part, ['.'], a non-empty part, none of
    the three parts containing white space or ['@']. *)
Definition wellFormed (s : jsString) : Prop :=
  exists a b c : jsString,
    s = a ++ [AT] ++ b ++ [DOT] ++ c /\
    a <> [] /\ b <> [] /\ c <> [] /\
    Forall (fun u => notSpaceAt u = true) a /\
    Forall (fun u => notSpaceAt u = true) b /\
    Forall (fun u => notSpaceAt u = true) c.

(** The language of a regular expression. *)
Inductive Matches : Regex -> jsString -> Prop :=
| MEmpty : Matches Empty []
| MClass p c : p c = true -> Matches (Class p) [c]
| MCat r1 r2 s1 s2 :
    Matches r1 s1 -> Matches r2 s2 -> Matches (Cat r1 r2) (s1 ++ s2)
| MAltL r1 r2 s : Matches r1 s -> Matches (Alt r1 r2) s
| MAltR r1 r2 s : Matches r2 s -> Matches (Alt r1 r2) s
| MStarNil r : Matches (Star r) []
| MStarCons r s1 s2 :
    Matches r s1 -> Matches (Star r) s2 -> Matches (Star r) (s1 ++ s2).

End Subscribe.

(* ================================================================= *)
(** ** Predicates and invariants used in the statements *)

(** A word as [split] on the description yields it: not empty and
    free of spaces. *)
Definition properWord (w : string) : Prop :=
  Str.truthy w = true /\ Str.mem SPACE w = false.

(** The words a loop state holds, in order. *)
Definition wordsOf (st : list string * string) : list string :=
  flat_map (Str.split SPACE) (fst st)
    ++ (if Str.truthy (snd st) then Str.split SPACE (snd st) else []).

(** A line is fine when it fits or is one word of the text that does
    not fit. *)
Definition fineLine (limit : Z) (text : list string) (line : string) : Prop :=
  (Str.len line <= limit)%Z \/ ((limit < Str.len line)%Z /\ In line text).

(** The loop invariant for the length bound: finished lines are fine,
    and so is the current line unless it is still empty. *)
Definition fineState (limit : Z) (text : list string) (st : list string * string) : Prop :=
  Forall (fineLine limit text) (fst st)
  /\ (Str.truthy (snd st) = true -> fineLine limit text (snd st)).

(** The loop invariant for the second half: a non-empty word that
    does not fit and has been read is a finished line or is the
    current line. *)
Definition keptState (limit : Z) (seen : list string) (st : list string * string) : Prop :=
  forall w, In w seen -> Str.truthy w = true -> (limit < Str.len w)%Z ->
            In w (fst st) \/ w = snd st.


(** The layout as data: what the spec calls a glyph body, without the
    physics handle. *)
Record Glyph := {
  glyph : ascii;
  glyphSize : Q;
  glyphX : Q;
  glyphY : Q;
  glyphTitle : bool;
}.

Definition glyphOf (tb : TextBody) : Glyph :=
  {| glyph := char tb; glyphSize := fontSize tb; glyphX := initialX tb;
     glyphY := initialY tb; glyphTitle := isTitle tb |}.

Definition textBodyOf (h : handle) (g : Glyph) : TextBody :=
  {| body := h; char := glyph g; fontSize := glyphSize g;
     initialX := glyphX g; initialY := glyphY g; isTitle := glyphTitle g |}.

(** Glyphs paired with consecutive handles. *)
Fixpoint number (h : handle) (gs : list Glyph) : list TextBody :=
  match gs with
  | [] => []
  | g :: rest => textBodyOf h g :: number (S h) rest
  end.

(** The glyph of the character at index [i] of a line. *)
Definition glyphAt (title : bool) (size py startX charWidth : Q)
    (ic : nat * ascii) : list Glyph :=
  if Ascii.eqb (snd ic) SPACE then []
  else [ {| glyph := snd ic; glyphSize := size;
            glyphX := (startX + ofIndex (fst ic) * charWidth)%Q;
            glyphY := py; glyphTitle := title |} ].

(** The glyphs of one line: one per character that is not a space, at
    [startX + i * charWidth]. *)
Definition lineGlyphs (title : bool) (origin : Q) (line : string * Q * Q)
  : list Glyph :=
  let '(text, size, py) := line in
  let charWidth := (size * 0.62)%Q in
  let startX := (origin + charWidth / 2)%Q in
  flat_map (glyphAt title size py startX charWidth) (Str.indexedFrom 0 text).

(** The glyphs of the whole text for a width and an origin. *)
Definition layout (v : Revision) (containerWidth offsetX offsetY : Q)
  : list Glyph :=
  let config := getResponsiveConfig v containerWidth in
  flat_map (lineGlyphs true (originX v offsetX)) (titleLines v config offsetY)
  ++ flat_map (lineGlyphs false (originX v offsetX)) (descLines v config offsetY).

(** The rectangle created for a glyph. *)
Definition letterBody (g : Glyph) : Body :=
  newBody (glyphX g) (glyphY g)
          (Rectangle (glyphSize g * 0.62 * 0.9)%Q (glyphSize g * 1.1)%Q)
          letterOptions.

(** Several new objects written to the heap, in order. *)
Definition insertAll (kvs : list (handle * Body)) (m : gmap handle Body)
  : gmap handle Body :=
  fold_left (fun acc kv => <[fst kv := snd kv]> acc) kvs m.

Definition letterEntry (tb : TextBody) : handle * Body :=
  (body tb, letterBody (glyphOf tb)).

(** The scene after the letters [tbs] have been created, added to the
    world and recorded, all at once. *)
Definition placeAll (tbs : list TextBody) (s : Scene) : Scene :=
  {| heap := insertAll (map letterEntry tbs) (heap s);
     nextHandle := length tbs + nextHandle s;
     engineRef := option_map (fun w => w ++ map body tbs) (engineRef s);
     textBodiesRef := textBodiesRef s ++ tbs;
     mouseBodyRef := mouseBodyRef s; wallsRef := wallsRef s;
     hasBeenTouchedRef := hasBeenTouchedRef s;
     showResetButton := showResetButton s; renderSize := renderSize s |}.

(** The world with the bodies [hs] removed, one [World.remove] each. *)
Definition removeAll (hs : list handle) (w : list handle) : list handle :=
  fold_left (fun acc h => removeFirst h acc) hs w.

(** The wall created for a rectangle of [wallRects]. *)
Definition wallBody (r : Q * Q * Q * Q) : Body :=
  let '(cx, cy, w, h) := r in newBody cx cy (Rectangle w h) wallOptions.

(** The scene after [createWalls] has replaced the walls, all at
    once. *)
Definition wallsPlaced (v : Revision) (w h : Q) (s : Scene) : Scene :=
  let hs := seq (nextHandle s) 4 in
  {| heap := insertAll (combine hs (map wallBody (wallRects v w h))) (heap s);
     nextHandle := 4 + nextHandle s;
     engineRef :=
       option_map (fun world => removeAll (wallsRef s) world ++ hs) (engineRef s);
     textBodiesRef := textBodiesRef s; mouseBodyRef := mouseBodyRef s;
     wallsRef := hs;
     hasBeenTouchedRef := hasBeenTouchedRef s;
     showResetButton := showResetButton s; renderSize := renderSize s |}.

(** What [resetText] does to one body: the pose and the velocities are
    overwritten, everything else is kept. *)
Definition resetPose (tb : TextBody) (b : Body) : Body :=
  {| position := {| x := initialX tb; y := initialY tb |};
     angle := 0;
     velocity := {| x := 0; y := 0 |};
     angularVelocity := 0;
     isStatic := isStatic b; shape := shape b;
     restitution := restitution b; friction := friction b;
     frictionAir := frictionAir b; density := density b |}.

(** The handles of the letters. *)
Definition letterHandles (s : Scene) : list handle :=
  map body (textBodiesRef s).

(** What holds of every scene the page can be in: handles are
    allocated in increasing order, the recorded letters, the walls and
    the pointer body are distinct allocated objects, and the world lists
    no body twice. *)
Record sceneInv (s : Scene) : Prop := {
  inv_fresh : forall h, is_Some (heap s !! h) -> h < nextHandle s;
  inv_letters : forall h, In h (letterHandles s) -> is_Some (heap s !! h);
  inv_letters_nodup : NoDup (letterHandles s);
  inv_walls : forall h, In h (wallsRef s) -> is_Some (heap s !! h);
  inv_walls_letters : forall h, In h (wallsRef s) -> ~ In h (letterHandles s);
  inv_mouse : forall m, mouseBodyRef s = Some m ->
                is_Some (heap s !! m)
                /\ ~ In m (letterHandles s) /\ ~ In m (wallsRef s);
  inv_world : forall w, engineRef s = Some w -> NoDup w;
  inv_world_alloc : forall w h,
      engineRef s = Some w -> In h w -> is_Some (heap s !! h);
}.

(** The scenes the page can be in: the refs as initialised, then any
    run of the effect and any event. *)
Inductive reachable (v : Revision) : Scene -> Prop :=
| reach_initial : reachable v initialScene
| reach_mount p s : reachable v s -> reachable v (mount v p s)
| reach_step e s : reachable v s -> reachable v (step v s e).

(** The size of the canvas after a resize: the hero container plus the
    extension in one revision, the viewport in the other. *)
Definition canvasSize (v : Revision) (p : Page) (heroRect : DOMRect.t) : Q * Q :=
  match v with
  | ContainerCanvas =>
      ((DOMRect.width heroRect + CANVAS_EXTENSION * 2)%Q, DOMRect.height heroRect)
  | FullViewport => (innerWidth p, innerHeight p)
  end.

(** The two flags of the disturbance tracker. *)
Definition flags (s : Scene) : bool * bool :=
  (hasBeenTouchedRef s, showResetButton s).

(** Some letter is off its initial pose by more than the thresholds. *)
Definition disturbed (s : Scene) : Prop :=
  exists tb b,
    In tb (textBodiesRef s) /\ heap s !! body tb = Some b /\
    ((MOVEMENT_THRESHOLD < Qabs (x (position b) - initialX tb))%Q
     \/ (MOVEMENT_THRESHOLD < Qabs (y (position b) - initialY tb))%Q
     \/ (0.1 < Qabs (angle b))%Q).

(** A letter at rest at its initial pose. *)
Definition atRest (s : Scene) (tb : TextBody) : Prop :=
  exists b,
    heap s !! body tb = Some b /\
    position b = {| x := initialX tb; y := initialY tb |} /\
    angle b = 0%Q /\
    velocity b = {| x := 0%Q; y := 0%Q |} /\
    angularVelocity b = 0%Q.

(* ================================================================= *)
(** ** Sample inputs *)

Definition page300 : Page :=
  {| innerWidth := 390; innerHeight := 844; sceneRef := true;
     heroRef := Some {| DOMRect.left := 24; DOMRect.top := 100;
                        DOMRect.width := 300; DOMRect.height := 320 |} |}.

Definition hero900 : DOMRect.t :=
  {| DOMRect.left := 190; DOMRect.top := 120;
     DOMRect.width := 900; DOMRect.height := 240 |}.

Definition page900 : Page :=
  {| innerWidth := 1280; innerHeight := 800; sceneRef := true;
     heroRef := Some hero900 |}.

(** The page on a phone, just mounted. *)
Definition mounted : Scene := mount FullViewport page300 initialScene.

(** An engine update that moves the first letter (the body with
    handle 4, after the four walls) to the right by [d] and leaves all
    other bodies alone. *)
Definition nudge (d : Q) (h : handle) (b : Body) : Body :=
  if Nat.eqb h 4
  then {| position := {| x := (x (position b) + d)%Q; y := y (position b) |};
          angle := angle b; velocity := velocity b;
          angularVelocity := angularVelocity b; isStatic := isStatic b;
          shape := shape b; restitution := restitution b;
          friction := friction b; frictionAir := frictionAir b;
          density := density b |}
  else b.

(** The mounted page after the first letter has been pushed by 6. *)
Definition shaken : Scene := step FullViewport mounted (EngineTick (nudge 6)).

(** The same once a frame has been rendered. *)
Definition noticed : Scene := step FullViewport shaken AfterRender.

(** A request body [{ "email": s }]. *)
Definition requestWith (s : string) : option Subscribe.Json :=
  Some (Subscribe.JObject
          [(Subscribe.codeUnits "email",
            Subscribe.JString (Subscribe.codeUnits s))]).

(* ================================================================= *)
(** ** Further notions used in the statements *)

(** The first word of a line. *)
Definition firstWord (line : string) : string :=
  hd EmptyString (Str.split SPACE line).

(** Words appended to a line, each after a single space. *)
Definition joinFrom (cur : string) (words : list string) : string :=
  fold_left (fun c w => (c ++ " " ++ w)%string) words cur.

(** The break after [l1] is forced: the first word of the next line
    [l2] would not have fitted on [l1]. *)
Definition forcedBreak (limit : Z) (l1 l2 : string) : Prop :=
  (limit < Str.len l1 + 1 + Str.len (firstWord l2))%Z.

(** Every break in a sequence of lines is forced. *)
Definition forcedBreaks (limit : Z) (lines : list string) : Prop :=
  forall a l1 l2 b, lines = a ++ l1 :: l2 :: b -> forcedBreak limit l1 l2.

(** The loop invariant for forced breaks. *)
Definition greedyState (limit : Z) (st : list string * string) : Prop :=
  forcedBreaks limit (fst st)
  /\ (Str.truthy (snd st) = false -> fst st = [])
  /\ (Str.truthy (snd st) = true ->
      forall a l, fst st = a ++ [l] -> forcedBreak limit l (snd st)).

(** Every recorded letter is at rest at its initial pose. *)
Definition allAtRest (s : Scene) : Prop := Forall (atRest s) (textBodiesRef s).

(** The body is listed in the world of the scene. *)
Definition inWorld (s : Scene) (h : handle) : Prop :=
  match engineRef s with
  | Some w => In h w
  | None => False
  end.

(** The body is one the component keeps a reference to: a wall, a
    letter or the pointer body. *)
Definition referenced (s : Scene) (h : handle) : Prop :=
  In h (wallsRef s) \/ In h (letterHandles s) \/ mouseBodyRef s = Some h.

Definition isTick (e : Event) : bool :=
  match e with EngineTick _ => true | _ => false end.

(** The bounding box of a body that has not been rotated. *)
Definition halfWidth (b : Body) : Q :=
  match shape b with Rectangle w _ => (w / 2)%Q | Circle r => r end.
Definition halfHeight (b : Body) : Q :=
  match shape b with Rectangle _ h => (h / 2)%Q | Circle r => r end.
Definition minX (b : Body) : Q := (x (position b) - halfWidth b)%Q.
Definition maxX (b : Body) : Q := (x (position b) + halfWidth b)%Q.
Definition minY (b : Body) : Q := (y (position b) - halfHeight b)%Q.
Definition maxY (b : Body) : Q := (y (position b) + halfHeight b)%Q.

(** Two bounding boxes that do not overlap: one lies entirely to the
    left of, or entirely above, the other (touching edges allowed). *)
Definition apart (b1 b2 : Body) : Prop :=
  (maxX b1 <= minX b2)%Q \/ (maxX b2 <= minX b1)%Q
  \/ (maxY b1 <= minY b2)%Q \/ (maxY b2 <= minY b1)%Q.

(** How far down the walls reach: the height handed to [createWalls]
    in one revision, its fixed [extendedHeight] in the other. *)
Definition wallExtent (v : Revision) (h : Q) : Q :=
  match v with ContainerCanvas => h | FullViewport => 2000%Q end.

(** The rectangles created for two glyphs do not overlap. *)
Definition glyphsApart (g1 g2 : Glyph) : Prop :=
  apart (letterBody g1) (letterBody g2).

(** Line [l1] lies above line [l2], with room for the letters of
    both. *)
Definition lineAbove (l1 l2 : string * Q * Q) : Prop :=
  (snd l1 + snd (fst l1) * 1.1 / 2 <= snd l2 - snd (fst l2) * 1.1 / 2)%Q.

(* ----------------------------------------------------------------- *)
(** *** The render pass: the first half of the [afterRender] callback *)

(** The calls made on the 2D context. *)
Inductive DrawCmd :=
| Save
| Translate (dx dy : Q)
| Rotate (a : Q)
| SetFont (fontWeight : string) (size : Q)
| SetFillStyle (colour : string)
| SetTextAlign (align : string)
| SetTextBaseline (baseline : string)
| FillText (c : ascii) (px py : Q)
| Restore.

(** The callback of [textBodiesRef.current.forEach] in the render
    pass.  The font is
    [`${fontWeight} ${fontSize}px "JetBrains Mono", ...`]; the family
    list is the same for every letter and is left out. *)
Definition drawLetter (s : Scene) (tb : TextBody) : list DrawCmd :=
  match heap s !! body tb with
  | Some b =>
      let fontWeight := if isTitle tb then "600"%string else "400"%string in
      [ Save;
        Translate (x (position b)) (y (position b));
        Rotate (angle b);
        SetFont fontWeight (fontSize tb);
        SetFillStyle "#1E3A8A";
        SetTextAlign "center";
        SetTextBaseline "middle";
        FillText (char tb) 0 0;
        Restore ]
  | None => []
  end.

(** The calls of one render pass, in order. *)
Definition renderPass (s : Scene) : list DrawCmd :=
  flat_map (drawLetter s) (textBodiesRef s).

(** The characters a sequence of calls draws, in order. *)
Definition drawn (cmds : list DrawCmd) : list ascii :=
  flat_map (fun c => match c with FillText ch _ _ => [ch] | _ => [] end) cmds.

(** The depth of the context's state stack after the calls, starting
    from depth [d]; [None] if a [restore] finds the stack empty. *)
Fixpoint stackAfter (d : nat) (cmds : list DrawCmd) : option nat :=
  match cmds with
  | [] => Some d
  | Save :: rest => stackAfter (S d) rest
  | Restore :: rest =>
      match d with
      | O => None
      | S d' => stackAfter d' rest
      end
  | _ :: rest => stackAfter d rest
  end.

(** The characters of a string other than spaces. *)
Fixpoint nonSpace (s : string) : list ascii :=
  match s with
  | EmptyString => []
  | String c rest =>
      if Ascii.eqb c SPACE then nonSpace rest else c :: nonSpace rest
  end.

(** What the page reads as: both title lines and the description,
    without the spaces. *)
Definition pageText (v : Revision) : list ascii :=
  nonSpace "AMMAN VEDI" ++ nonSpace (titleLine2 v)
  ++ nonSpace (DESCRIPTION_TEXT v).

(* ----------------------------------------------------------------- *)
(** *** The subscription form: [handleSubscribe] *)

Module Client.

Inductive SubscribeStatus := idle | loading | success | error.

(** The state of the form, with what it has done so far: the e-mails
    posted to [/api/subscribe] and the number of confetti bursts. *)
Record Form := {
  email : Subscribe.jsString;
  subscribeStatus : SubscribeStatus;
  posted : list Subscribe.jsString;
  confetti : nat;
}.

(** How [await fetch(...)] ends: it throws, or there is a response with
    its [ok] flag. *)
Inductive FetchResult :=
| Failed
| Response (ok : bool).

Definition isLoading (st : SubscribeStatus) : bool :=
  match st with loading => true | _ => false end.

(** Up to the [await]: the guard, then the form is loading and the
    request is on its way. *)
Definition beginSubmit (f : Form) : option Form :=
  if negb (Subscribe.truthy (Some (Subscribe.JString (email f))))
     || isLoading (subscribeStatus f)
  then None
  else Some {| email := email f; subscribeStatus := loading;
               posted := posted f ++ [email f]; confetti := confetti f |}.

(** After the [await]. *)
Definition endSubmit (r : FetchResult) (f : Form) : Form :=
  match r with
  | Response true =>
      {| email := []; subscribeStatus := success;
         posted := posted f; confetti := S (confetti f) |}
  | Response false | Failed =>
      {| email := email f; subscribeStatus := error;
         posted := posted f; confetti := confetti f |}
  end.

(** [handleSubscribe(e)], with the answer the request gets. *)
Definition handleSubscribe (fetch : Subscribe.jsString -> FetchResult)
    (f : Form) : Form :=
  match beginSubmit f with
  | None => f
  | Some f1 => endSubmit (fetch (email f)) f1
  end.

(** The body [JSON.stringify({ email })] as the endpoint parses it. *)
Definition requestFor (addr : Subscribe.jsString) : option Subscribe.Json :=
  Some (Subscribe.JObject
          [(Subscribe.codeUnits "email", Subscribe.JString addr)]).

(** [res.ok]: the status is in the range 200 to 299. *)
Definition okStatus (st : Z) : bool := ((200 <=? st) && (st <=? 299))%Z.

(** A request that reaches the endpoint and is answered by it. *)
Definition throughEndpoint (resend : Subscribe.jsString -> Subscribe.CreateResult)
    (addr : Subscribe.jsString) : FetchResult :=
  Response (okStatus (Subscribe.status (Subscribe.POST resend (requestFor addr)))).

End Client.

(* ----------------------------------------------------------------- *)
(** *** More sample inputs *)

(** The description as wrapped for a width of 300. *)
Definition lines300 : list string :=
  descriptionLines (getResponsiveConfig FullViewport 300).

(** A scene with an empty world and nothing recorded. *)
Definition fresh : Scene := setEngine (Some []) initialScene.

(** A canvas at the top left corner of the viewport. *)
Definition canvas0 : DOMRect.t :=
  {| DOMRect.left := 0; DOMRect.top := 0;
     DOMRect.width := 390; DOMRect.height := 844 |}.

(** The letters of the page laid out for a width of 300 at (24, 100). *)
Definition letters300 : Scene := createLetterBodies FullViewport 300 24 100 fresh.

(** Its first two letters, the [A] and the [M] of the title. *)
Definition letterA : TextBody :=
  Eval vm_compute in
    nth 0 (textBodiesRef letters300)
        (textBodyOf 0 {| glyph := SPACE; glyphSize := 0; glyphX := 0;
                         glyphY := 0; glyphTitle := false |}).

Definition letterM : TextBody :=
  Eval vm_compute in
    nth 1 (textBodiesRef letters300)
        (textBodyOf 0 {| glyph := SPACE; glyphSize := 0; glyphX := 0;
                         glyphY := 0; glyphTitle := false |}).

(** The form with an e-mail typed and nothing submitted yet. *)
Definition form0 : Client.Form :=
  {| Client.email := Subscribe.codeUnits "a@b.co";
     Client.subscribeStatus := Client.idle;
     Client.posted := []; Client.confetti := 0 |}.

(* ----------------------------------------------------------------- *)
(** *** Rounding in [Body.setPosition] and [Body.setAngle] *)

(** One coordinate of [Body.setPosition], as Matter.js computes it:
    [delta = target - current], then [current += delta], each operation
    rounded by [fl].  [Body.setAngle] does the same with the angle. *)
Definition moveBy (fl : Q -> Q) (target current : Q) : Q :=
  fl (current + fl (target - current))%Q.










(** The same two operations on binary64 numbers, which JavaScript
    numbers are. *)
Module Double.

Import PrimFloat.
#[local] Open Scope float_scope.
#[local] Set Warnings "-inexact-float".

Record Vector := { x : float; y : float }.

(** The pose of a body of one part. *)
Record Pose := { position : Vector; angle : float }.

Definition Vector_sub (a b : Vector) : Vector :=
  {| x := x a - x b; y := y a - y b |}.

(** [Body.setPosition(body, position)] *)
Definition Body_setPosition (target : Vector) (b : Pose) : Pose :=
  let delta := Vector_sub target (position b) in
  {| position := {| x := x (position b) + x delta;
                    y := y (position b) + y delta |};
     angle := angle b |}.

(** [Body.setAngle(body, angle)] *)
Definition Body_setAngle (a : float) (b : Pose) : Pose :=
  let delta := a - angle b in
  {| position := position b; angle := angle b + delta |}.

(** The first two calls of the callback in [resetText]. *)
Definition resetPose (initialX initialY : float) (b : Pose) : Pose :=
  Body_setAngle 0 (Body_setPosition {| x := initialX; y := initialY |} b).



End Double.

(* ================================================================= *)
(** * Properties of the layout planner *)

Section WordWrap.

Variable limit : Z.

Lemma split_nonempty sep s : Str.split sep s <> [].
Proof. destruct s as [|c s]; simpl; [discriminate|]; repeat case_match; discriminate. Qed.

Lemma split_word w : Str.mem SPACE w = false -> Str.split SPACE w = [w].
Proof.
  induction w as [|c w IH]; simpl; [reflexivity|].
  intros H. apply orb_false_iff in H as [Hc Hw].
  rewrite Hc, (IH Hw). reflexivity.
Qed.

Lemma split_join a b :
  Str.split SPACE (a ++ String SPACE b) = Str.split SPACE a ++ Str.split SPACE b.
Proof.
  induction a as [|c a IH]; simpl; [reflexivity|].
  destruct (Ascii.eqb c SPACE); simpl; [now rewrite IH|].
  rewrite IH. destruct (Str.split SPACE a) eqn:E; [|reflexivity].
  now apply split_nonempty in E.
Qed.

Lemma split_pieces sep s : Forall (fun w => Str.mem sep w = false) (Str.split sep s).
Proof.
  induction s as [|c s IH]; simpl; [repeat constructor|].
  destruct (Ascii.eqb c sep) eqn:E; [constructor; [reflexivity|exact IH]|].
  destruct (Str.split sep s) as [|w ws]; [repeat constructor; simpl; now rewrite E|].
  inversion IH; subst. constructor; [simpl; now rewrite E|assumption].
Qed.

Lemma len_join a b : Str.len (a ++ String SPACE b) = (Str.len a + 1 + Str.len b)%Z.
Proof.
  unfold Str.len. induction a as [|c a IH]; simpl String.length; lia.
Qed.

Lemma truthy_join a b : Str.truthy (a ++ String SPACE b) = true.
Proof. destruct a; reflexivity. Qed.

Lemma falsy_empty s : Str.truthy s = false -> s = EmptyString.
Proof. destruct s; [reflexivity|discriminate]. Qed.

Lemma wrapStep_wordsOf st word :
  properWord word ->
  wordsOf (wrapStep limit st word) = wordsOf st ++ [word].
Proof.
  intros [Hne Hsp]. destruct st as [lines cur].
  unfold wrapStep, wordsOf.
  change (" " ++ word)%string with (String SPACE word).
  simpl fst; simpl snd.
  destruct (Str.truthy cur) eqn:Hcur;
    destruct (Z.leb _ limit); simpl fst; simpl snd.
  - rewrite truthy_join, split_join, (split_word _ Hsp).
    now rewrite app_assoc.
  - rewrite Hne, flat_map_app, (split_word _ Hsp). simpl.
    rewrite app_nil_r, <- app_assoc. reflexivity.
  - rewrite Hne, (split_word _ Hsp), app_nil_r. reflexivity.
  - rewrite Hne, (split_word _ Hsp), app_nil_r. reflexivity.
Qed.

Lemma fold_wordsOf words : forall st,
  Forall properWord words ->
  wordsOf (fold_left (wrapStep limit) words st) = wordsOf st ++ words.
Proof.
  induction words as [|w ws IH]; intros st H; simpl.
  - now rewrite app_nil_r.
  - inversion H; subst. rewrite IH, wrapStep_wordsOf by assumption.
    now rewrite <- app_assoc.
Qed.

(** Splitting the wrapped lines gives back the words. *)
Lemma wrapWords_words words :
  Forall properWord words ->
  flat_map (Str.split SPACE) (wrapWords limit words) = words.
Proof.
  intros H. pose proof (fold_wordsOf words ([], EmptyString) H) as E.
  unfold wrapWords. destruct (fold_left _ words _) as [lines cur].
  unfold wordsOf in E. simpl in E. rewrite <- E.
  destruct (Str.truthy cur); [|now rewrite app_nil_r].
  rewrite flat_map_app. simpl. now rewrite app_nil_r.
Qed.

Lemma fineLine_word text w : In w text -> fineLine limit text w.
Proof.
  intros H. unfold fineLine.
  destruct (Z_le_gt_dec (Str.len w) limit); [left|right; split]; auto; lia.
Qed.

Lemma wrapStep_fine text st word :
  In word text -> fineState limit text st -> fineState limit text (wrapStep limit st word).
Proof.
  intros Hin [Hl Hc]. destruct st as [lines cur]. simpl in Hl, Hc.
  unfold wrapStep, fineState.
  destruct (Str.truthy cur) eqn:Hcur;
    destruct (Z.leb _ limit) eqn:Hfit; simpl fst; simpl snd;
    (split; [|intros _]);
    auto using fineLine_word;
    try (left; now apply Z.leb_le).
  apply Forall_app; split; auto.
Qed.

Lemma fold_fine text words : forall st,
  incl words text -> fineState limit text st ->
  fineState limit text (fold_left (wrapStep limit) words st).
Proof.
  induction words as [|w ws IH]; intros st Hin Hst; simpl; [assumption|].
  apply IH; [intros u Hu; apply Hin; now right|].
  apply wrapStep_fine; [apply Hin; now left|assumption].
Qed.

Lemma wrapWords_fine words : Forall (fineLine limit words) (wrapWords limit words).
Proof.
  assert (H : fineState limit words ([], EmptyString)).
  { split; simpl; [constructor|discriminate]. }
  apply (fold_fine words words _ (incl_refl _)) in H.
  unfold wrapWords. destruct (fold_left _ words _) as [lines cur].
  destruct H as [Hl Hc]. simpl in Hl, Hc.
  destruct (Str.truthy cur); [|assumption].
  apply Forall_app; split; auto.
Qed.

Lemma wrapStep_kept seen st word :
  keptState limit seen st -> keptState limit (seen ++ [word]) (wrapStep limit st word).
Proof.
  intros Hk w Hw Hne Hlong. destruct st as [lines cur].
  apply in_app_or in Hw as [Hw|[<-|[]]].
  - specialize (Hk w Hw Hne Hlong). simpl in Hk.
    unfold wrapStep.
    destruct (Str.truthy cur) eqn:Hcur;
      destruct (Z.leb _ limit) eqn:Hfit; simpl fst; simpl snd.
    + destruct Hk as [Hk| ->]; [now left|].
      apply Z.leb_le in Hfit.
      change (" " ++ word)%string with (String SPACE word) in Hfit.
      rewrite len_join in Hfit. unfold Str.len in *. lia.
    + left. apply in_or_app. destruct Hk as [Hk| ->]; [now left|right; now left].
    + destruct Hk as [Hk| ->]; [now left|congruence].
    + destruct Hk as [Hk| ->]; [now left|congruence].
  - unfold wrapStep.
    destruct (Str.truthy cur) eqn:Hcur;
      destruct (Z.leb _ limit) eqn:Hfit; simpl fst; simpl snd;
      try (now right).
    + apply Z.leb_le in Hfit.
      change (" " ++ word)%string with (String SPACE word) in Hfit.
      rewrite len_join in Hfit. unfold Str.len in *. lia.
Qed.

Lemma fold_kept words : forall seen st,
  keptState limit seen st ->
  keptState limit (seen ++ words) (fold_left (wrapStep limit) words st).
Proof.
  induction words as [|w ws IH]; intros seen st H; simpl.
  - now rewrite app_nil_r.
  - replace (seen ++ w :: ws) with ((seen ++ [w]) ++ ws)
      by (now rewrite <- app_assoc).
    apply IH. now apply wrapStep_kept.
Qed.

(** A non-empty word that does not fit is a line of its own. *)
Lemma wrapWords_kept words w :
  In w words -> Str.truthy w = true -> (limit < Str.len w)%Z ->
  In w (wrapWords limit words).
Proof.
  intros Hw Hne Hlong.
  assert (H : keptState limit [] ([], EmptyString)) by (intros u []).
  apply (fold_kept words) in H. simpl in H.
  specialize (H w Hw Hne Hlong).
  unfold wrapWords. destruct (fold_left _ words _) as [lines cur].
  simpl in H. destruct H as [H| ->].
  - destruct (Str.truthy cur); [apply in_or_app; now left|assumption].
  - rewrite Hne. apply in_or_app. right. now left.
Qed.

End WordWrap.

Lemma description_words_proper v :
  Forall properWord (Str.split SPACE (DESCRIPTION_TEXT v)).
Proof. destruct v; vm_compute; repeat constructor. Qed.

Lemma isMobile_equal w1 w2 : (w1 == w2)%Q -> isMobile w1 = isMobile w2.
Proof.
  intros E. unfold isMobile.
  destruct (Qlt_le_dec w1 500), (Qlt_le_dec w2 500); try reflexivity;
    rewrite E in *; exfalso; eapply Qlt_not_le; eassumption.
Qed.

Lemma isTablet_equal w1 w2 : (w1 == w2)%Q -> isTablet w1 = isTablet w2.
Proof.
  intros E. unfold isTablet.
  destruct (Qlt_le_dec w1 768), (Qlt_le_dec w2 768); try reflexivity;
    rewrite E in *; exfalso; eapply Qlt_not_le; eassumption.
Qed.

Lemma bySize_equal {A} w1 w2 (a b c : A) :
  (w1 == w2)%Q -> bySize w1 a b c = bySize w2 a b c.
Proof.
  intros E. unfold bySize.
  now rewrite (isMobile_equal _ _ E), (isTablet_equal _ _ E).
Qed.

Lemma maxCharsPerLine_equal d w1 w2 :
  (w1 == w2)%Q -> maxCharsPerLine d w1 = maxCharsPerLine d w2.
Proof.
  intros E. unfold maxCharsPerLine. f_equal.
  apply Qfloor_comp. now rewrite E.
Qed.

(** C1. For every container width the word wrap neither reorders nor
    drops words: splitting every produced description line on single
    spaces and concatenating the pieces in line order gives exactly the
    words obtained by splitting the fixed description text on single
    spaces.  This holds for both revisions of the text. *)
Theorem wrap_keeps_word_sequence :
  forall (v : Revision) (containerWidth : Q),
    flat_map (Str.split SPACE)
             (descriptionLines (getResponsiveConfig v containerWidth))
    = Str.split SPACE (DESCRIPTION_TEXT v).
Proof.
  intros v containerWidth. simpl descriptionLines.
  apply wrapWords_words, description_words_proper.
Qed.

(** C2. For every container width (so in particular for every width
    above any floor), each description line either has at most
    [Math.floor(containerWidth / (descFontSize * 0.62)) - 2] characters
    or is longer than that and is, unchanged, one single word of the
    description; and every word of the description that is longer than
    the maximum is a line of its own. *)
Theorem wrap_respects_line_limit :
  forall (v : Revision) (containerWidth : Q),
    let config := getResponsiveConfig v containerWidth in
    let maxChars := maxCharsPerLine (descFontSize config) containerWidth in
    let words := Str.split SPACE (DESCRIPTION_TEXT v) in
    Forall (fun line =>
              (Str.len line <= maxChars)%Z
              \/ ((maxChars < Str.len line)%Z /\ In line words))
           (descriptionLines config)
    /\ Forall (fun word =>
                 (maxChars < Str.len word)%Z ->
                 In word (descriptionLines config))
              words.
Proof.
  intros v containerWidth config maxChars words. split.
  - apply (wrapWords_fine maxChars words).
  - apply List.Forall_forall. intros word Hin Hlong.
    apply wrapWords_kept; try assumption.
    pose proof (description_words_proper v) as Hp.
    rewrite List.Forall_forall in Hp. now destruct (Hp word Hin).
Qed.

(** C8. The layout planner is a function of the width alone: two calls
    with the same width, however that number is represented, return
    the same font sizes, the same line heights and the same sequence of
    description lines. *)
Theorem getResponsiveConfig_deterministic :
  forall (v : Revision) (w1 w2 : Q),
    (w1 == w2)%Q -> getResponsiveConfig v w1 = getResponsiveConfig v w2.
Proof.
  intros v w1 w2 E. unfold getResponsiveConfig.
  rewrite !(bySize_equal w1 w2) by exact E.
  now rewrite (maxCharsPerLine_equal _ w1 w2 E).
Qed.

(* ================================================================= *)
(** * Properties of the scene *)

(** ** Fields that an operation leaves alone *)

Lemma fold_left_keeps {A B C} (proj : A -> C) (f : A -> B -> A) (l : list B) :
  (forall a b, proj (f a b) = proj a) ->
  forall a, proj (fold_left f l a) = proj a.
Proof.
  intros H. induction l as [|b l IH]; intros a; simpl; [reflexivity|].
  now rewrite IH, H.
Qed.

Lemma addLetter_flags title size py startX charWidth s ic :
  flags (addLetter title size py startX charWidth s ic) = flags s.
Proof.
  destruct ic as [i c]. unfold addLetter.
  destruct (Ascii.eqb c SPACE); reflexivity.
Qed.

Lemma addLine_flags title origin s line : flags (addLine title origin s line) = flags s.
Proof.
  destruct line as [[text size] py]. unfold addLine.
  apply fold_left_keeps. intros; apply addLetter_flags.
Qed.

Lemma createLetterBodies_flags v w ox oy s :
  flags (createLetterBodies v w ox oy s) = flags s.
Proof.
  unfold createLetterBodies. destruct (engineRef s); [|reflexivity].
  rewrite !(fold_left_keeps flags) by (intros; apply addLine_flags).
  unfold setTextBodies, flags; simpl.
  change (flags (fold_left (fun acc tb => World_remove (body tb) acc)
                           (textBodiesRef s) s) = flags s).
  now apply fold_left_keeps.
Qed.

Lemma makeWall_flags acc r : flags (snd (makeWall acc r)) = flags (snd acc).
Proof. destruct acc as [hs s], r as [[[cx cy] w] h]. reflexivity. Qed.

Lemma createWalls_flags v w h s : flags (createWalls v w h s) = flags s.
Proof.
  unfold createWalls. destruct (engineRef s); [|reflexivity].
  destruct (fold_left makeWall _ _) as [walls s2] eqn:E.
  unfold setWalls, flags; simpl.
  change (flags (fold_left (fun acc wall => World_add wall acc) walls s2) = flags s).
  rewrite (fold_left_keeps flags) by reflexivity.
  change s2 with (snd (walls, s2)). rewrite <- E.
  rewrite (fold_left_keeps (fun a => flags (snd a))) by (intros; apply makeWall_flags).
  simpl. now apply fold_left_keeps.
Qed.

Lemma handleResize_flags v p s : flags (handleResize v p s) = flags s.
Proof.
  unfold handleResize. destruct (heroRef p); [|reflexivity].
  destruct v; (destruct (negb _);
    [rewrite createLetterBodies_flags|]; now rewrite createWalls_flags).
Qed.

Lemma handleMouseMove_flags cx cy canvas s :
  flags (handleMouseMove cx cy canvas s) = flags s.
Proof. unfold handleMouseMove. destruct (mouseBodyRef s); reflexivity. Qed.

Lemma mount_flags v p s : flags (mount v p s) = flags s.
Proof.
  unfold mount. destruct (negb (sceneRef p)); [reflexivity|].
  destruct (heroRef p) as [heroRect|]; [|reflexivity].
  assert (H : forall s3,
             flags (let '(mouseBody, s4) := Bodies_circle 0 0 15 wallOptions s3 in
                    World_add mouseBody (setMouseBody (Some mouseBody) s4))
             = flags s3) by reflexivity.
  rewrite H.
  destruct v; now rewrite createLetterBodies_flags, createWalls_flags.
Qed.

Lemma step_flags v s e :
  e <> AfterRender -> e <> ResetClick -> flags (step v s e) = flags s.
Proof.
  intros H1 H2. destruct e as [f| |cx cy c|ts c|p|]; simpl; try congruence.
  - reflexivity.
  - apply handleMouseMove_flags.
  - unfold handleTouchMove. destruct ts as [|[cx cy] ?];
      [reflexivity|apply handleMouseMove_flags].
  - apply handleResize_flags.
Qed.

Lemma touched_flag s1 s2 :
  flags s1 = flags s2 -> hasBeenTouchedRef s1 = hasBeenTouchedRef s2.
Proof. unfold flags. congruence. Qed.

Lemma checkForMovement_touched s :
  hasBeenTouchedRef (checkForMovement s) = hasMoved s || hasBeenTouchedRef s.
Proof.
  unfold checkForMovement. destruct (hasMoved s); [|reflexivity].
  destruct (negb _); reflexivity.
Qed.

Lemma checkForMovement_button s :
  showResetButton (checkForMovement s) = hasMoved s || showResetButton s.
Proof.
  unfold checkForMovement. destruct (hasMoved s); [|reflexivity].
  simpl. destruct (showResetButton s) eqn:E; simpl; auto.
Qed.

Lemma gt_spec a b : gt a b = true <-> (b < a)%Q.
Proof.
  unfold gt. rewrite negb_true_iff, <- not_true_iff_false, Qle_bool_iff.
  split; [apply Qnot_le_lt|apply Qlt_not_le].
Qed.

Lemma exceeds_spec b tb :
  exceeds b tb = true <->
  (MOVEMENT_THRESHOLD < Qabs (x (position b) - initialX tb))%Q
  \/ (MOVEMENT_THRESHOLD < Qabs (y (position b) - initialY tb))%Q
  \/ (0.1 < Qabs (angle b))%Q.
Proof.
  unfold exceeds. rewrite !orb_true_iff, !gt_spec. tauto.
Qed.

Lemma hasMoved_spec s : hasMoved s = true <-> disturbed s.
Proof.
  unfold hasMoved, disturbed. rewrite existsb_exists. split.
  - intros (tb & Hin & H). destruct (heap s !! body tb) as [b|] eqn:E;
      [|discriminate].
    exists tb, b. repeat split; try assumption. now apply exceeds_spec.
  - intros (tb & b & Hin & E & H). exists tb. split; [assumption|].
    rewrite E. now apply exceeds_spec.
Qed.

Lemma resetText_flags s : flags (resetText s) = (false, false).
Proof. reflexivity. Qed.

Lemma step_touched_change v s e :
  hasBeenTouchedRef (step v s e) <> hasBeenTouchedRef s ->
  (hasBeenTouchedRef s = false /\ e = AfterRender /\ disturbed s)
  \/ (hasBeenTouchedRef s = true /\ e = ResetClick).
Proof.
  intros H.
  destruct e as [f| |cx cy c|ts c|p|];
    try (exfalso; apply H; apply touched_flag, step_flags; discriminate).
  - left. simpl in H. rewrite checkForMovement_touched in H.
    destruct (hasBeenTouchedRef s); [now rewrite orb_true_r in H|].
    destruct (hasMoved s) eqn:E; [|now simpl in H].
    repeat split. now apply hasMoved_spec.
  - right. simpl in H. split; [|reflexivity].
    destruct (hasBeenTouchedRef s); [reflexivity|now simpl in H].
Qed.

Lemma run_touched v es : forall s,
  hasBeenTouchedRef s = true ->
  forallb (fun e => negb (isReset e)) es = true ->
  hasBeenTouchedRef (run v s es) = true.
Proof.
  induction es as [|e es IH]; intros s Hs Hes; simpl; [assumption|].
  simpl in Hes. apply andb_true_iff in Hes as [He Hes].
  apply IH; [|assumption].
  destruct (hasBeenTouchedRef (step v s e)) eqn:E; [reflexivity|].
  destruct (step_touched_change v s e) as [[H _]|[_ ->]]; try congruence.
  discriminate.
Qed.

(** C3. From an untouched scene the disturbance check marks the scene
    touched exactly when some letter's horizontal or vertical distance
    from its initial position is strictly greater than 5, or the
    absolute value of its angle is strictly greater than 0.1.  So when
    every letter is at a distance of at most 5 (exactly 5 included) with
    an angle of at most 0.1 (0 included) the scene stays untouched,
    while a letter at a distance of 5 plus any positive amount,
    horizontally or vertically, marks the scene. *)
Theorem checkForMovement_threshold :
  (forall s,
      hasBeenTouchedRef s = false ->
      (hasBeenTouchedRef (checkForMovement s) = true <-> disturbed s))
  /\ (forall s,
         hasBeenTouchedRef s = false ->
         (forall tb b,
             In tb (textBodiesRef s) -> heap s !! body tb = Some b ->
             (Qabs (x (position b) - initialX tb) <= 5)%Q
             /\ (Qabs (y (position b) - initialY tb) <= 5)%Q
             /\ (Qabs (angle b) <= 0.1)%Q) ->
         hasBeenTouchedRef (checkForMovement s) = false)
  /\ (forall s tb b eps,
         In tb (textBodiesRef s) -> heap s !! body tb = Some b ->
         (0 < eps)%Q ->
         (Qabs (x (position b) - initialX tb) == 5 + eps)%Q
         \/ (Qabs (y (position b) - initialY tb) == 5 + eps)%Q ->
         hasBeenTouchedRef (checkForMovement s) = true).
Proof.
  assert (Hiff : forall s,
             hasBeenTouchedRef s = false ->
             (hasBeenTouchedRef (checkForMovement s) = true <-> disturbed s)).
  { intros s Hs. rewrite checkForMovement_touched, Hs, orb_false_r.
    apply hasMoved_spec. }
  split; [exact Hiff|split].
  - intros s Hs Hall. apply not_true_iff_false. intros H.
    apply (Hiff s Hs) in H as (tb & b & Hin & Hb & H).
    destruct (Hall tb b Hin Hb) as (Hx & Hy & Ha).
    unfold MOVEMENT_THRESHOLD in H.
    destruct H as [H|[H|H]]; eapply Qlt_not_le; eassumption.
  - intros s tb b eps Hin Hb Heps H.
    rewrite checkForMovement_touched.
    assert (D : disturbed s).
    { exists tb, b. repeat split; try assumption.
      assert (L : (5 < 5 + eps)%Q).
      { rewrite <- (Qplus_0_r 5) at 1. apply Qplus_lt_r. exact Heps. }
      unfold MOVEMENT_THRESHOLD.
      destruct H as [H|H]; [left|right; left]; now rewrite H. }
    apply hasMoved_spec in D. now rewrite D.
Qed.

(** C7. The touched flag is one-way until reset: it is false in the
    initial scene and running the effect does not change it; whenever
    an event changes it, either it was false and the event is the
    per-frame check on a disturbed scene, or it was true and the event
    is the click on reset; so along any run of events without a reset a
    touched scene stays touched, whatever the physics does to the
    bodies in between; and reset always leaves it false. *)
Theorem touched_one_way :
  forall v : Revision,
    hasBeenTouchedRef initialScene = false
    /\ (forall p s, hasBeenTouchedRef (mount v p s) = hasBeenTouchedRef s)
    /\ (forall s, hasBeenTouchedRef (resetText s) = false)
    /\ (forall s e,
           hasBeenTouchedRef (step v s e) <> hasBeenTouchedRef s ->
           (hasBeenTouchedRef s = false /\ e = AfterRender /\ disturbed s)
           \/ (hasBeenTouchedRef s = true /\ e = ResetClick))
    /\ (forall s es,
           hasBeenTouchedRef s = true ->
           forallb (fun e => negb (isReset e)) es = true ->
           hasBeenTouchedRef (run v s es) = true).
Proof.
  intros v. repeat split.
  - intros p s. apply touched_flag, mount_flags.
  - apply step_touched_change.
  - intros s es. apply run_touched.
Qed.

(** ** The factory computes the layout *)

Lemma scene_eq s1 s2 :
  heap s1 = heap s2 -> nextHandle s1 = nextHandle s2 ->
  engineRef s1 = engineRef s2 -> textBodiesRef s1 = textBodiesRef s2 ->
  mouseBodyRef s1 = mouseBodyRef s2 -> wallsRef s1 = wallsRef s2 ->
  hasBeenTouchedRef s1 = hasBeenTouchedRef s2 ->
  showResetButton s1 = showResetButton s2 ->
  renderSize s1 = renderSize s2 -> s1 = s2.
Proof. destruct s1, s2; simpl; intros; subst; reflexivity. Qed.

Lemma placeAll_nil s : placeAll [] s = s.
Proof.
  apply scene_eq; simpl; try reflexivity.
  - destruct (engineRef s); simpl; [now rewrite app_nil_r|reflexivity].
  - apply app_nil_r.
Qed.

Lemma placeAll_app tbs1 tbs2 s :
  placeAll tbs2 (placeAll tbs1 s) = placeAll (tbs1 ++ tbs2) s.
Proof.
  apply scene_eq; simpl; try reflexivity.
  - unfold insertAll. now rewrite map_app, fold_left_app.
  - rewrite length_app. lia.
  - destruct (engineRef s); simpl; [|reflexivity].
    now rewrite map_app, app_assoc.
  - now rewrite app_assoc.
Qed.

Lemma number_length gs : forall h, length (number h gs) = length gs.
Proof. induction gs as [|g gs IH]; intros h; simpl; [|rewrite IH]; reflexivity. Qed.

Lemma number_app gs1 gs2 : forall h,
  number h (gs1 ++ gs2) = number h gs1 ++ number (length gs1 + h) gs2.
Proof.
  induction gs1 as [|g gs1 IH]; intros h; simpl; [reflexivity|].
  rewrite IH. do 3 f_equal. lia.
Qed.

Lemma number_glyphs gs : forall h, map glyphOf (number h gs) = gs.
Proof.
  induction gs as [|g gs IH]; intros h; simpl; [reflexivity|].
  rewrite IH. now destruct g.
Qed.

Lemma number_handles gs : forall h, map body (number h gs) = seq h (length gs).
Proof.
  induction gs as [|g gs IH]; intros h; simpl; [reflexivity|].
  now rewrite IH.
Qed.

Lemma addLetter_place title size py startX s ic :
  addLetter title size py startX (size * 0.62)%Q s ic
  = placeAll (number (nextHandle s)
                (glyphAt title size py startX (size * 0.62)%Q ic)) s.
Proof.
  destruct ic as [i c]. unfold addLetter, glyphAt. simpl snd; simpl fst.
  destruct (Ascii.eqb c SPACE); [now rewrite placeAll_nil|].
  apply scene_eq; reflexivity.
Qed.

Lemma addLetters_place title size py startX ics : forall s,
  fold_left (addLetter title size py startX (size * 0.62)%Q) ics s
  = placeAll (number (nextHandle s)
                (flat_map (glyphAt title size py startX (size * 0.62)%Q) ics)) s.
Proof.
  induction ics as [|ic ics IH]; intros s; simpl.
  - now rewrite placeAll_nil.
  - rewrite IH, addLetter_place, placeAll_app, number_app.
    simpl nextHandle. now rewrite number_length.
Qed.

Lemma addLine_place title origin s line :
  addLine title origin s line
  = placeAll (number (nextHandle s) (lineGlyphs title origin line)) s.
Proof.
  destruct line as [[text size] py]. unfold addLine, lineGlyphs.
  apply addLetters_place.
Qed.

Lemma addLines_place title origin lines : forall s,
  fold_left (addLine title origin) lines s
  = placeAll (number (nextHandle s)
                (flat_map (lineGlyphs title origin) lines)) s.
Proof.
  induction lines as [|line lines IH]; intros s; simpl.
  - now rewrite placeAll_nil.
  - rewrite IH, addLine_place, placeAll_app, number_app.
    simpl nextHandle. now rewrite number_length.
Qed.

Lemma removeBodies_world tbs : forall s,
  fold_left (fun acc tb => World_remove (body tb) acc) tbs s
  = withWorld (removeAll (map body tbs)) s.
Proof.
  induction tbs as [|tb tbs IH]; intros s; simpl.
  - apply scene_eq; try reflexivity. simpl. now destruct (engineRef s).
  - rewrite IH. apply scene_eq; try reflexivity. simpl.
    now destruct (engineRef s).
Qed.

Lemma removeWalls_world hs : forall s,
  fold_left (fun acc wall => World_remove wall acc) hs s
  = withWorld (removeAll hs) s.
Proof.
  induction hs as [|h hs IH]; intros s; simpl.
  - apply scene_eq; try reflexivity. simpl. now destruct (engineRef s).
  - rewrite IH. apply scene_eq; try reflexivity. simpl.
    now destruct (engineRef s).
Qed.

(** The factory, in one step: the old letters leave the world and the
    glyphs of the layout are created with consecutive new handles. *)
Lemma createLetterBodies_layout v w ox oy s :
  is_Some (engineRef s) ->
  createLetterBodies v w ox oy s
  = placeAll (number (nextHandle s) (layout v w ox oy))
             (setTextBodies [] (withWorld (removeAll (letterHandles s)) s)).
Proof.
  intros [world E]. unfold createLetterBodies. rewrite E.
  rewrite removeBodies_world, !addLines_place, placeAll_app.
  unfold layout. rewrite number_app. simpl nextHandle.
  now rewrite number_length.
Qed.

Lemma createLetterBodies_unmounted v w ox oy s :
  engineRef s = None -> createLetterBodies v w ox oy s = s.
Proof. intros E. unfold createLetterBodies. now rewrite E. Qed.

(** The boundary manager, in one step. *)
Lemma createWalls_placed v w h s :
  is_Some (engineRef s) -> createWalls v w h s = wallsPlaced v w h s.
Proof.
  intros [world E]. unfold createWalls. rewrite E, removeWalls_world.
  destruct v; apply scene_eq; try reflexivity; simpl; rewrite E; simpl;
    now rewrite <- !app_assoc.
Qed.

Lemma createWalls_unmounted v w h s :
  engineRef s = None -> createWalls v w h s = s.
Proof. intros E. unfold createWalls. now rewrite E. Qed.

(** ** Lookups after several writes *)

Lemma insertAll_other kvs : forall m h,
  ~ In h (map fst kvs) -> insertAll kvs m !! h = m !! h.
Proof.
  induction kvs as [|[k b] kvs IH]; intros m h Hh; simpl; [reflexivity|].
  simpl in Hh. unfold insertAll in *. simpl. rewrite IH by tauto.
  apply lookup_insert_ne. intros ->. tauto.
Qed.

Lemma insertAll_written kvs : forall m k b,
  NoDup (map fst kvs) -> In (k, b) kvs -> insertAll kvs m !! k = Some b.
Proof.
  induction kvs as [|[k' b'] kvs IH]; intros m k b Hnd Hin; [destruct Hin|].
  simpl in Hnd. apply NoDup_cons in Hnd as [Hk' Hnd].
  unfold insertAll in *. simpl. destruct Hin as [[= -> ->]|Hin].
  - change (insertAll kvs (<[k := b]> m) !! k = Some b).
    rewrite insertAll_other; [apply lookup_insert_eq|].
    now rewrite <- list_elem_of_In.
  - now apply IH.
Qed.

Lemma insertAll_is_Some kvs : forall m h,
  is_Some (insertAll kvs m !! h) <-> is_Some (m !! h) \/ In h (map fst kvs).
Proof.
  induction kvs as [|[k b] kvs IH]; intros m h; simpl; [tauto|].
  unfold insertAll in *. simpl. rewrite IH.
  destruct (decide (k = h)) as [->|Hne].
  - rewrite lookup_insert_eq. split; [intros _|intros _; left; eauto]. tauto.
  - rewrite lookup_insert_ne by assumption. tauto.
Qed.

(** ** Removal from the world *)

Lemma removeFirst_In h l x : In x (removeFirst h l) -> In x l.
Proof.
  induction l as [|k l IH]; simpl; [tauto|].
  destruct (Nat.eqb k h); simpl; tauto.
Qed.

Lemma removeFirst_keeps h l x : In x l -> x <> h -> In x (removeFirst h l).
Proof.
  induction l as [|k l IH]; simpl; [tauto|].
  intros [->|Hx] Hne.
  - destruct (Nat.eqb_spec x h); [contradiction|now left].
  - destruct (Nat.eqb k h); [assumption|right; auto].
Qed.

Lemma removeFirst_NoDup h l : NoDup l -> NoDup (removeFirst h l).
Proof.
  induction 1 as [|k l Hk Hl IH]; simpl; [constructor|].
  destruct (Nat.eqb k h); [assumption|].
  constructor; [|assumption].
  rewrite list_elem_of_In in *. intros H. apply Hk.
  now apply removeFirst_In in H.
Qed.

Lemma removeFirst_gone h l : NoDup l -> ~ In h (removeFirst h l).
Proof.
  induction 1 as [|k l Hk Hl IH]; simpl; [tauto|].
  rewrite list_elem_of_In in Hk.
  destruct (Nat.eqb_spec k h) as [->|Hne]; [assumption|].
  simpl. intros [?|?]; [contradiction|tauto].
Qed.

Lemma removeAll_In hs : forall l x, In x (removeAll hs l) -> In x l.
Proof.
  induction hs as [|h hs IH]; intros l x; simpl; [tauto|].
  intros H. apply IH in H. now apply removeFirst_In in H.
Qed.

Lemma removeAll_keeps hs : forall l x,
  In x l -> ~ In x hs -> In x (removeAll hs l).
Proof.
  induction hs as [|h hs IH]; intros l x Hx Hn; simpl; [assumption|].
  simpl in Hn. apply IH; [|tauto]. apply removeFirst_keeps; [assumption|].
  intros ->. tauto.
Qed.

Lemma removeAll_NoDup hs : forall l, NoDup l -> NoDup (removeAll hs l).
Proof.
  induction hs as [|h hs IH]; intros l H; simpl; [assumption|].
  now apply IH, removeFirst_NoDup.
Qed.

Lemma removeAll_gone hs : forall l x,
  NoDup l -> In x hs -> ~ In x (removeAll hs l).
Proof.
  induction hs as [|h hs IH]; intros l x Hl Hx; simpl; [destruct Hx|].
  destruct Hx as [->|Hx].
  - intros H. apply removeAll_In in H. now apply removeFirst_gone in H.
  - apply IH; [now apply removeFirst_NoDup|assumption].
Qed.

(** ** Reset *)

Lemma resetBody_heap s tb :
  heap (resetBody s tb) = alter (resetPose tb) (body tb) (heap s).
Proof.
  unfold resetBody; simpl.
  rewrite !alter_alter_eq. apply alter_ext. now intros [].
Qed.

Lemma resetBody_rest s tb :
  nextHandle (resetBody s tb) = nextHandle s
  /\ engineRef (resetBody s tb) = engineRef s
  /\ textBodiesRef (resetBody s tb) = textBodiesRef s
  /\ mouseBodyRef (resetBody s tb) = mouseBodyRef s
  /\ wallsRef (resetBody s tb) = wallsRef s
  /\ renderSize (resetBody s tb) = renderSize s.
Proof. repeat split. Qed.

(** The heap after all the letters [tbs] have been reset. *)
Lemma resetBodies_other tbs : forall s h,
  ~ In h (map body tbs) ->
  heap (fold_left resetBody tbs s) !! h = heap s !! h.
Proof.
  induction tbs as [|tb tbs IH]; intros s h Hh; simpl; [reflexivity|].
  simpl in Hh. rewrite IH by tauto. rewrite resetBody_heap.
  apply lookup_alter_ne. intros E. apply Hh. now left.
Qed.

Lemma resetBodies_letter tbs : forall s tb,
  NoDup (map body tbs) -> In tb tbs ->
  heap (fold_left resetBody tbs s) !! body tb
  = resetPose tb <$> heap s !! body tb.
Proof.
  induction tbs as [|tb' tbs IH]; intros s tb Hnd Hin; [destruct Hin|].
  simpl in Hnd. apply NoDup_cons in Hnd as [Hfresh Hnd].
  rewrite list_elem_of_In in Hfresh. simpl. destruct Hin as [->|Hin].
  - rewrite resetBodies_other by assumption.
    rewrite resetBody_heap. apply lookup_alter_eq.
  - rewrite IH by assumption. rewrite resetBody_heap.
    rewrite lookup_alter_ne; [reflexivity|].
    intros E. apply Hfresh. rewrite E. now apply in_map.
Qed.

Lemma resetBodies_is_Some tbs : forall s h,
  is_Some (heap (fold_left resetBody tbs s) !! h) <-> is_Some (heap s !! h).
Proof.
  induction tbs as [|tb tbs IH]; intros s h; simpl; [tauto|].
  rewrite IH, resetBody_heap.
  destruct (decide (body tb = h)) as [<-|Hne].
  - rewrite lookup_alter_eq. apply fmap_is_Some.
  - now rewrite lookup_alter_ne.
Qed.

Lemma resetText_rest s :
  nextHandle (resetText s) = nextHandle s
  /\ engineRef (resetText s) = engineRef s
  /\ textBodiesRef (resetText s) = textBodiesRef s
  /\ mouseBodyRef (resetText s) = mouseBodyRef s
  /\ wallsRef (resetText s) = wallsRef s
  /\ renderSize (resetText s) = renderSize s.
Proof.
  unfold resetText; simpl.
  repeat split;
    match goal with
    | |- ?f (fold_left resetBody _ _) = _ =>
        apply (fold_left_keeps f); intros; apply resetBody_rest
    end.
Qed.

Lemma resetText_heap s : heap (resetText s) = heap (fold_left resetBody (textBodiesRef s) s).
Proof. reflexivity. Qed.

(** ** The invariant of the scene *)

Lemma initialScene_inv : sceneInv initialScene.
Proof.
  split; simpl; try (intros; contradiction); try discriminate.
  - intros h [b H]. now rewrite lookup_empty in H.
  - constructor.
Qed.

(** An operation that rewrites bodies in place keeps the invariant. *)
Lemma inv_in_place s s' :
  sceneInv s ->
  (forall h, is_Some (heap s' !! h) <-> is_Some (heap s !! h)) ->
  nextHandle s' = nextHandle s -> engineRef s' = engineRef s ->
  textBodiesRef s' = textBodiesRef s -> mouseBodyRef s' = mouseBodyRef s ->
  wallsRef s' = wallsRef s ->
  sceneInv s'.
Proof.
  intros [] Hh Hn He Ht Hm Hw. split; unfold letterHandles in *.
  - intros h H. rewrite Hn. apply inv_fresh0. now apply Hh.
  - rewrite Ht. intros h H. apply Hh. auto.
  - now rewrite Ht.
  - rewrite Hw. intros h H. apply Hh. auto.
  - rewrite Hw, Ht. auto.
  - rewrite Hm, Ht, Hw. intros m E.
    destruct (inv_mouse0 m E) as (? & ? & ?). rewrite Hh. auto.
  - rewrite He. auto.
  - rewrite He. intros w h E H. apply Hh. eauto.
Qed.

Lemma letterEntry_keys tbs : map fst (map letterEntry tbs) = map body tbs.
Proof. rewrite map_map. reflexivity. Qed.

Lemma placeAll_inv gs s :
  sceneInv s -> sceneInv (placeAll (number (nextHandle s) gs) s).
Proof.
  intros [].
  assert (Hnew : forall h, In h (map body (number (nextHandle s) gs)) <->
                           nextHandle s <= h < length gs + nextHandle s).
  { intros h. rewrite number_handles, in_seq. lia. }
  assert (Hsome : forall h,
             is_Some (heap (placeAll (number (nextHandle s) gs) s) !! h) <->
             is_Some (heap s !! h) \/
             nextHandle s <= h < length gs + nextHandle s).
  { intros h. simpl. rewrite insertAll_is_Some, letterEntry_keys, Hnew. tauto. }
  split; unfold letterHandles in *; simpl nextHandle; simpl textBodiesRef;
    simpl mouseBodyRef; simpl wallsRef; simpl engineRef;
    rewrite ?number_length, ?map_app.
  - intros h H. apply Hsome in H as [H|H]; [apply inv_fresh0 in H|]; lia.
  - intros h H. apply Hsome. apply in_app_or in H as [H|H]; [left|right]; auto.
    now apply Hnew.
  - apply NoDup_app. split; [assumption|]. split.
    + intros h H1 H2. rewrite list_elem_of_In in *.
      apply inv_letters0, inv_fresh0 in H1. apply Hnew in H2. lia.
    + rewrite number_handles. apply NoDup_seq.
  - intros h H. apply Hsome. left. auto.
  - intros h H1 H2. apply in_app_or in H2 as [H2|H2].
    + now apply (inv_walls_letters0 h).
    + apply inv_walls0, inv_fresh0 in H1. apply Hnew in H2. lia.
  - intros m Hm. destruct (inv_mouse0 m Hm) as (Ha & Hl & Hw).
    split; [apply Hsome; now left|]. split; [|assumption].
    intros H. apply in_app_or in H as [H|H]; [contradiction|].
    apply inv_fresh0 in Ha. apply Hnew in H. lia.
  - intros w Hw. destruct (engineRef s) as [w0|] eqn:E; [|discriminate].
    injection Hw as <-. apply NoDup_app. split; [now apply inv_world0|].
    split; [|rewrite number_handles; apply NoDup_seq].
    intros h H1 H2. rewrite list_elem_of_In in *.
    apply (inv_world_alloc0 w0 h eq_refl), inv_fresh0 in H1.
    apply Hnew in H2. lia.
  - intros w h Hw Hin. destruct (engineRef s) as [w0|] eqn:E; [|discriminate].
    injection Hw as <-. apply Hsome.
    apply in_app_or in Hin as [H|H]; [left; eauto|right; now apply Hnew].
Qed.

Lemma cleared_inv s :
  sceneInv s ->
  sceneInv (setTextBodies [] (withWorld (removeAll (letterHandles s)) s)).
Proof.
  intros [].
  split; unfold letterHandles in *; simpl; try assumption;
    try (intros; contradiction); try tauto.
  - constructor.
  - intros m Hm. destruct (inv_mouse0 m Hm) as (Ha & Hl & Hw). tauto.
  - intros w Hw. destruct (engineRef s) as [w0|]; [|discriminate].
    injection Hw as <-. apply removeAll_NoDup. now apply inv_world0.
  - intros w h Hw Hin. destruct (engineRef s) as [w0|]; [|discriminate].
    injection Hw as <-. apply removeAll_In in Hin. eauto.
Qed.

Lemma createLetterBodies_inv v w ox oy s :
  sceneInv s -> sceneInv (createLetterBodies v w ox oy s).
Proof.
  intros H. destruct (engineRef s) as [world|] eqn:E.
  - rewrite createLetterBodies_layout by eauto.
    apply (placeAll_inv (layout v w ox oy)
             (setTextBodies [] (withWorld (removeAll (letterHandles s)) s))).
    now apply cleared_inv.
  - now rewrite createLetterBodies_unmounted.
Qed.

Lemma wall_keys v w h n :
  map fst (combine (seq n 4) (map wallBody (wallRects v w h))) = seq n 4.
Proof. reflexivity. Qed.

#[local] Arguments seq : simpl never.

Lemma wallsPlaced_inv v w h s : sceneInv s -> sceneInv (wallsPlaced v w h s).
Proof.
  intros [].
  assert (Hsome : forall k,
             is_Some (heap (wallsPlaced v w h s) !! k) <->
             is_Some (heap s !! k) \/ nextHandle s <= k < 4 + nextHandle s).
  { intros k. unfold wallsPlaced. cbn [heap].
    rewrite insertAll_is_Some, wall_keys, in_seq.
    split; (intros [?|?]; [now left|right; lia]). }
  split; unfold letterHandles in *; cbn [wallsPlaced nextHandle textBodiesRef
    mouseBodyRef wallsRef engineRef].
  - intros k H. apply Hsome in H as [H|H]; [apply inv_fresh0 in H|]; lia.
  - intros k H. apply Hsome. left. auto.
  - assumption.
  - intros k H. apply Hsome. right. apply in_seq in H. lia.
  - intros k H1 H2. apply in_seq in H1.
    apply inv_letters0, inv_fresh0 in H2. lia.
  - intros m Hm. destruct (inv_mouse0 m Hm) as (Ha & Hl & Hw).
    split; [apply Hsome; now left|]. split; [assumption|].
    intros H. apply in_seq in H. apply inv_fresh0 in Ha. lia.
  - intros w0 Hw. destruct (engineRef s) as [w1|] eqn:E; [|discriminate].
    injection Hw as <-. apply NoDup_app.
    split; [apply removeAll_NoDup; now apply inv_world0|].
    split; [|apply NoDup_seq].
    intros k H1 H2. rewrite list_elem_of_In in *.
    apply removeAll_In in H1.
    apply (inv_world_alloc0 w1 k eq_refl), inv_fresh0 in H1.
    apply in_seq in H2. lia.
  - intros w0 k Hw Hin. destruct (engineRef s) as [w1|] eqn:E; [|discriminate].
    injection Hw as <-. apply Hsome. apply in_app_or in Hin as [H|H].
    + left. apply removeAll_In in H. eauto.
    + right. apply in_seq in H. lia.
Qed.

Lemma createWalls_inv v w h s : sceneInv s -> sceneInv (createWalls v w h s).
Proof.
  intros H. destruct (engineRef s) as [world|] eqn:E.
  - rewrite createWalls_placed by eauto. now apply wallsPlaced_inv.
  - now rewrite createWalls_unmounted.
Qed.

Lemma setRenderSize_inv wh s : sceneInv s -> sceneInv (setRenderSize wh s).
Proof. intros H. now apply (inv_in_place s). Qed.

Lemma setEngine_inv s : sceneInv s -> sceneInv (setEngine (Some []) s).
Proof.
  intros []. split; unfold letterHandles in *; simpl; try assumption.
  - intros w [= <-]. constructor.
  - intros w h [= <-] [].
Qed.

Lemma pointer_inv b s :
  sceneInv s ->
  sceneInv (World_add (nextHandle s)
              (setMouseBody (Some (nextHandle s)) (snd (alloc b s)))).
Proof.
  intros [].
  assert (Hsome : forall k,
             is_Some (<[nextHandle s := b]> (heap s) !! k) <->
             is_Some (heap s !! k) \/ k = nextHandle s).
  { intros k. destruct (decide (nextHandle s = k)) as [<-|Hne].
    - rewrite lookup_insert_eq. split; [now right|eauto].
    - rewrite lookup_insert_ne by assumption.
      split; [now left|intros [?|?]; [assumption|congruence]]. }
  split; unfold letterHandles in *; simpl.
  - intros k H. apply Hsome in H as [H|H]; [apply inv_fresh0 in H|]; lia.
  - intros k H. apply Hsome. left. auto.
  - assumption.
  - intros k H. apply Hsome. left. auto.
  - assumption.
  - intros m [= <-]. split; [apply Hsome; now right|].
    split; intros H; [apply inv_letters0 in H|apply inv_walls0 in H];
      apply inv_fresh0 in H; lia.
  - intros w Hw. destruct (engineRef s) as [w0|] eqn:E; [|discriminate].
    injection Hw as <-. apply NoDup_app. split; [now apply inv_world0|].
    split; [|apply NoDup_singleton].
    intros k H1 H2. rewrite list_elem_of_In in *. destruct H2 as [<-|[]].
    apply (inv_world_alloc0 w0 _ eq_refl), inv_fresh0 in H1. lia.
  - intros w k Hw Hin. destruct (engineRef s) as [w0|] eqn:E; [|discriminate].
    injection Hw as <-. apply Hsome. apply in_app_or in Hin as [H|[<-|[]]].
    + left. eauto.
    + now right.
Qed.

Lemma mount_inv v p s : sceneInv s -> sceneInv (mount v p s).
Proof.
  intros H. unfold mount. destruct (negb (sceneRef p)); [assumption|].
  destruct (heroRef p) as [heroRect|]; [|assumption].
  match goal with
  | |- sceneInv (let '(m, s4) := Bodies_circle ?a ?b ?c ?o ?s3 in _) =>
      change (sceneInv (World_add (nextHandle s3)
                (setMouseBody (Some (nextHandle s3))
                   (snd (alloc (newBody a b (Circle c) o) s3)))))
  end.
  apply pointer_inv.
  destruct v; apply createLetterBodies_inv, createWalls_inv,
    setRenderSize_inv, setEngine_inv, H.
Qed.

Lemma handleResize_inv v p s : sceneInv s -> sceneInv (handleResize v p s).
Proof.
  intros H. unfold handleResize. destruct (heroRef p) as [heroRect|]; [|assumption].
  destruct v; (destruct (negb _); [apply createLetterBodies_inv|]);
    apply createWalls_inv, setRenderSize_inv, H.
Qed.

Lemma handleMouseMove_inv cx cy canvas s :
  sceneInv s -> sceneInv (handleMouseMove cx cy canvas s).
Proof.
  intros H. unfold handleMouseMove. destruct (mouseBodyRef s) as [m|]; [|assumption].
  apply (inv_in_place s); try reflexivity; [assumption|].
  intros k. simpl. apply lookup_alter_is_Some.
Qed.

Lemma Engine_update_inv f s : sceneInv s -> sceneInv (Engine_update f s).
Proof.
  intros H. apply (inv_in_place s); try reflexivity; [assumption|].
  intros h. simpl. rewrite map_lookup_imap.
  destruct (heap s !! h); simpl; split; intros [? ?]; eauto; discriminate.
Qed.

Lemma checkForMovement_inv s : sceneInv s -> sceneInv (checkForMovement s).
Proof.
  intros H. unfold checkForMovement. destruct (hasMoved s); [|assumption].
  destruct (negb _); now apply (inv_in_place s).
Qed.

Lemma resetText_inv s : sceneInv s -> sceneInv (resetText s).
Proof.
  intros H. destruct (resetText_rest s) as (? & ? & ? & ? & ? & ?).
  apply (inv_in_place s); try assumption.
  intros h. rewrite resetText_heap. apply resetBodies_is_Some.
Qed.

Lemma step_inv v s e : sceneInv s -> sceneInv (step v s e).
Proof.
  intros H. destruct e as [f| |cx cy c|ts c|p|]; simpl.
  - now apply Engine_update_inv.
  - now apply checkForMovement_inv.
  - now apply handleMouseMove_inv.
  - unfold handleTouchMove. destruct ts as [|[cx cy] ?]; [assumption|].
    now apply handleMouseMove_inv.
  - now apply handleResize_inv.
  - now apply resetText_inv.
Qed.

(** Every scene the page can be in satisfies the invariant. *)
Lemma reachable_inv v s : reachable v s -> sceneInv s.
Proof.
  induction 1 as [|p s _ IH|e s _ IH].
  - apply initialScene_inv.
  - now apply mount_inv.
  - now apply step_inv.
Qed.

(** ** Reset *)

Lemma resetText_letter s tb :
  sceneInv s -> In tb (textBodiesRef s) ->
  exists b, heap s !! body tb = Some b
            /\ heap (resetText s) !! body tb = Some (resetPose tb b).
Proof.
  intros Hinv Hin.
  destruct (inv_letters s Hinv (body tb)) as [b Hb].
  { unfold letterHandles. now apply in_map. }
  exists b. split; [assumption|].
  rewrite resetText_heap, resetBodies_letter, Hb; try assumption; [reflexivity|].
  apply (inv_letters_nodup s Hinv).
Qed.

(** *** Reset with rounded arithmetic *)



(** Without rounding the sum is the target. *)
Lemma moveBy_exact t c : (moveBy (fun q => q) t c == t)%Q.
Proof. unfold moveBy. ring. Qed.











(** C9. Reset changes poses and velocities only.  In every scene the
    page can be in: the world lists the same bodies in the same order
    and no object is created or lost; the recorded letters, with their
    character, font size, role, initial position and body, are the
    same; the walls and the pointer body are the same objects with the
    same contents, as is every object that is not a letter; and a
    letter's body keeps its shape, its static flag and its material. *)
Theorem resetText_frame :
  forall (v : Revision) (s : Scene),
    reachable v s ->
    engineRef (resetText s) = engineRef s
    /\ (forall h, is_Some (heap (resetText s) !! h) <-> is_Some (heap s !! h))
    /\ textBodiesRef (resetText s) = textBodiesRef s
    /\ wallsRef (resetText s) = wallsRef s
    /\ mouseBodyRef (resetText s) = mouseBodyRef s
    /\ (forall h, ~ In h (letterHandles s) ->
                  heap (resetText s) !! h = heap s !! h)
    /\ (forall h, In h (wallsRef s) -> heap (resetText s) !! h = heap s !! h)
    /\ (forall m, mouseBodyRef s = Some m ->
                  heap (resetText s) !! m = heap s !! m)
    /\ (forall tb, In tb (textBodiesRef s) ->
          exists b b',
            heap s !! body tb = Some b
            /\ heap (resetText s) !! body tb = Some b'
            /\ isStatic b' = isStatic b /\ shape b' = shape b
            /\ restitution b' = restitution b /\ friction b' = friction b
            /\ frictionAir b' = frictionAir b /\ density b' = density b).
Proof.
  intros v s Hr. apply reachable_inv in Hr.
  destruct (resetText_rest s) as (_ & He & Ht & Hm & Hw & _).
  assert (Hother : forall h, ~ In h (letterHandles s) ->
                             heap (resetText s) !! h = heap s !! h).
  { intros h Hh. rewrite resetText_heap. now apply resetBodies_other. }
  repeat split; try assumption.
  - rewrite resetText_heap. apply resetBodies_is_Some.
  - rewrite resetText_heap. apply resetBodies_is_Some.
  - intros h Hh. apply Hother. now apply (inv_walls_letters s Hr).
  - intros m E. apply Hother. now apply (inv_mouse s Hr m E).
  - intros tb Hin.
    destruct (resetText_letter s tb Hr Hin) as (b & Hb & Hb').
    exists b, (resetPose tb b). repeat split; assumption.
Qed.

(** ** The glyph body factory *)

Lemma glyphs_count title size py startX cw text : forall k,
  length (flat_map (glyphAt title size py startX cw) (Str.indexedFrom k text))
  = Str.countNot SPACE text.
Proof.
  induction text as [|c text IH]; intros k; simpl; [reflexivity|].
  rewrite length_app, IH. unfold glyphAt. simpl.
  destruct (Ascii.eqb c SPACE); reflexivity.
Qed.

Lemma lineGlyphs_count title origin text size py :
  length (lineGlyphs title origin (text, size, py)) = Str.countNot SPACE text.
Proof. apply glyphs_count. Qed.

Lemma descGlyphs_count origin cfg y0 lines : forall k,
  length (flat_map (lineGlyphs false origin) (descLinesFrom cfg y0 k lines))
  = list_sum (map (Str.countNot SPACE) lines).
Proof.
  induction lines as [|text lines IH]; intros k; [reflexivity|].
  cbn [descLinesFrom flat_map map].
  now rewrite length_app, IH, lineGlyphs_count.
Qed.

Lemma layout_count v w ox oy :
  length (layout v w ox oy)
  = Str.countNot SPACE "AMMAN VEDI" + Str.countNot SPACE (titleLine2 v)
    + list_sum (map (Str.countNot SPACE)
                    (descriptionLines (getResponsiveConfig v w))).
Proof.
  unfold layout, descLines, titleLines.
  rewrite length_app, descGlyphs_count. cbn [flat_map].
  rewrite !length_app, !lineGlyphs_count. simpl length. lia.
Qed.

Lemma glyphs_no_space title size py startX cw ics :
  Forall (fun g => glyph g <> SPACE)
         (flat_map (glyphAt title size py startX cw) ics).
Proof.
  induction ics as [|[i c] ics IH]; simpl; [constructor|].
  apply Forall_app. split; [|assumption].
  unfold glyphAt. simpl. destruct (Ascii.eqb_spec c SPACE); repeat constructor.
  assumption.
Qed.

Lemma lines_no_space title origin lines :
  Forall (fun g => glyph g <> SPACE) (flat_map (lineGlyphs title origin) lines).
Proof.
  induction lines as [|[[text size] py] lines IH]; simpl; [constructor|].
  apply Forall_app. split; [apply glyphs_no_space|assumption].
Qed.

Lemma layout_no_space v w ox oy :
  Forall (fun g => glyph g <> SPACE) (layout v w ox oy).
Proof. apply Forall_app. split; apply lines_no_space. Qed.

Lemma glyph_at_index title size py startX cw text : forall k i c,
  String.get i text = Some c -> c <> SPACE ->
  In {| glyph := c; glyphSize := size;
        glyphX := (startX + ofIndex (k + i) * cw)%Q;
        glyphY := py; glyphTitle := title |}
     (flat_map (glyphAt title size py startX cw) (Str.indexedFrom k text)).
Proof.
  induction text as [|d text IH]; intros k i c Hget Hc; [discriminate|].
  simpl. apply in_or_app. destruct i as [|i]; simpl in Hget.
  - injection Hget as ->. left. unfold glyphAt. simpl.
    destruct (Ascii.eqb_spec c SPACE); [contradiction|].
    rewrite Nat.add_0_r. now left.
  - right. replace (k + S i) with (S k + i) by lia. now apply IH.
Qed.

Lemma line_glyph_at_index title origin text size py i c :
  String.get i text = Some c -> c <> SPACE ->
  In {| glyph := c; glyphSize := size;
        glyphX := (origin + size * 0.62 / 2 + ofIndex i * (size * 0.62))%Q;
        glyphY := py; glyphTitle := title |}
     (lineGlyphs title origin (text, size, py)).
Proof. intros. now apply (glyph_at_index _ _ _ _ _ _ 0). Qed.

Lemma glyphOf_textBodyOf h g : glyphOf (textBodyOf h g) = g.
Proof. now destruct g. Qed.

Lemma number_In gs g : forall n,
  In g gs -> exists h, n <= h /\ In (textBodyOf h g) (number n gs).
Proof.
  induction gs as [|g' gs IH]; intros n Hin; [destruct Hin|].
  destruct Hin as [->|Hin].
  - exists n. split; [lia|now left].
  - destruct (IH (S n) Hin) as (h & Hh & H). exists h. split; [lia|now right].
Qed.

(** The body of each newly placed letter is its rectangle. *)
Lemma placeAll_letter gs s tb :
  In tb (number (nextHandle s) gs) ->
  heap (placeAll (number (nextHandle s) gs) s) !! body tb
  = Some (letterBody (glyphOf tb)).
Proof.
  intros Hin. simpl. apply insertAll_written.
  - rewrite letterEntry_keys, number_handles. apply NoDup_seq.
  - now apply (in_map letterEntry) in Hin.
Qed.

Lemma letterBody_atRest s tb :
  heap s !! body tb = Some (letterBody (glyphOf tb)) -> atRest s tb.
Proof. intros H. exists (letterBody (glyphOf tb)). now repeat split. Qed.

(** C6. Whenever the factory runs on a scene that has a world, for
    every width and origin: the number of recorded letters is the
    number of characters other than spaces in the two title lines and
    in all wrapped description lines for that width; no letter is a
    space; the world afterwards is the old world without the old
    letters, followed by the new letters; and the character at index
    [i] of a line, unless it is a space, has a letter whose initial
    position is [startX + i * charWidth] at the height of the line,
    with its body placed there: spaces take up a slot but get no
    body. *)
Theorem createLetterBodies_bodies :
  forall (v : Revision) (containerWidth offsetX offsetY : Q) (s : Scene)
         (world : list handle),
    engineRef s = Some world ->
    let s' := createLetterBodies v containerWidth offsetX offsetY s in
    let config := getResponsiveConfig v containerWidth in
    length (textBodiesRef s')
    = Str.countNot SPACE "AMMAN VEDI" + Str.countNot SPACE (titleLine2 v)
      + list_sum (map (Str.countNot SPACE) (descriptionLines config))
    /\ Forall (fun tb => char tb <> SPACE) (textBodiesRef s')
    /\ engineRef s'
       = Some (removeAll (letterHandles s) world ++ letterHandles s')
    /\ (forall title text size py i c,
           (title = true /\ In (text, size, py) (titleLines v config offsetY))
           \/ (title = false /\ In (text, size, py) (descLines v config offsetY)) ->
           String.get i text = Some c -> c <> SPACE ->
           let charWidth := (size * 0.62)%Q in
           let startX := (originX v offsetX + charWidth / 2)%Q in
           exists tb,
             In tb (textBodiesRef s')
             /\ char tb = c /\ fontSize tb = size /\ isTitle tb = title
             /\ initialX tb = (startX + ofIndex i * charWidth)%Q
             /\ initialY tb = py
             /\ atRest s' tb).
Proof.
  intros v w ox oy s world E s' config.
  assert (Es' : s' = placeAll (number (nextHandle s) (layout v w ox oy))
                       (setTextBodies [] (withWorld (removeAll (letterHandles s)) s))).
  { apply createLetterBodies_layout. eauto. }
  assert (Et : textBodiesRef s' = number (nextHandle s) (layout v w ox oy)).
  { now rewrite Es'. }
  split; [|split; [|split]].
  - rewrite Et, number_length. apply layout_count.
  - rewrite Et. pose proof (layout_no_space v w ox oy) as H.
    rewrite List.Forall_forall in *. intros tb Hin.
    apply (in_map glyphOf) in Hin. rewrite number_glyphs in Hin.
    apply (H _ Hin).
  - unfold letterHandles at 2. rewrite Et, Es'. simpl. now rewrite E.
  - intros title text size py i c Hline Hget Hc charWidth startX.
    assert (Hg : In {| glyph := c; glyphSize := size;
                       glyphX := (startX + ofIndex i * charWidth)%Q;
                       glyphY := py; glyphTitle := title |}
                    (layout v w ox oy)).
    { unfold layout. apply in_or_app.
      destruct Hline as [[-> Hl]|[-> Hl]]; [left|right];
        apply in_flat_map; exists (text, size, py);
        (split; [exact Hl|now apply line_glyph_at_index]). }
    destruct (number_In _ _ (nextHandle s) Hg) as (h & _ & Hin).
    exists (textBodyOf h {| glyph := c; glyphSize := size;
                            glyphX := (startX + ofIndex i * charWidth)%Q;
                            glyphY := py; glyphTitle := title |}).
    rewrite Et. repeat split; try assumption.
    apply letterBody_atRest. rewrite Es'.
    apply (placeAll_letter (layout v w ox oy)
             (setTextBodies [] (withWorld (removeAll (letterHandles s)) s))).
    exact Hin.
Qed.

(** ** Resize *)

(** The resize handler, in one step. *)
Lemma handleResize_unfold v p heroRect s :
  heroRef p = Some heroRect -> is_Some (engineRef s) ->
  handleResize v p s
  = let size := canvasSize v p heroRect in
    let s2 := wallsPlaced v (fst size) (snd size) (setRenderSize size s) in
    if hasBeenTouchedRef s then s2
    else placeAll
           (number (4 + nextHandle s)
              (layout v (DOMRect.width heroRect) (DOMRect.left heroRect)
                 (DOMRect.top heroRect)))
           (setTextBodies [] (withWorld (removeAll (letterHandles s)) s2)).
Proof.
  intros Hp He. unfold handleResize. rewrite Hp.
  assert (He2 : forall a b wh,
             is_Some (engineRef (wallsPlaced v a b (setRenderSize wh s)))).
  { intros a b wh. destruct He as [w E]. simpl. rewrite E. simpl. eauto. }
  destruct v; cbn zeta; rewrite createWalls_placed by exact He;
    cbn [wallsPlaced hasBeenTouchedRef setRenderSize];
    destruct (hasBeenTouchedRef s); cbn [negb]; try reflexivity;
    rewrite createLetterBodies_layout by apply He2;
    reflexivity.
Qed.

Lemma wallsPlaced_wall v w h s k r :
  nth_error (wallRects v w h) k = Some r ->
  heap (wallsPlaced v w h s) !! (nextHandle s + k) = Some (wallBody r).
Proof.
  intros H. unfold wallsPlaced. cbn [heap]. apply insertAll_written.
  - rewrite wall_keys. apply NoDup_seq.
  - change (seq (nextHandle s) 4)
      with [nextHandle s; S (nextHandle s); S (S (nextHandle s));
            S (S (S (nextHandle s)))].
    unfold wallRects in *.
    destruct k as [|[|[|[|k]]]]; simpl in H; try discriminate;
      [..|now destruct k];
      inversion H; try subst r; simpl;
      repeat (first [left; f_equal; lia | right]).
Qed.

Lemma wallsPlaced_other v w h s k :
  k < nextHandle s -> heap (wallsPlaced v w h s) !! k = heap s !! k.
Proof.
  intros H. unfold wallsPlaced. cbn [heap]. apply insertAll_other.
  rewrite wall_keys, in_seq. lia.
Qed.

(** Without the hero element the handler returns at once. *)
Lemma handleResize_detached v p s : heroRef p = None -> handleResize v p s = s.
Proof. intros E. unfold handleResize. now rewrite E. Qed.

Lemma wallRects_index v w h k r :
  nth_error (wallRects v w h) k = Some r -> k < 4.
Proof.
  intros H. destruct k as [|[|[|[|k]]]]; try lia.
  unfold wallRects in H. simpl in H. now destruct k.
Qed.

Lemma allocated_below s h :
  sceneInv s -> is_Some (heap s !! h) -> h < nextHandle s.
Proof. intros H. apply (inv_fresh s H). Qed.

(** C5. On a resize that finds the hero element, in every scene the
    page can be in that has a world: the walls are replaced, that is,
    none of the old walls is left in the world and the four recorded
    walls are new bodies in the world, the static rectangles for the
    new size of the canvas; if the scene has not been touched, the
    recorded letters are the glyphs of the layout for the new width and
    origin, each a new body in the world at rest at its initial
    position, and none of the old letters is left in the world; if the
    scene has been touched, the recorded letters are the same, the
    contents of their bodies are untouched, and they are in the world
    exactly if they were. *)
Theorem handleResize_effect :
  forall (v : Revision) (p : Page) (heroRect : DOMRect.t) (s : Scene)
         (world : list handle),
    reachable v s -> engineRef s = Some world -> heroRef p = Some heroRect ->
    let s' := handleResize v p s in
    let size := canvasSize v p heroRect in
    exists world',
      engineRef s' = Some world'
      /\ wallsRef s' = seq (nextHandle s) 4
      /\ (forall h, In h (wallsRef s) -> ~ In h world')
      /\ (forall k r,
             nth_error (wallRects v (fst size) (snd size)) k = Some r ->
             In (nextHandle s + k) world'
             /\ heap s' !! (nextHandle s + k) = Some (wallBody r))
      /\ (hasBeenTouchedRef s = false ->
             map glyphOf (textBodiesRef s')
             = layout v (DOMRect.width heroRect) (DOMRect.left heroRect)
                      (DOMRect.top heroRect)
             /\ Forall (fun tb =>
                          nextHandle s <= body tb
                          /\ In (body tb) world' /\ atRest s' tb)
                       (textBodiesRef s')
             /\ (forall h, In h (letterHandles s) -> ~ In h world'))
      /\ (hasBeenTouchedRef s = true ->
             textBodiesRef s' = textBodiesRef s
             /\ (forall h, In h (letterHandles s) ->
                   heap s' !! h = heap s !! h
                   /\ (In h world' <-> In h world))).
Proof.
  intros v p heroRect s world Hr E Hp s' size.
  apply reachable_inv in Hr. rename Hr into Hinv.
  set (n := nextHandle s).
  set (s2 := wallsPlaced v (fst size) (snd size) (setRenderSize size s)).
  set (world2 := removeAll (wallsRef s) world ++ seq n 4).
  assert (E2 : engineRef s2 = Some world2).
  { unfold s2, world2. simpl. now rewrite E. }
  assert (Hinv2 : sceneInv s2) by apply wallsPlaced_inv, setRenderSize_inv, Hinv.
  assert (Hnd : NoDup world) by now apply (inv_world s Hinv).
  assert (Hwall : forall h, In h (wallsRef s) -> h < n).
  { intros h H. now apply (allocated_below s), (inv_walls s Hinv). }
  assert (Hlet : forall h, In h (letterHandles s) -> h < n).
  { intros h H. now apply (allocated_below s), (inv_letters s Hinv). }
  assert (Hgone2 : forall h, In h (wallsRef s) -> ~ In h world2).
  { intros h H Hin. apply in_app_or in Hin as [Hin|Hin].
    - now apply (removeAll_gone (wallsRef s) world h Hnd).
    - apply in_seq in Hin. apply Hwall in H. lia. }
  assert (Hnew2 : forall k r,
             nth_error (wallRects v (fst size) (snd size)) k = Some r ->
             In (n + k) world2 /\ heap s2 !! (n + k) = Some (wallBody r)).
  { intros k r H. split.
    - apply in_or_app. right. apply in_seq.
      apply wallRects_index in H. lia.
    - now apply (wallsPlaced_wall v _ _ (setRenderSize size s)). }
  unfold s'. rewrite (handleResize_unfold v p heroRect) by eauto.
  cbn zeta. fold size. fold s2.
  destruct (hasBeenTouchedRef s) eqn:Ht.
  - (* touched: only the walls change *)
    exists world2.
    split; [|split; [|split; [|split; [|split]]]]; try discriminate;
      try assumption; try reflexivity.
    intros _. split; [reflexivity|]. intros h Hh. split; [|split].
    + apply (wallsPlaced_other v _ _ (setRenderSize size s)).
      now apply Hlet.
    + intros Hin. apply in_app_or in Hin as [Hin|Hin].
      * now apply removeAll_In in Hin.
      * apply in_seq in Hin. apply Hlet in Hh. lia.
    + intros Hin. apply in_or_app. left.
      apply removeAll_keeps; [assumption|].
      intros Hw. now apply (inv_walls_letters s Hinv h).
  - (* untouched: the letters are rebuilt as well *)
    set (L := layout v (DOMRect.width heroRect) (DOMRect.left heroRect)
                     (DOMRect.top heroRect)).
    set (s3 := setTextBodies [] (withWorld (removeAll (letterHandles s)) s2)).
    exists (removeAll (letterHandles s) world2 ++ seq (4 + n) (length L)).
    assert (Hin3 : forall tb, In tb (number (4 + n) L) ->
                              4 + n <= body tb < 4 + n + length L).
    { intros tb H. apply (in_map body) in H.
      rewrite number_handles in H. apply in_seq in H. lia. }
    split; [|split; [|split; [|split; [|split]]]]; try discriminate.
    + simpl. rewrite E. simpl. now rewrite number_handles.
    + reflexivity.
    + intros h Hh Hin. apply in_app_or in Hin as [Hin|Hin].
      * apply removeAll_In in Hin. now apply (Hgone2 h).
      * apply in_seq in Hin. apply Hwall in Hh. lia.
    + intros k r H. destruct (Hnew2 k r H) as [Hw Hb].
      pose proof (wallRects_index _ _ _ _ _ H) as Hk. split.
      * apply in_or_app. left. apply removeAll_keeps; [assumption|].
        intros Hl. apply Hlet in Hl. lia.
      * cbn [placeAll heap]. rewrite insertAll_other; [exact Hb|].
        rewrite letterEntry_keys, number_handles, in_seq. lia.
    + intros _. split; [|split].
      * apply number_glyphs.
      * apply List.Forall_forall. intros tb Hin.
        pose proof (Hin3 tb Hin) as Hb. split; [lia|]. split.
        -- apply in_or_app. right. apply in_seq. lia.
        -- apply letterBody_atRest. now apply (placeAll_letter L s3).
      * intros h Hh Hin. apply in_app_or in Hin as [Hin|Hin].
        -- revert Hin. apply removeAll_gone; [|assumption].
           now apply (inv_world s2 Hinv2).
        -- apply in_seq in Hin. apply Hlet in Hh. lia.
Qed.

(* ================================================================= *)
(** * Properties of the subscription endpoint *)

Section RegexMatcher.

Import Subscribe.

Lemma nullable_spec r : nullable r = true <-> Matches r [].
Proof.
  induction r as [| |p|r1 IH1 r2 IH2|r1 IH1 r2 IH2|r IH]; simpl.
  - split; [discriminate|inversion 1].
  - split; [constructor|reflexivity].
  - split; [discriminate|inversion 1].
  - rewrite andb_true_iff, IH1, IH2. split.
    + intros [H1 H2]. apply (MCat _ _ [] [] H1 H2).
    + intros H. inversion H as [| |? ? s1 s2 H1 H2 E1 E2| | | |]; subst.
      apply app_eq_nil in E2 as [-> ->]. now split.
  - rewrite orb_true_iff, IH1, IH2. split.
    + intros [H|H]; [now apply MAltL|now apply MAltR].
    + inversion 1; subst; [now left|now right].
  - split; [constructor|reflexivity].
Qed.

(** A non-empty match of a star starts with a non-empty match of its
    body. *)
Lemma star_cons r c s :
  Matches (Star r) (c :: s) ->
  exists s1 s2, s = s1 ++ s2 /\ Matches r (c :: s1) /\ Matches (Star r) s2.
Proof.
  intros H. remember (Star r) as r' eqn:Er. remember (c :: s) as u eqn:Eu.
  induction H as [| | | | | |r0 s1 s2 H1 _ H2 IH2]; try discriminate.
  injection Er as ->. destruct s1 as [|d s1]; simpl in Eu.
  - now apply IH2.
  - injection Eu as -> <-. now exists s1, s2.
Qed.

Lemma deriv_spec r : forall c s, Matches (deriv c r) s <-> Matches r (c :: s).
Proof.
  induction r as [| |p|r1 IH1 r2 IH2|r1 IH1 r2 IH2|r IH]; intros c s; simpl.
  - split; inversion 1.
  - split; inversion 1.
  - destruct (p c) eqn:Ep; split; intros H.
    + inversion H; subst. now constructor.
    + inversion H; subst. constructor.
    + inversion H.
    + inversion H; subst. congruence.
  - assert (Hcat : Matches (Cat (deriv c r1) r2) s ->
                   Matches (Cat r1 r2) (c :: s)).
    { intros H. inversion H as [| |? ? s1 s2 H1 H2| | | |]; subst.
      apply IH1 in H1. apply (MCat _ _ (c :: s1) s2 H1 H2). }
    assert (Hinv : Matches (Cat r1 r2) (c :: s) ->
                   Matches (Cat (deriv c r1) r2) s
                   \/ (Matches r1 [] /\ Matches (deriv c r2) s)).
    { intros H. inversion H as [| |? ? s1 s2 H1 H2 E1 E2| | | |]; subst.
      destruct s1 as [|d s1]; simpl in E2.
      - subst s2. right. split; [assumption|now apply IH2].
      - injection E2 as -> <-. left. constructor; [now apply IH1|assumption]. }
    destruct (nullable r1) eqn:En; split; intros H.
    + inversion H; subst; [now apply Hcat|].
      apply nullable_spec in En. apply (MCat _ _ [] (c :: s) En).
      now apply IH2.
    + destruct (Hinv H) as [H'|[_ H']]; [now apply MAltL|now apply MAltR].
    + now apply Hcat.
    + destruct (Hinv H) as [H'|[H' _]]; [assumption|].
      apply nullable_spec in H'. congruence.
  - split; intros H; inversion H; subst.
    + apply MAltL. now apply IH1.
    + apply MAltR. now apply IH2.
    + apply MAltL. now apply IH1.
    + apply MAltR. now apply IH2.
  - split; intros H.
    + inversion H as [| |? ? s1 s2 H1 H2| | | |]; subst.
      apply IH in H1. apply (MStarCons _ (c :: s1) s2 H1 H2).
    + apply star_cons in H as (s1 & s2 & -> & H1 & H2).
      constructor; [now apply IH|assumption].
Qed.

(** The matcher decides the language. *)
Lemma test_spec s : forall r, test r s = true <-> Matches r s.
Proof.
  induction s as [|c s IH]; intros r; simpl.
  - apply nullable_spec.
  - rewrite IH. apply deriv_spec.
Qed.

Lemma matches_cat r1 r2 s :
  Matches (Cat r1 r2) s <->
  exists s1 s2, s = s1 ++ s2 /\ Matches r1 s1 /\ Matches r2 s2.
Proof.
  split.
  - inversion 1; subst. eauto.
  - intros (s1 & s2 & -> & H1 & H2). now constructor.
Qed.

Lemma matches_class p s :
  Matches (Class p) s <-> exists c, s = [c] /\ p c = true.
Proof.
  split.
  - inversion 1; subst. eauto.
  - intros (c & -> & H). now constructor.
Qed.

Lemma matches_lit c s : Matches (Lit c) s <-> s = [c].
Proof.
  unfold Lit. rewrite matches_class. split.
  - intros (d & -> & H). apply N.eqb_eq in H. now subst.
  - intros ->. exists c. split; [reflexivity|apply N.eqb_refl].
Qed.

Lemma matches_star_class p s :
  Matches (Star (Class p)) s <-> Forall (fun c => p c = true) s.
Proof.
  split.
  - intros H. remember (Star (Class p)) as r eqn:Er.
    induction H as [| | | | | |r0 s1 s2 H1 _ H2 IH2]; try discriminate.
    + constructor.
    + injection Er as ->. apply matches_class in H1 as (c & -> & Hc).
      constructor; [assumption|now apply IH2].
  - induction 1 as [|c s Hc _ IH]; [constructor|].
    apply (MStarCons _ [c] s); [now constructor|assumption].
Qed.

Lemma matches_plus_class p s :
  Matches (Plus (Class p)) s <-> s <> [] /\ Forall (fun c => p c = true) s.
Proof.
  unfold Plus. rewrite matches_cat. split.
  - intros (s1 & s2 & -> & H1 & H2).
    apply matches_class in H1 as (c & -> & Hc).
    apply matches_star_class in H2. split; [discriminate|].
    now constructor.
  - intros [Hne H]. destruct H as [|c s Hc H]; [contradiction|].
    exists [c], s. repeat split; [now constructor|].
    now apply matches_star_class.
Qed.

(** The pattern of the endpoint accepts exactly the well-formed
    addresses. *)
Lemma emailRegex_spec s : test emailRegex s = true <-> wellFormed s.
Proof.
  rewrite test_spec. unfold emailRegex, wellFormed. split.
  - intros H.
    apply matches_cat in H as (a & s1 & -> & Ha & H).
    apply matches_cat in H as (at' & s2 & -> & Hat & H).
    apply matches_cat in H as (b & s3 & -> & Hb & H).
    apply matches_cat in H as (dot & c & -> & Hdot & Hc).
    apply matches_lit in Hat as ->. apply matches_lit in Hdot as ->.
    apply matches_plus_class in Ha as [? ?].
    apply matches_plus_class in Hb as [? ?].
    apply matches_plus_class in Hc as [? ?].
    exists a, b, c. repeat split; assumption.
  - intros (a & b & c & -> & Ha & Hb & Hc & Fa & Fb & Fc).
    repeat (apply MCat); try (now apply matches_lit);
      now apply matches_plus_class.
Qed.

End RegexMatcher.

Section Endpoint.

Import Subscribe.

Lemma notSpaceAt_not_at u : notSpaceAt u = true -> u <> AT.
Proof.
  unfold notSpaceAt. rewrite negb_true_iff, orb_false_iff.
  intros [_ H]. now apply N.eqb_neq in H.
Qed.

Lemma at_free s : Forall (fun u => notSpaceAt u = true) s -> ~ In AT s.
Proof.
  intros H Hin. rewrite List.Forall_forall in H.
  now apply (notSpaceAt_not_at _ (H _ Hin)).
Qed.

(** A string with a single ['@'] is cut at it in one way only. *)
Lemma cut_at_unique a : forall a' b b',
  a ++ [AT] ++ b = a' ++ [AT] ++ b' ->
  ~ In AT a' -> ~ In AT b' -> a = a' /\ b = b'.
Proof.
  induction a as [|u a IH]; intros a' b b' E Ha' Hb'.
  - destruct a' as [|u' a']; simpl in E.
    + injection E as ->. now split.
    + injection E as <- _. exfalso. apply Ha'. now left.
  - destruct a' as [|u' a']; simpl in E.
    + injection E as -> <-. exfalso. apply Hb'.
      apply in_or_app. right. now left.
    + injection E as -> E. destruct (IH a' b b' E) as [-> ->];
        [intros H; apply Ha'; now right|assumption|now split].
Qed.

(** No address without a dot after the ['@'] is well formed. *)
Lemma no_dot_rejected a b : ~ In DOT b -> ~ wellFormed (a ++ [AT] ++ b).
Proof.
  intros Hdot (a' & b' & c' & E & _ & _ & _ & Fa & Fb & Fc).
  apply cut_at_unique in E as [_ ->]; [|now apply at_free|].
  - apply Hdot. apply in_or_app. right. now left.
  - intros H. apply in_app_or in H as [H|[H|H]].
    + now apply (at_free b').
    + discriminate.
    + now apply (at_free c').
Qed.

(** When [request.json()] rejects or the destructuring throws, the
    [catch] answers 500 and nothing has been created. *)
Lemma POST_unreadable resend body :
  emailOf body = None ->
  status (POST resend body) = 500%Z /\ createCalls (POST resend body) = [].
Proof.
  unfold POST, emailOf. destruct body as [value|]; [|now split].
  intros ->. now split.
Qed.

(** C10, as amended.  Whatever [resend] answers: when the handler has
    read an [email] from the request (the body is JSON and not [null])
    and that value is missing or otherwise falsy, is not a string, or
    is a string that is not of the form non-empty part, ['@'], non-empty
    part, ['.'], non-empty part with no white space and no ['@'] inside
    the parts, the answer has status 400 and [resend.contacts.create]
    has not been called; when no [email] could be read (the body is not
    JSON, or is [null]) the answer has status 500, again without a call;
    for every request, the only call of [resend.contacts.create] there
    can be is for a string e-mail of that form; an address without a
    dot after the ['@'], such as ['a@b'], is not of that form. *)
Theorem POST_validates_email :
  forall (resend : jsString -> CreateResult) (body : option Json),
    let out := POST resend body in
    (forall email,
        emailOf body = Some email ->
        truthy email = false
        \/ asString email = None
        \/ (exists addr, asString email = Some addr /\ ~ wellFormed addr) ->
        status out = 400%Z /\ createCalls out = [])
    /\ (emailOf body = None -> status out = 500%Z /\ createCalls out = [])
    /\ (forall addr,
           In addr (createCalls out) ->
           emailOf body = Some (Some (JString addr)) /\ wellFormed addr)
    /\ (forall a b, ~ In DOT b -> ~ wellFormed (a ++ [AT] ++ b))
    /\ test emailRegex (codeUnits "a@b") = false.
Proof.
  intros resend body out. split; [|split; [|split; [|split]]].
  - intros email E Hbad. unfold out, POST.
    destruct body as [value|]; simpl in E; [|discriminate].
    rewrite E.
    destruct (truthy email) eqn:Ht.
    + destruct (asString email) as [addr|] eqn:Ha; [|now split].
      destruct (test emailRegex addr) eqn:Hm; [|now split].
      exfalso. apply emailRegex_spec in Hm.
      destruct Hbad as [H|[H|(addr' & H & Hn)]]; try discriminate.
      injection H as <-. contradiction.
    + now split.
  - apply POST_unreadable.
  - intros addr Hin. unfold out, POST in Hin.
    destruct body as [value|]; [|destruct Hin]. simpl emailOf.
    destruct (destructureEmail value) as [email|]; [|destruct Hin].
    destruct (truthy email); [|destruct Hin].
    destruct (asString email) as [addr'|] eqn:Ha; [|destruct Hin].
    destruct (test emailRegex addr') eqn:Hm; [|destruct Hin].
    assert (addr' = addr) as ->.
    { simpl in Hin. destruct (resend addr'); simpl in Hin;
        destruct Hin as [H|[]]; exact H. }
    split; [|now apply emailRegex_spec].
    destruct email as [[| | |s| |]|]; try discriminate.
    simpl in Ha. now injection Ha as ->.
  - apply no_dot_rejected.
  - reflexivity.
Qed.

End Endpoint.

(* ================================================================= *)
(** * The properties at sample inputs *)

(** On a phone the description takes more lines than on a desktop. *)
Example lines_at_300_and_900 :
  length (descriptionLines (getResponsiveConfig FullViewport 300)) = 8
  /\ length (descriptionLines (getResponsiveConfig FullViewport 900)) = 3
  /\ maxCharsPerLine 16 300 = 28%Z /\ maxCharsPerLine 14 900 = 101%Z.
Proof. vm_compute. repeat split. Qed.

(** With room for two characters only, every word is a line. *)
Example lines_at_40 :
  descriptionLines (getResponsiveConfig ContainerCanvas 40)
  = Str.split SPACE (DESCRIPTION_TEXT ContainerCanvas).
Proof. vm_compute. reflexivity. Qed.

(** A push by exactly the threshold goes unnoticed, a slightly larger
    one does not. *)
Example push_by_threshold :
  hasBeenTouchedRef (checkForMovement (Engine_update (nudge 5) mounted)) = false
  /\ hasBeenTouchedRef
       (checkForMovement (Engine_update (nudge 5.001) mounted)) = true
  /\ hasBeenTouchedRef
       (checkForMovement (Engine_update (nudge (-5)) mounted)) = false.
Proof. vm_compute. repeat split. Qed.

Example mounted_counts :
  length (textBodiesRef mounted) = 193
  /\ wallsRef mounted = [0; 1; 2; 3]
  /\ mouseBodyRef mounted = Some 197
  /\ hasBeenTouchedRef noticed = true /\ showResetButton noticed = true.
Proof. vm_compute. repeat split. Qed.

Example subscribe_samples :
  Subscribe.status (Subscribe.POST (fun _ => Subscribe.Created None)
                      (requestWith "a@b")) = 400%Z
  /\ Subscribe.status (Subscribe.POST (fun _ => Subscribe.Created None)
                         (requestWith "a@b.c")) = 200%Z
  /\ Subscribe.status (Subscribe.POST (fun _ => Subscribe.Created None)
                         (Some (Subscribe.JObject []))) = 400%Z
  /\ Subscribe.status (Subscribe.POST (fun _ => Subscribe.Created None)
                         (Some Subscribe.JNull)) = 500%Z.
Proof. vm_compute. repeat split. Qed.

(** ** The theorems above, used at the sample inputs *)

Lemma wrap_respects_line_limit_witness :
  let config := getResponsiveConfig FullViewport 40 in
  let maxChars := maxCharsPerLine (descFontSize config) 40 in
  let words := Str.split SPACE (DESCRIPTION_TEXT FullViewport) in
  Forall (fun line =>
            (Str.len line <= maxChars)%Z
            \/ ((maxChars < Str.len line)%Z /\ In line words))
         (descriptionLines config)
  /\ Forall (fun word =>
               (maxChars < Str.len word)%Z -> In word (descriptionLines config))
            words.
Proof. exact (wrap_respects_line_limit FullViewport 40). Defined.

Lemma getResponsiveConfig_deterministic_witness :
  getResponsiveConfig FullViewport (600 # 2) = getResponsiveConfig FullViewport 300.
Proof. apply (getResponsiveConfig_deterministic FullViewport (600 # 2) 300). reflexivity. Defined.

Lemma checkForMovement_threshold_witness :
  hasBeenTouchedRef (checkForMovement shaken) = true <-> disturbed shaken.
Proof.
  apply (proj1 checkForMovement_threshold shaken). vm_compute. reflexivity.
Defined.



Lemma resetText_frame_witness :
  engineRef (resetText shaken) = engineRef shaken
  /\ textBodiesRef (resetText shaken) = textBodiesRef shaken.
Proof.
  destruct (resetText_frame FullViewport shaken) as (He & _ & Ht & _).
  - apply reach_step, reach_mount, reach_initial.
  - split; assumption.
Defined.

Lemma createLetterBodies_bodies_witness :
  length (textBodiesRef
            (createLetterBodies FullViewport 300 24 100
               (setEngine (Some []) initialScene))) = 193.
Proof.
  apply (createLetterBodies_bodies FullViewport 300 24 100
           (setEngine (Some []) initialScene) []).
  reflexivity.
Defined.

Lemma handleResize_effect_witness :
  exists world',
    engineRef (handleResize FullViewport page900 mounted) = Some world'
    /\ wallsRef (handleResize FullViewport page900 mounted) = [198; 199; 200; 201]
    /\ map glyphOf (textBodiesRef (handleResize FullViewport page900 mounted))
       = layout FullViewport 900 190 120.
Proof.
  destruct (handleResize_effect FullViewport page900 hero900 mounted (seq 0 198))
    as (world' & He & Hw & _ & _ & Hu & _).
  - apply reach_mount, reach_initial.
  - vm_compute. reflexivity.
  - reflexivity.
  - exists world'. split; [exact He|]. split; [exact Hw|].
    apply Hu. vm_compute. reflexivity.
Defined.

Lemma touched_one_way_witness :
  hasBeenTouchedRef
    (run FullViewport noticed
         [EngineTick (nudge (-6)); AfterRender; Resize page900; AfterRender])
  = true.
Proof.
  apply (proj2 (proj2 (proj2 (proj2 (touched_one_way FullViewport))))).
  - vm_compute. reflexivity.
  - reflexivity.
Defined.

(** C10, as stated, fails: a request whose body is the JSON value
    [null] carries no e-mail, and the answer is 500, not 400. *)
Lemma POST_null_body_is_500 :
  Subscribe.emailOf (Some Subscribe.JNull) = None
  /\ Subscribe.status
       (Subscribe.POST (fun _ => Subscribe.Created None) (Some Subscribe.JNull))
     = 500%Z
  /\ Subscribe.status
       (Subscribe.POST (fun _ => Subscribe.Created None) (Some Subscribe.JNull))
     <> 400%Z.
Proof. repeat split. discriminate. Qed.

(** The same happens when the body is not JSON at all. *)
Example POST_unparseable_body_is_500 :
  Subscribe.status (Subscribe.POST (fun _ => Subscribe.Created None) None)
  = 500%Z.
Proof. reflexivity. Qed.

Lemma POST_validates_email_witness :
  Subscribe.status (Subscribe.POST (fun _ => Subscribe.Created None)
                      (requestWith "a@b")) = 400%Z
  /\ Subscribe.createCalls (Subscribe.POST (fun _ => Subscribe.Created None)
                              (requestWith "a@b")) = [].
Proof.
  apply (proj1 (POST_validates_email (fun _ => Subscribe.Created None)
                  (requestWith "a@b"))
               (Some (Subscribe.JString (Subscribe.codeUnits "a@b")))).
  - reflexivity.
  - right. right. exists (Subscribe.codeUnits "a@b"). split; [reflexivity|].
    apply (no_dot_rejected [97%N] [98%N]). simpl. intros [H|[]]. discriminate.
Defined.

(* ================================================================= *)
(** * Further properties of the layout planner *)

Section WrapShape.

Variable limit : Z.

Lemma wrapStep_truthy st word :
  Forall (fun l => Str.truthy l = true) (fst st) ->
  Forall (fun l => Str.truthy l = true) (fst (wrapStep limit st word)).
Proof.
  destruct st as [lines cur]. unfold wrapStep. intros H.
  destruct (Str.truthy cur) eqn:Hcur; destruct (Z.leb _ limit);
    simpl in *; try assumption.
  apply Forall_app. split; [assumption|]. now repeat constructor.
Qed.

(** No line is empty, whatever the words are. *)
Lemma wrapWords_truthy words :
  Forall (fun l => Str.truthy l = true) (wrapWords limit words).
Proof.
  unfold wrapWords.
  assert (G : forall ws st,
             Forall (fun l => Str.truthy l = true) (fst st) ->
             Forall (fun l => Str.truthy l = true)
                    (fst (fold_left (wrapStep limit) ws st))).
  { induction ws as [|w ws IH]; intros st Hst; simpl; [assumption|].
    now apply IH, wrapStep_truthy. }
  assert (H := G words ([], EmptyString) (List.Forall_nil _)).
  destruct (fold_left _ words _) as [lines cur]. simpl in H.
  destruct (Str.truthy cur) eqn:E; [|assumption].
  apply Forall_app. split; [assumption|]. now repeat constructor.
Qed.

(** Lines in the making, counting the current one if it is not empty. *)
Lemma wrapStep_count st word :
  length (fst (wrapStep limit st word))
  + (if Str.truthy (snd (wrapStep limit st word)) then 1 else 0)
  <= S (length (fst st) + (if Str.truthy (snd st) then 1 else 0)).
Proof.
  destruct st as [lines cur]. unfold wrapStep.
  destruct (Str.truthy cur) eqn:Hcur; destruct (Z.leb _ limit);
    simpl fst; simpl snd; rewrite ?length_app; simpl length;
    repeat case_match; lia.
Qed.

(** There are never more lines than words. *)
Lemma wrapWords_count words : length (wrapWords limit words) <= length words.
Proof.
  unfold wrapWords.
  assert (G : forall ws st,
             length (fst (fold_left (wrapStep limit) ws st))
             + (if Str.truthy (snd (fold_left (wrapStep limit) ws st))
                then 1 else 0)
             <= length ws + (length (fst st)
                             + (if Str.truthy (snd st) then 1 else 0))).
  { induction ws as [|w ws IH]; intros st; simpl; [lia|].
    specialize (IH (wrapStep limit st w)).
    pose proof (wrapStep_count st w). lia. }
  specialize (G words ([], EmptyString)). simpl in G.
  destruct (fold_left _ words _) as [lines cur]. simpl in G.
  destruct (Str.truthy cur); rewrite ?length_app; simpl length; lia.
Qed.

End WrapShape.

Section Greedy.

Variable limit : Z.

Lemma firstWord_join cur word :
  firstWord (cur ++ String SPACE word) = firstWord cur.
Proof.
  unfold firstWord. rewrite split_join.
  destruct (Str.split SPACE cur) eqn:E; [|reflexivity].
  now apply split_nonempty in E.
Qed.

Lemma firstWord_word w : Str.mem SPACE w = false -> firstWord w = w.
Proof. intros H. unfold firstWord. now rewrite split_word. Qed.

Lemma forcedBreaks_snoc lines c :
  forcedBreaks limit lines ->
  (forall a l, lines = a ++ [l] -> forcedBreak limit l c) ->
  forcedBreaks limit (lines ++ [c]).
Proof.
  intros Hl Hc a l1 l2 b E.
  destruct (exists_last (l := l1 :: l2 :: b)) as (pre & x & Ex); [discriminate|].
  assert (E' : lines ++ [c] = (a ++ pre) ++ [x]).
  { rewrite E, <- app_assoc. now rewrite Ex. }
  apply app_inj_tail in E' as [-> ->].
  destruct b as [|y b].
  - assert (pre = [l1] /\ x = l2) as [-> ->].
    { change [l1; l2] with ([l1] ++ [l2]) in Ex.
      now apply app_inj_tail in Ex. }
    now apply (Hc a).
  - destruct (exists_last (l := y :: b)) as (b' & z & Eb); [discriminate|].
    assert (pre = l1 :: l2 :: b') as ->.
    { rewrite Eb in Ex.
      change (l1 :: l2 :: b' ++ [z]) with ((l1 :: l2 :: b') ++ [z]) in Ex.
      now apply app_inj_tail in Ex as [-> _]. }
    now apply (Hl a l1 l2 b').
Qed.

Lemma wrapStep_greedy st word :
  properWord word -> greedyState limit st ->
  greedyState limit (wrapStep limit st word).
Proof.
  intros [Hne Hsp] (Hb & Hempty & Hlast). destruct st as [lines cur].
  simpl in Hb, Hempty, Hlast. unfold wrapStep, greedyState.
  change (" " ++ word)%string with (String SPACE word).
  destruct (Str.truthy cur) eqn:Hcur;
    destruct (Z.leb _ limit) eqn:Hfit; simpl fst; simpl snd.
  - split; [assumption|]. split; [now rewrite truthy_join|].
    intros _ a l E. unfold forcedBreak. rewrite firstWord_join.
    now apply (Hlast eq_refl a).
  - split; [|split].
    + apply forcedBreaks_snoc; [assumption|]. now apply Hlast.
    + congruence.
    + intros _ a l E. apply app_inj_tail in E as [_ <-].
      unfold forcedBreak. rewrite (firstWord_word _ Hsp).
      apply Z.leb_gt in Hfit. rewrite len_join in Hfit. lia.
  - split; [assumption|]. split; [congruence|].
    intros _ a l E. rewrite (Hempty eq_refl) in E. now destruct a.
  - split; [assumption|]. split; [congruence|].
    intros _ a l E. rewrite (Hempty eq_refl) in E. now destruct a.
Qed.

Lemma fold_greedy words : forall st,
  Forall properWord words -> greedyState limit st ->
  greedyState limit (fold_left (wrapStep limit) words st).
Proof.
  induction words as [|w ws IH]; intros st Hw Hst; simpl; [assumption|].
  inversion Hw; subst. now apply IH, wrapStep_greedy.
Qed.

(** A line is only broken where the next word would not fit. *)
Lemma wrapWords_greedy words :
  Forall properWord words -> forcedBreaks limit (wrapWords limit words).
Proof.
  intros Hw.
  assert (H : greedyState limit ([], EmptyString)).
  { split; [|split]; simpl; try discriminate; [|reflexivity].
    intros a l1 l2 b E. now destruct a. }
  apply (fold_greedy words _ Hw) in H. unfold wrapWords.
  destruct (fold_left _ words _) as [lines cur].
  destruct H as (Hb & _ & Hlast). simpl in Hb, Hlast.
  destruct (Str.truthy cur) eqn:E; [|assumption].
  apply forcedBreaks_snoc; [assumption|]. now apply Hlast.
Qed.

(** When no two words fit on a line together, every word is a line. *)
Lemma wrapStep_one_per_line st w :
  (limit < 3)%Z -> properWord w ->
  fst (wrapStep limit st w)
  ++ (if Str.truthy (snd (wrapStep limit st w))
      then [snd (wrapStep limit st w)] else [])
  = (fst st ++ (if Str.truthy (snd st) then [snd st] else [])) ++ [w].
Proof.
  intros Hlim [Hne Hsp]. destruct st as [lines cur].
  assert (Hlen : (1 <= Str.len w)%Z).
  { destruct w; [discriminate|]. unfold Str.len. simpl. lia. }
  unfold wrapStep. change (" " ++ w)%string with (String SPACE w).
  simpl fst; simpl snd.
  destruct (Str.truthy cur) eqn:Hcur.
  - assert (Hc : (1 <= Str.len cur)%Z).
    { destruct cur; [discriminate|]. unfold Str.len. simpl. lia. }
    destruct (Z.leb_spec (Str.len (cur ++ String SPACE w)) limit) as [Hfit|Hfit].
    + rewrite len_join in Hfit. lia.
    + simpl. now rewrite Hne.
  - destruct (Z.leb _ limit); simpl; rewrite Hne; now rewrite app_nil_r.
Qed.

Lemma fold_one_per_line words : forall st,
  (limit < 3)%Z -> Forall properWord words ->
  fst (fold_left (wrapStep limit) words st)
  ++ (if Str.truthy (snd (fold_left (wrapStep limit) words st))
      then [snd (fold_left (wrapStep limit) words st)] else [])
  = (fst st ++ (if Str.truthy (snd st) then [snd st] else [])) ++ words.
Proof.
  induction words as [|w ws IH]; intros st Hlim Hw; simpl.
  - now rewrite app_nil_r.
  - inversion Hw; subst.
    rewrite IH, wrapStep_one_per_line by assumption.
    now rewrite <- app_assoc.
Qed.

Lemma wrapWords_one_per_line words :
  (limit < 3)%Z -> Forall properWord words -> wrapWords limit words = words.
Proof.
  intros Hlim Hw. unfold wrapWords.
  pose proof (fold_one_per_line words ([], EmptyString) Hlim Hw) as H.
  simpl in H. destruct (fold_left _ words _) as [lines cur]. simpl in H.
  destruct (Str.truthy cur); [exact H|now rewrite app_nil_r in H].
Qed.

Lemma joinFrom_len cur words : (Str.len cur <= Str.len (joinFrom cur words))%Z.
Proof.
  revert cur. induction words as [|w ws IH]; intros cur; simpl; [lia|].
  unfold joinFrom in *. simpl.
  change (" " ++ w)%string with (String SPACE w).
  specialize (IH (cur ++ String SPACE w)%string). rewrite len_join in IH.
  unfold Str.len in *. lia.
Qed.

(** Words that fit together stay on the current line. *)
Lemma wrapStep_fits lines cur w :
  Str.truthy cur = true ->
  (Str.len (cur ++ String SPACE w) <= limit)%Z ->
  wrapStep limit (lines, cur) w = (lines, (cur ++ String SPACE w)%string).
Proof.
  intros Hcur Hfit. unfold wrapStep. rewrite Hcur.
  change (" " ++ w)%string with (String SPACE w).
  apply Z.leb_le in Hfit. now rewrite Hfit.
Qed.

Lemma joinFrom_cons cur w ws :
  joinFrom cur (w :: ws) = joinFrom (cur ++ String SPACE w) ws.
Proof. reflexivity. Qed.

Lemma fold_fits words : forall lines cur,
  Str.truthy cur = true ->
  (Str.len (joinFrom cur words) <= limit)%Z ->
  fold_left (wrapStep limit) words (lines, cur) = (lines, joinFrom cur words).
Proof.
  induction words as [|w ws IH]; intros lines cur Hcur Hfit; [reflexivity|].
  rewrite joinFrom_cons in *.
  pose proof (joinFrom_len (cur ++ String SPACE w) ws) as Hle.
  cbn [fold_left]. rewrite wrapStep_fits by (assumption || lia).
  apply IH; [apply truthy_join|assumption].
Qed.

Lemma joinFrom_prefix c cur words :
  joinFrom (String c cur) words = String c (joinFrom cur words).
Proof.
  revert cur. induction words as [|w ws IH]; intros cur; [reflexivity|].
  unfold joinFrom in *. simpl. apply IH.
Qed.

(** Joining what [split] returns gives back the string. *)
Lemma joinFrom_split s :
  match Str.split SPACE s with
  | [] => False
  | w :: ws => joinFrom w ws = s
  end.
Proof.
  induction s as [|c s IH]; [reflexivity|]. cbn [Str.split].
  destruct (Str.split SPACE s) as [|w ws]; [contradiction|].
  destruct (Ascii.eqb_spec c SPACE) as [->|Hne].
  - rewrite joinFrom_cons.
    change (EmptyString ++ String SPACE w)%string with (String SPACE w).
    rewrite joinFrom_prefix. now f_equal.
  - rewrite joinFrom_prefix. now f_equal.
Qed.

(** A text that fits as a whole is its own single line. *)
Lemma wrapWords_single_line s :
  Str.truthy (firstWord s) = true -> (Str.len s <= limit)%Z ->
  wrapWords limit (Str.split SPACE s) = [s].
Proof.
  intros Hfirst Hfit. pose proof (joinFrom_split s) as Hj.
  unfold firstWord in Hfirst.
  destruct (Str.split SPACE s) as [|w ws]; [contradiction|].
  simpl in Hfirst. unfold wrapWords. cbn [fold_left].
  pose proof (joinFrom_len w ws) as Hle. rewrite Hj in Hle.
  assert (E : wrapStep limit ([], EmptyString) w = ([], w)).
  { unfold wrapStep. simpl Str.truthy. cbv iota.
    destruct (Z.leb_spec (Str.len w) limit); [reflexivity|lia]. }
  rewrite E, fold_fits; [|assumption|now rewrite Hj].
  rewrite Hj.
  assert (Hs : Str.truthy s = true).
  { rewrite <- Hj. clear - Hfirst. revert w Hfirst.
    induction ws as [|x ws IH]; intros w Hw; [exact Hw|].
    rewrite joinFrom_cons. apply IH, truthy_join. }
  now rewrite Hs.
Qed.

End Greedy.

Lemma countNot_split s :
  Str.countNot SPACE s = list_sum (map String.length (Str.split SPACE s)).
Proof.
  induction s as [|c s IH]; [reflexivity|]. cbn [Str.split Str.countNot].
  destruct (Ascii.eqb c SPACE); [now rewrite IH|].
  rewrite IH. destruct (Str.split SPACE s) as [|w ws] eqn:E;
    [now apply split_nonempty in E|reflexivity].
Qed.

Lemma list_sum_flat_map {A} (f : A -> list nat) l :
  list_sum (flat_map f l) = list_sum (map (fun a => list_sum (f a)) l).
Proof.
  induction l as [|a l IH]; [reflexivity|]. simpl.
  now rewrite list_sum_app, IH.
Qed.

(** The wrapped lines have as many characters other than spaces as the
    words they were made from. *)
Lemma wrapWords_countNot limit s :
  Forall properWord (Str.split SPACE s) ->
  list_sum (map (Str.countNot SPACE) (wrapWords limit (Str.split SPACE s)))
  = Str.countNot SPACE s.
Proof.
  intros Hw. rewrite (countNot_split s).
  rewrite <- (wrapWords_words limit _ Hw) at 2.
  rewrite flat_map_concat_map, concat_map, <- flat_map_concat_map.
  rewrite list_sum_flat_map, map_map.
  f_equal. apply map_ext. intros line. apply countNot_split.
Qed.

Lemma mobile_below w : (w < 500)%Q -> isMobile w = true.
Proof.
  intros H. unfold isMobile. destruct (Qlt_le_dec w 500); [reflexivity|].
  exfalso. eapply Qlt_not_le; eassumption.
Qed.

Lemma desktop_above w : (768 <= w)%Q -> isMobile w = false /\ isTablet w = false.
Proof.
  intros H. unfold isMobile, isTablet.
  destruct (Qlt_le_dec w 500) as [L|_], (Qlt_le_dec w 768) as [L'|_];
    try (split; reflexivity); exfalso.
  - apply (Qlt_not_le _ _ L). eapply Qle_trans; [|exact H]. discriminate.
  - apply (Qlt_not_le _ _ L). eapply Qle_trans; [|exact H]. discriminate.
  - apply (Qlt_not_le _ _ L' H).
Qed.

Lemma Qfloor_below x z : (x < inject_Z z)%Q -> (Qfloor x < z)%Z.
Proof.
  intros H. rewrite Zlt_Qlt. eapply Qle_lt_trans; [apply Qfloor_le|exact H].
Qed.

Lemma Qfloor_above x z : (inject_Z z <= x)%Q -> (z <= Qfloor x)%Z.
Proof. intros H. rewrite <- (Qfloor_Z z). now apply Qfloor_resp_le. Qed.

(** X1. For every width the description lines are a non-empty list of
    non-empty lines, there are at most as many lines as words, and
    cutting a line at its spaces never gives an empty piece: no line
    starts or ends with a space or has two spaces in a row. *)
Theorem descriptionLines_shape :
  forall (v : Revision) (containerWidth : Q),
    let lines := descriptionLines (getResponsiveConfig v containerWidth) in
    lines <> []
    /\ Forall (fun line => Str.truthy line = true) lines
    /\ length lines <= length (Str.split SPACE (DESCRIPTION_TEXT v))
    /\ Forall (fun line =>
                 Forall (fun piece => Str.truthy piece = true)
                        (Str.split SPACE line))
              lines.
Proof.
  intros v w lines.
  pose proof (description_words_proper v) as Hw.
  pose proof (wrapWords_words
                (maxCharsPerLine (bySize w 16%Q 15%Q 14%Q) w) _ Hw) as Hflat.
  fold (getResponsiveConfig v w) in Hflat.
  change (flat_map (Str.split SPACE) lines
          = Str.split SPACE (DESCRIPTION_TEXT v)) in Hflat.
  split; [|split; [|split]].
  - intros E. rewrite E in Hflat. simpl in Hflat.
    symmetry in Hflat. now apply split_nonempty in Hflat.
  - apply wrapWords_truthy.
  - apply wrapWords_count.
  - apply List.Forall_forall. intros line Hl.
    apply List.Forall_forall. intros piece Hp.
    rewrite List.Forall_forall in Hw.
    apply (Hw piece). rewrite <- Hflat. apply in_flat_map. eauto.
Qed.

(** X2. Lines are filled greedily: wherever one description line is
    followed by another, the first word of the second would not have
    fitted at the end of the first within the line limit. *)
Theorem descriptionLines_greedy :
  forall (v : Revision) (containerWidth : Q) (a : list string)
         (l1 l2 : string) (b : list string),
    let config := getResponsiveConfig v containerWidth in
    descriptionLines config = a ++ l1 :: l2 :: b ->
    (maxCharsPerLine (descFontSize config) containerWidth
     < Str.len l1 + 1 + Str.len (firstWord l2))%Z.
Proof.
  intros v w a l1 l2 b config E.
  apply (wrapWords_greedy _ _ (description_words_proper v) a l1 l2 b E).
Qed.

(** X3. On a container narrower than 49 units, also of width zero or
    of negative width, every word of the description is a line of its
    own. *)
Theorem descriptionLines_narrow :
  forall (v : Revision) (containerWidth : Q),
    (containerWidth < 49)%Q ->
    descriptionLines (getResponsiveConfig v containerWidth)
    = Str.split SPACE (DESCRIPTION_TEXT v).
Proof.
  intros v w Hw. simpl descriptionLines.
  apply wrapWords_one_per_line; [|apply description_words_proper].
  unfold bySize. rewrite mobile_below
    by (eapply Qlt_trans; [exact Hw|reflexivity]).
  unfold maxCharsPerLine.
  assert (Qfloor (w / (16 * 0.62)) < 5)%Z; [|lia].
  apply Qfloor_below. apply Qlt_shift_div_r; [reflexivity|].
  eapply Qlt_trans; [exact Hw|reflexivity].
Qed.

(** X4. On a container of width 1800 or more the whole description is
    one line. *)
Theorem descriptionLines_wide :
  forall (v : Revision) (containerWidth : Q),
    (1800 <= containerWidth)%Q ->
    descriptionLines (getResponsiveConfig v containerWidth)
    = [DESCRIPTION_TEXT v].
Proof.
  intros v w Hw. simpl descriptionLines.
  apply wrapWords_single_line; [now destruct v|].
  unfold bySize. destruct (desktop_above w) as [-> ->].
  { eapply Qle_trans; [|exact Hw]. discriminate. }
  unfold maxCharsPerLine.
  assert (207 <= Qfloor (w / (14 * 0.62)))%Z.
  { apply Qfloor_above. apply Qle_shift_div_l; [reflexivity|].
    eapply Qle_trans; [|exact Hw]. discriminate. }
  assert (Str.len (DESCRIPTION_TEXT v) <= 205)%Z by (destruct v; discriminate).
  lia.
Qed.

(** X5. The number of letter bodies does not depend on the width: on a
    scene with a world the factory records as many letters as the two
    title lines and the description text have characters other than
    spaces, however the description is wrapped. *)
Theorem letter_count_any_width :
  forall (v : Revision) (containerWidth offsetX offsetY : Q) (s : Scene)
         (world : list handle),
    engineRef s = Some world ->
    length (textBodiesRef
              (createLetterBodies v containerWidth offsetX offsetY s))
    = Str.countNot SPACE "AMMAN VEDI" + Str.countNot SPACE (titleLine2 v)
      + Str.countNot SPACE (DESCRIPTION_TEXT v).
Proof.
  intros v w ox oy s world E.
  rewrite createLetterBodies_layout by eauto.
  unfold placeAll. cbn [textBodiesRef setTextBodies app].
  rewrite number_length, layout_count.
  f_equal. apply wrapWords_countNot, description_words_proper.
Qed.

(* ================================================================= *)
(** * Further properties of the scene *)

Lemma atRest_same_body s s' tb :
  heap s' !! body tb = heap s !! body tb -> atRest s tb -> atRest s' tb.
Proof. intros E (b & Hb & H). exists b. rewrite E. now split. Qed.

Lemma allAtRest_same s s' :
  textBodiesRef s' = textBodiesRef s ->
  (forall h, In h (letterHandles s) -> heap s' !! h = heap s !! h) ->
  allAtRest s -> allAtRest s'.
Proof.
  unfold allAtRest. intros -> Hh H. rewrite List.Forall_forall in *.
  intros tb Hin. apply (atRest_same_body s); [|now apply H].
  apply Hh. unfold letterHandles. now apply in_map.
Qed.

Lemma within_threshold a : gt (Qabs (a - a)) MOVEMENT_THRESHOLD = false.
Proof.
  unfold gt. apply negb_false_iff, Qle_bool_iff.
  assert (E : (a - a == 0)%Q) by ring. rewrite E. discriminate.
Qed.

Lemma atRest_quiet s tb :
  atRest s tb ->
  match heap s !! body tb with
  | Some b => exceeds b tb
  | None => false
  end = false.
Proof.
  intros (b & -> & Hp & Ha & _). unfold exceeds. rewrite Hp, Ha. simpl x; simpl y.
  now rewrite !within_threshold.
Qed.

(** Letters at rest are not noticed by the check. *)
Lemma allAtRest_quiet s : allAtRest s -> hasMoved s = false.
Proof.
  unfold allAtRest, hasMoved. intros H.
  induction H as [|tb tbs Htb _ IH]; [reflexivity|]. simpl.
  now rewrite atRest_quiet.
Qed.

Lemma placed_allAtRest gs s :
  textBodiesRef s = [] -> allAtRest (placeAll (number (nextHandle s) gs) s).
Proof.
  intros E. unfold allAtRest. simpl textBodiesRef. rewrite E. simpl.
  apply List.Forall_forall. intros tb Hin.
  apply letterBody_atRest. now apply placeAll_letter.
Qed.

Lemma createLetterBodies_allAtRest v w ox oy s :
  allAtRest s -> allAtRest (createLetterBodies v w ox oy s).
Proof.
  intros H. destruct (engineRef s) as [world|] eqn:E.
  - rewrite createLetterBodies_layout by eauto.
    now apply (placed_allAtRest (layout v w ox oy)
                 (setTextBodies [] (withWorld (removeAll (letterHandles s)) s))).
  - now rewrite createLetterBodies_unmounted.
Qed.

Lemma createWalls_allAtRest v w h s :
  sceneInv s -> allAtRest s -> allAtRest (createWalls v w h s).
Proof.
  intros Hinv H. destruct (engineRef s) as [world|] eqn:E.
  - rewrite createWalls_placed by eauto.
    apply (allAtRest_same s); [reflexivity| |assumption].
    intros k Hk. apply wallsPlaced_other.
    now apply (allocated_below s), (inv_letters s Hinv).
  - now rewrite createWalls_unmounted.
Qed.

Lemma handleResize_allAtRest v p s :
  sceneInv s -> allAtRest s -> allAtRest (handleResize v p s).
Proof.
  intros Hinv H. unfold handleResize.
  destruct (heroRef p) as [heroRect|]; [|assumption].
  destruct v; (destruct (negb _); [apply createLetterBodies_allAtRest|]);
    apply createWalls_allAtRest;
    try (now apply setRenderSize_inv); exact H.
Qed.

Lemma handleMouseMove_allAtRest cx cy canvas s :
  sceneInv s -> allAtRest s -> allAtRest (handleMouseMove cx cy canvas s).
Proof.
  intros Hinv H. unfold handleMouseMove.
  destruct (mouseBodyRef s) as [m|] eqn:E; [|assumption].
  apply (allAtRest_same s); [reflexivity| |assumption].
  intros k Hk. simpl. apply lookup_alter_ne. intros Em.
  apply (proj1 (proj2 (inv_mouse s Hinv m E))). now rewrite Em.
Qed.

Lemma checkForMovement_allAtRest s : allAtRest s -> allAtRest (checkForMovement s).
Proof.
  intros H. unfold checkForMovement. destruct (hasMoved s); [|assumption].
  destruct (negb _); now apply (allAtRest_same s).
Qed.

Lemma resetText_allAtRest s : sceneInv s -> allAtRest (resetText s).
Proof.
  intros Hinv. unfold allAtRest.
  destruct (resetText_rest s) as (_ & _ & -> & _).
  apply List.Forall_forall. intros tb Hin.
  destruct (resetText_letter s tb Hinv Hin) as (b & _ & Hb).
  exists (resetPose tb b). now repeat split.
Qed.

Lemma pointer_allAtRest b s :
  sceneInv s -> allAtRest s ->
  allAtRest (World_add (nextHandle s)
               (setMouseBody (Some (nextHandle s)) (snd (alloc b s)))).
Proof.
  intros Hinv H. apply (allAtRest_same s); [reflexivity| |assumption].
  intros k Hk. simpl. apply lookup_insert_ne. intros E.
  apply (inv_letters s Hinv), (inv_fresh s Hinv) in Hk. lia.
Qed.

Lemma mount_allAtRest v p s :
  sceneInv s -> allAtRest s -> allAtRest (mount v p s).
Proof.
  intros Hinv H. unfold mount. destruct (negb (sceneRef p)); [assumption|].
  destruct (heroRef p) as [heroRect|]; [|assumption].
  match goal with
  | |- allAtRest (let '(m, s4) := Bodies_circle ?a ?b ?c ?o ?s3 in _) =>
      change (allAtRest (World_add (nextHandle s3)
                (setMouseBody (Some (nextHandle s3))
                   (snd (alloc (newBody a b (Circle c) o) s3)))))
  end.
  assert (Hinv0 : forall wh, sceneInv (setRenderSize wh (setEngine (Some []) s))).
  { intros wh. now apply setRenderSize_inv, setEngine_inv. }
  assert (H0 : forall wh, allAtRest (setRenderSize wh (setEngine (Some []) s))).
  { intros wh. now apply (allAtRest_same s). }
  apply pointer_allAtRest;
    destruct v;
    first [ apply createLetterBodies_inv, createWalls_inv, Hinv0
          | apply createLetterBodies_allAtRest, createWalls_allAtRest;
            [apply Hinv0|apply H0] ].
Qed.

Lemma step_allAtRest v s e :
  isTick e = false -> sceneInv s -> allAtRest s -> allAtRest (step v s e).
Proof.
  intros He Hinv H. destruct e as [f| |cx cy c|ts c|p|]; simpl.
  - discriminate.
  - now apply checkForMovement_allAtRest.
  - now apply handleMouseMove_allAtRest.
  - unfold handleTouchMove. destruct ts as [|[cx cy] ?]; [assumption|].
    now apply handleMouseMove_allAtRest.
  - now apply handleResize_allAtRest.
  - now apply resetText_allAtRest.
Qed.

Lemma step_quiet v s e :
  isTick e = false -> sceneInv s -> allAtRest s ->
  flags s = (false, false) -> flags (step v s e) = (false, false).
Proof.
  intros He Hinv H Hf.
  destruct e as [f| |cx cy c|ts c|p|]; try discriminate;
    try (rewrite step_flags by discriminate; exact Hf).
  - simpl. unfold checkForMovement. now rewrite (allAtRest_quiet s H).
  - reflexivity.
Qed.

Lemma run_quiet v es : forall s,
  forallb (fun e => negb (isTick e)) es = true ->
  sceneInv s -> allAtRest s -> flags s = (false, false) ->
  allAtRest (run v s es) /\ flags (run v s es) = (false, false).
Proof.
  induction es as [|e es IH]; intros s Hes Hinv H Hf; simpl; [now split|].
  simpl in Hes. apply andb_true_iff in Hes as [He Hes].
  apply negb_true_iff in He.
  apply IH; [assumption|now apply step_inv|now apply step_allAtRest|].
  now apply step_quiet.
Qed.

(** X6. If the engine never moves a letter, nothing else does: after
    the page has mounted, any run of frames, pointer and touch moves,
    resizes and reset clicks, in any order, leaves every letter at rest
    at its initial position, the scene untouched and the reset button
    hidden. *)
Theorem untouched_without_physics :
  forall (v : Revision) (p : Page) (es : list Event),
    forallb (fun e => negb (isTick e)) es = true ->
    let s := run v (mount v p initialScene) es in
    allAtRest s
    /\ hasBeenTouchedRef s = false /\ showResetButton s = false.
Proof.
  intros v p es Hes s.
  destruct (run_quiet v es (mount v p initialScene) Hes) as [H Hf].
  - apply mount_inv, initialScene_inv.
  - apply mount_allAtRest; [apply initialScene_inv|constructor].
  - now rewrite mount_flags.
  - split; [exact H|]. unfold flags in Hf. now injection Hf.
Qed.

(** X7. Reset is stable: in every scene the page can be in, the frame
    after a reset finds nothing moved, so the check changes nothing and
    the scene stays untouched with the button hidden. *)
Theorem check_after_reset :
  forall (v : Revision) (s : Scene),
    reachable v s ->
    checkForMovement (resetText s) = resetText s
    /\ hasBeenTouchedRef (checkForMovement (resetText s)) = false
    /\ showResetButton (checkForMovement (resetText s)) = false.
Proof.
  intros v s Hr. apply reachable_inv in Hr.
  assert (E : checkForMovement (resetText s) = resetText s).
  { unfold checkForMovement.
    now rewrite (allAtRest_quiet _ (resetText_allAtRest s Hr)). }
  rewrite E. now repeat split.
Qed.

Lemma flags_sync s s' :
  flags s' = flags s -> showResetButton s = hasBeenTouchedRef s ->
  showResetButton s' = hasBeenTouchedRef s'.
Proof. unfold flags. intros E H. injection E as -> ->. exact H. Qed.

Lemma reachable_flags v s :
  reachable v s -> showResetButton s = hasBeenTouchedRef s.
Proof.
  induction 1 as [|p s _ IH|e s _ IH]; [reflexivity| |].
  - apply (flags_sync s); [apply mount_flags|exact IH].
  - destruct e as [f| |cx cy c|ts c|p|].
    + exact IH.
    + cbn [step].
      now rewrite checkForMovement_button, checkForMovement_touched, IH.
    + apply (flags_sync s); [apply handleMouseMove_flags|exact IH].
    + apply (flags_sync s); [|exact IH].
      apply (step_flags v s (TouchMove ts c)); discriminate.
    + apply (flags_sync s); [apply handleResize_flags|exact IH].
    + reflexivity.
Qed.

(** X8. In every scene the page can be in, the reset button is shown
    exactly when the scene is marked as touched. *)
Theorem button_shows_touched :
  forall (v : Revision) (s : Scene),
    reachable v s -> (showResetButton s = true <-> hasBeenTouchedRef s = true).
Proof. intros v s Hr. now rewrite (reachable_flags v s Hr). Qed.



(** The effect, in one step. *)
Lemma mount_unfold v p heroRect s :
  sceneRef p = true -> heroRef p = Some heroRect ->
  mount v p s
  = let size := canvasSize v p heroRect in
    let s2 := wallsPlaced v (fst size) (snd size)
                (setRenderSize size (setEngine (Some []) s)) in
    let s3 := placeAll
                (number (4 + nextHandle s)
                   (layout v (DOMRect.width heroRect) (DOMRect.left heroRect)
                      (DOMRect.top heroRect)))
                (setTextBodies [] (withWorld (removeAll (letterHandles s)) s2)) in
    World_add (nextHandle s3)
      (setMouseBody (Some (nextHandle s3))
         (snd (alloc (newBody 0 0 (Circle 15) wallOptions) s3))).
Proof.
  intros Hs Hp. unfold mount. rewrite Hs, Hp. cbn [negb].
  assert (He : forall wh, is_Some (engineRef (setRenderSize wh (setEngine (Some []) s))))
    by (intros; simpl; eauto).
  assert (He2 : forall a b wh,
             is_Some (engineRef (wallsPlaced v a b
                                   (setRenderSize wh (setEngine (Some []) s)))))
    by (intros; simpl; eauto).
  destruct v; cbn zeta;
    rewrite createWalls_placed by apply He;
    rewrite createLetterBodies_layout by apply He2;
    reflexivity.
Qed.

Lemma removeAll_nil hs : removeAll hs [] = [].
Proof. induction hs as [|h hs IH]; [reflexivity|exact IH]. Qed.

Lemma removeAll_iff hs l x :
  NoDup l -> (In x (removeAll hs l) <-> In x l /\ ~ In x hs).
Proof.
  intros Hl. split.
  - intros H. split; [now apply removeAll_In in H|].
    intros Hx. now apply (removeAll_gone hs l x Hl Hx).
  - intros [H1 H2]. now apply removeAll_keeps.
Qed.

Lemma pointer_heap b s :
  heap (World_add (nextHandle s)
          (setMouseBody (Some (nextHandle s)) (snd (alloc b s))))
  = <[nextHandle s := b]> (heap s).
Proof. reflexivity. Qed.

Lemma pointer_ref b s :
  mouseBodyRef (World_add (nextHandle s)
                  (setMouseBody (Some (nextHandle s)) (snd (alloc b s))))
  = Some (nextHandle s).
Proof. reflexivity. Qed.

Lemma placeAll_heap tbs s :
  heap (placeAll tbs s) = insertAll (map letterEntry tbs) (heap s).
Proof. reflexivity. Qed.

Lemma placeAll_next tbs s : nextHandle (placeAll tbs s) = length tbs + nextHandle s.
Proof. reflexivity. Qed.

(** X10. Every run of the effect that finds the scene and hero
    elements builds all bodies anew, whatever the scene was before:
    the recorded letters are the glyphs of the layout for the hero
    rectangle, with consecutive new handles after four new walls and
    before a new pointer body, which is a static circle of radius 15 at
    the origin; every letter is at rest at its initial position, so the
    disturbance check finds nothing; and the touched flag and the
    button state are carried over unchanged. *)
Theorem mount_rebuilds :
  forall (v : Revision) (p : Page) (heroRect : DOMRect.t) (s : Scene),
    sceneRef p = true -> heroRef p = Some heroRect ->
    let s' := mount v p s in
    let glyphs := layout v (DOMRect.width heroRect) (DOMRect.left heroRect)
                         (DOMRect.top heroRect) in
    let m := length glyphs + (4 + nextHandle s) in
    map glyphOf (textBodiesRef s') = glyphs
    /\ wallsRef s' = seq (nextHandle s) 4
    /\ letterHandles s' = seq (4 + nextHandle s) (length glyphs)
    /\ mouseBodyRef s' = Some m
    /\ heap s' !! m = Some (newBody 0 0 (Circle 15) wallOptions)
    /\ allAtRest s'
    /\ hasMoved s' = false
    /\ flags s' = flags s.
Proof.
  intros v p heroRect s Hs Hp s' glyphs m.
  assert (E : s' = mount v p s) by reflexivity.
  rewrite (mount_unfold v p heroRect s Hs Hp) in E. cbn zeta in E.
  fold glyphs in E.
  set (s2 := wallsPlaced v (fst (canvasSize v p heroRect))
               (snd (canvasSize v p heroRect))
               (setRenderSize (canvasSize v p heroRect)
                  (setEngine (Some []) s))) in E.
  set (s3c := setTextBodies [] (withWorld (removeAll (letterHandles s)) s2)) in E.
  assert (Et : textBodiesRef s' = number (4 + nextHandle s) glyphs)
    by now rewrite E.
  assert (Hrest : allAtRest s').
  { unfold allAtRest. rewrite Et. apply List.Forall_forall. intros tb Hin.
    apply letterBody_atRest. rewrite E, pointer_heap, placeAll_next.
    rewrite number_length, placeAll_heap. rewrite lookup_insert_ne.
    - apply (insertAll_written _ _ (body tb));
        [rewrite letterEntry_keys, number_handles; apply NoDup_seq|].
      apply (in_map letterEntry) in Hin. exact Hin.
    - apply (in_map body) in Hin. rewrite number_handles in Hin.
      apply in_seq in Hin. change (nextHandle s3c) with (4 + nextHandle s).
      lia. }
  split; [|split; [|split; [|split; [|split; [|split; [|split]]]]]].
  - rewrite Et. apply number_glyphs.
  - now rewrite E.
  - unfold letterHandles. rewrite Et. apply number_handles.
  - rewrite E, pointer_ref, placeAll_next, number_length. reflexivity.
  - rewrite E, pointer_heap, placeAll_next, number_length.
    apply lookup_insert_eq.
  - exact Hrest.
  - now apply allAtRest_quiet.
  - apply mount_flags.
Qed.

(** ** What the world holds *)

Lemma pointer_world b s :
  engineRef (World_add (nextHandle s)
               (setMouseBody (Some (nextHandle s)) (snd (alloc b s))))
  = option_map (fun w => w ++ [nextHandle s]) (engineRef s).
Proof. reflexivity. Qed.

Lemma pointer_walls b s :
  wallsRef (World_add (nextHandle s)
              (setMouseBody (Some (nextHandle s)) (snd (alloc b s))))
  = wallsRef s.
Proof. reflexivity. Qed.

Lemma pointer_letters b s :
  textBodiesRef (World_add (nextHandle s)
                   (setMouseBody (Some (nextHandle s)) (snd (alloc b s))))
  = textBodiesRef s.
Proof. reflexivity. Qed.

Lemma placeAll_world tbs s :
  engineRef (placeAll tbs s)
  = option_map (fun w => w ++ map body tbs) (engineRef s).
Proof. reflexivity. Qed.

Lemma placeAll_letters tbs s :
  textBodiesRef (placeAll tbs s) = textBodiesRef s ++ tbs.
Proof. reflexivity. Qed.

Lemma mount_refs v p heroRect s :
  sceneRef p = true -> heroRef p = Some heroRect ->
  let s' := mount v p s in
  let n := nextHandle s in
  let len := length (layout v (DOMRect.width heroRect) (DOMRect.left heroRect)
                            (DOMRect.top heroRect)) in
  wallsRef s' = seq n 4
  /\ letterHandles s' = seq (4 + n) len
  /\ mouseBodyRef s' = Some (len + (4 + n))
  /\ engineRef s'
     = Some ((removeAll (letterHandles s) (removeAll (wallsRef s) [] ++ seq n 4)
              ++ seq (4 + n) len) ++ [len + (4 + n)]).
Proof.
  intros Hs Hp s' n len. unfold s'.
  rewrite (mount_unfold v p heroRect s Hs Hp). cbv zeta.
  split; [|split; [|split]].
  - rewrite pointer_walls. reflexivity.
  - unfold letterHandles. rewrite pointer_letters, placeAll_letters.
    cbn [textBodiesRef setTextBodies app]. apply number_handles.
  - rewrite pointer_ref, placeAll_next, number_length. reflexivity.
  - rewrite pointer_world, placeAll_world, placeAll_next.
    rewrite number_handles, number_length. reflexivity.
Qed.

Lemma handleResize_unmounted v p s :
  engineRef s = None -> engineRef (handleResize v p s) = None.
Proof.
  intros E. unfold handleResize. destruct (heroRef p) as [heroRect|]; [|exact E].
  destruct v; rewrite createWalls_unmounted by exact E;
    (destruct (negb _); [rewrite createLetterBodies_unmounted by exact E|]);
    exact E.
Qed.

Lemma handleResize_refs v p heroRect s world :
  heroRef p = Some heroRect -> engineRef s = Some world ->
  let s' := handleResize v p s in
  let n := nextHandle s in
  let len := length (layout v (DOMRect.width heroRect) (DOMRect.left heroRect)
                            (DOMRect.top heroRect)) in
  let world2 := removeAll (wallsRef s) world ++ seq n 4 in
  wallsRef s' = seq n 4
  /\ mouseBodyRef s' = mouseBodyRef s
  /\ (if hasBeenTouchedRef s
      then letterHandles s' = letterHandles s /\ engineRef s' = Some world2
      else letterHandles s' = seq (4 + n) len
           /\ engineRef s'
              = Some (removeAll (letterHandles s) world2 ++ seq (4 + n) len)).
Proof.
  intros Hp E s' n len world2. unfold s'.
  rewrite (handleResize_unfold v p heroRect s Hp) by eauto. cbn zeta.
  destruct (hasBeenTouchedRef s).
  - repeat split. simpl. now rewrite E.
  - split; [reflexivity|]. split; [reflexivity|]. split.
    + unfold letterHandles, placeAll. cbn [textBodiesRef setTextBodies app].
      apply number_handles.
    + unfold placeAll, wallsPlaced, setTextBodies, withWorld, setRenderSize.
      cbn [engineRef option_map nextHandle wallsRef]. rewrite E.
      cbn [option_map]. now rewrite number_handles.
Qed.

Lemma step_refs v s e :
  (forall p, e <> Resize p) ->
  engineRef (step v s e) = engineRef s
  /\ wallsRef (step v s e) = wallsRef s
  /\ letterHandles (step v s e) = letterHandles s
  /\ mouseBodyRef (step v s e) = mouseBodyRef s.
Proof.
  intros He. unfold letterHandles.
  destruct e as [f| |cx cy c|ts c|p|]; cbn [step].
  - now repeat split.
  - unfold checkForMovement. destruct (hasMoved s); [|now repeat split].
    destruct (negb _); now repeat split.
  - unfold handleMouseMove. destruct (mouseBodyRef s) eqn:E;
      repeat split; try reflexivity; simpl; now rewrite E.
  - unfold handleTouchMove, handleMouseMove.
    destruct ts as [|[cx cy] ?]; [now repeat split|].
    destruct (mouseBodyRef s) eqn:E;
      repeat split; try reflexivity; simpl; now rewrite E.
  - now destruct (He p).
  - destruct (resetText_rest s) as (_ & -> & -> & -> & -> & _).
    now repeat split.
Qed.

Lemma reachable_world v s :
  reachable v s ->
  forall world, engineRef s = Some world ->
                forall h, In h world <-> referenced s h.
Proof.
  induction 1 as [|p s Hr IH|e s Hr IH]; [discriminate| |].
  - (* the effect *)
    pose proof (reachable_inv v s Hr) as Hinv.
    destruct (sceneRef p) eqn:Hs;
      [|unfold mount; rewrite Hs; exact IH].
    destruct (heroRef p) as [heroRect|] eqn:Hp;
      [|unfold mount; rewrite Hs, Hp; exact IH].
    destruct (mount_refs v p heroRect s Hs Hp) as (Hw & Hl & Hm & He).
    intros world E h. rewrite He in E. injection E as <-.
    unfold referenced. rewrite Hw, Hl, Hm, removeAll_nil. cbn [app].
    rewrite !in_app_iff, removeAll_iff by apply NoDup_seq.
    split.
    + intros [[[H _]|H]|[<-|[]]]; auto.
    + intros [H|[H|H]]; [left; left; split; [exact H|]|now left; right|].
      * intros Hold. apply in_seq in H.
        apply (inv_letters s Hinv), (inv_fresh s Hinv) in Hold. lia.
      * right. left. injection H as <-. reflexivity.
  - (* an event *)
    pose proof (reachable_inv v s Hr) as Hinv.
    destruct e as [f| |cx cy c|ts c|p|];
      try (match goal with
           | |- forall world, engineRef (step v s ?e) = _ -> _ =>
               destruct (step_refs v s e) as (He & Hw & Hl & Hm);
               [discriminate|];
               unfold referenced; rewrite He, Hw, Hl, Hm; exact IH
           end).
    cbn [step]. destruct (engineRef s) as [world0|] eqn:E0.
    2:{ intros world E. now rewrite handleResize_unmounted in E. }
    destruct (heroRef p) as [heroRect|] eqn:Hp.
    2:{ rewrite handleResize_detached by exact Hp. rewrite E0. exact IH. }
    specialize (IH world0 eq_refl).
    assert (Hnd : NoDup world0) by now apply (inv_world s Hinv).
    assert (Hold : forall k, referenced s k -> k < nextHandle s).
    { intros k [H|[H|H]]; apply (allocated_below s k Hinv).
      - now apply (inv_walls s Hinv).
      - now apply (inv_letters s Hinv).
      - now apply (inv_mouse s Hinv k H). }
    assert (H2 : forall k,
               In k (removeAll (wallsRef s) world0 ++ seq (nextHandle s) 4) <->
               In k (letterHandles s) \/ mouseBodyRef s = Some k
               \/ In k (seq (nextHandle s) 4)).
    { intros k. rewrite in_app_iff, removeAll_iff, IH by exact Hnd.
      unfold referenced. split.
      - intros [[[H|[H|H]] Hn]|H]; auto. contradiction.
      - intros [H|[H|H]]; [left|left|now right].
        + split; [auto|]. intros Hw. now apply (inv_walls_letters s Hinv k).
        + split; [auto|]. now apply (inv_mouse s Hinv k H). }
    destruct (handleResize_refs v p heroRect s world0 Hp E0)
      as (Hw & Hm & Hcase).
    intros world E h. unfold referenced. rewrite Hw, Hm.
    destruct (hasBeenTouchedRef s).
    + destruct Hcase as [Hl He]. rewrite He in E. injection E as <-.
      rewrite Hl, H2. tauto.
    + destruct Hcase as [Hl He]. rewrite He in E. injection E as <-.
      rewrite Hl, in_app_iff, removeAll_iff, H2.
      2:{ apply NoDup_app. split; [now apply removeAll_NoDup|].
          split; [|apply NoDup_seq].
          intros k H1 H2'. rewrite list_elem_of_In in *.
          apply removeAll_In, IH, Hold in H1. apply in_seq in H2'. lia. }
      split.
      * intros [[[H|[H|H]] Hn]|H]; auto. contradiction.
      * intros [H|[H|H]]; [left|now right|left].
        -- split; [auto|]. intros Hl'. apply in_seq in H.
           apply (inv_letters s Hinv), (inv_fresh s Hinv) in Hl'. lia.
        -- split; [auto|]. now apply (inv_mouse s Hinv h H).
Qed.

(** X11. The world never leaks and never loses a body: in every scene
    the page can be in, the world lists no body twice, and a body is in
    the world exactly if it is one of the recorded walls, one of the
    recorded letters or the pointer body, however many times the window
    was resized or the effect has run. *)
Theorem world_holds_what_is_referenced :
  forall (v : Revision) (s : Scene) (world : list handle),
    reachable v s -> engineRef s = Some world ->
    NoDup world /\ (forall h, In h world <-> referenced s h).
Proof.
  intros v s world Hr E. split.
  - now apply (inv_world s (reachable_inv v s Hr)).
  - now apply (reachable_world v s Hr).
Qed.

(** ** The walls *)

Ltac qhalves :=
  unfold Qdiv in *; repeat change (/ 2)%Q with (1 # 2)%Q in *.

(** X12. The walls are placed around the canvas: on a scene with a
    world, [createWalls] leaves four new static bodies, 100 thick,
    whose inner faces are the lines y = extent (floor), y = 0
    (ceiling), x = 0 (left) and x = width (right), where the extent is
    the height in one revision and 2000 in the other; for a width and
    an extent that are not negative, floor and ceiling span the whole
    width and the side walls the whole extent. *)
Theorem createWalls_encloses :
  forall (v : Revision) (w h : Q) (s : Scene) (world : list handle),
    engineRef s = Some world ->
    let s' := createWalls v w h s in
    let n := nextHandle s in
    let H := wallExtent v h in
    exists floor ceiling left right,
      heap s' !! n = Some floor /\ heap s' !! (n + 1) = Some ceiling
      /\ heap s' !! (n + 2) = Some left /\ heap s' !! (n + 3) = Some right
      /\ wallsRef s' = [n; n + 1; n + 2; n + 3]
      /\ Forall (fun b => isStatic b = true /\ angle b = 0%Q)
                [floor; ceiling; left; right]
      /\ (minY floor == H /\ maxY floor == H + 100)%Q
      /\ (maxY ceiling == 0 /\ minY ceiling == -100)%Q
      /\ (maxX left == 0 /\ minX left == -100)%Q
      /\ (minX right == w /\ maxX right == w + 100)%Q
      /\ ((0 <= w)%Q ->
          (minX floor <= 0 /\ w <= maxX floor)%Q
          /\ (minX ceiling <= 0 /\ w <= maxX ceiling)%Q)
      /\ ((0 <= H)%Q ->
          (minY left <= 0 /\ H <= maxY left)%Q
          /\ (minY right <= 0 /\ H <= maxY right)%Q).
Proof.
  intros v w h s world E s' n H.
  assert (Es : s' = wallsPlaced v w h s) by (apply createWalls_placed; eauto).
  assert (Hk : forall k r, nth_error (wallRects v w h) k = Some r ->
                           heap s' !! (n + k) = Some (wallBody r)).
  { intros k r Hr. rewrite Es. now apply wallsPlaced_wall. }
  unfold wallRects in Hk. fold (wallExtent v h) in Hk. fold H in Hk.
  eexists _, _, _, _.
  split; [rewrite <- (Nat.add_0_r n) at 1; apply (Hk 0); reflexivity|].
  split; [apply (Hk 1); reflexivity|].
  split; [apply (Hk 2); reflexivity|].
  split; [apply (Hk 3); reflexivity|].
  split.
  { rewrite Es. unfold wallsPlaced. cbn [wallsRef]. fold n.
    change (seq n 4) with [n; S n; S (S n); S (S (S n))].
    repeat f_equal; lia. }
  split; [repeat constructor|].
  unfold minX, maxX, minY, maxY, halfWidth, halfHeight, wallBody, newBody.
  cbn [position shape x y].
  repeat split; intros; qhalves; lra.
Qed.

(** ** Letters do not overlap when they are created *)

Lemma FOP_app {A} (R : A -> A -> Prop) l1 l2 :
  ForallOrdPairs R l1 -> ForallOrdPairs R l2 ->
  (forall a b, In a l1 -> In b l2 -> R a b) ->
  ForallOrdPairs R (l1 ++ l2).
Proof.
  intros H1 H2 Hx. induction H1 as [|a l Ha _ IH]; [exact H2|].
  simpl. constructor.
  - apply Forall_app. split; [exact Ha|].
    apply List.Forall_forall. intros b Hb. apply Hx; [now left|exact Hb].
  - apply IH. intros x y Hin Hy. apply Hx; [now right|exact Hy].
Qed.

Lemma ofIndex_gap k i : k < i -> (ofIndex k + 1 <= ofIndex i)%Q.
Proof.
  intros H. unfold ofIndex.
  change 1%Q with (inject_Z 1). rewrite <- inject_Z_plus, <- Zle_Qle. lia.
Qed.

Lemma ofIndex_le k i : k <= i -> (ofIndex k <= ofIndex i)%Q.
Proof. intros H. unfold ofIndex. rewrite <- Zle_Qle. lia. Qed.

Lemma slot_gap k i cw :
  k < i -> (0 <= cw)%Q -> (ofIndex k * cw + cw <= ofIndex i * cw)%Q.
Proof.
  intros H Hcw. pose proof (ofIndex_gap k i H) as G.
  apply (Qmult_le_compat_r _ _ cw) in G; [|exact Hcw]. lra.
Qed.

(** The glyphs of the characters from index [k] on sit in slots
    [k], [k + 1], ... of their line. *)
Lemma glyph_slot title size py startX cw text : forall k g,
  In g (flat_map (glyphAt title size py startX cw) (Str.indexedFrom k text)) ->
  glyphSize g = size /\ glyphY g = py
  /\ exists i, k <= i /\ glyphX g = (startX + ofIndex i * cw)%Q.
Proof.
  induction text as [|c text IH]; intros k g Hin; [destruct Hin|].
  simpl in Hin. apply in_app_or in Hin as [Hin|Hin].
  - unfold glyphAt in Hin. simpl in Hin.
    destruct (Ascii.eqb c SPACE); [destruct Hin|].
    destruct Hin as [<-|[]]. simpl. repeat split. exists k. now split.
  - destruct (IH (S k) g Hin) as (Hs & Hy & i & Hi & Hx).
    repeat split; try assumption. exists i. split; [lia|exact Hx].
Qed.

Lemma slots_apart title size py startX text : forall k,
  (0 <= size)%Q ->
  ForallOrdPairs glyphsApart
    (flat_map (glyphAt title size py startX (size * 0.62)%Q)
              (Str.indexedFrom k text)).
Proof.
  induction text as [|c text IH]; intros k Hsize; [constructor|].
  simpl. apply FOP_app; [| now apply IH |].
  - unfold glyphAt. simpl. destruct (Ascii.eqb c SPACE); repeat constructor.
  - intros a b Ha Hb. unfold glyphAt in Ha. simpl in Ha.
    destruct (Ascii.eqb c SPACE); [destruct Ha|]. destruct Ha as [<-|[]].
    destruct (glyph_slot _ _ _ _ _ _ _ _ Hb) as (Hs & Hy & i & Hi & Hx).
    left. unfold maxX, minX, halfWidth, letterBody, newBody.
    cbn [position shape x glyphX glyphSize]. rewrite Hs, Hx.
    assert (Hcw : (0 <= size * 0.62)%Q) by lra.
    pose proof (slot_gap k i _ Hi Hcw). qhalves. lra.
Qed.

Lemma line_apart title origin line :
  (0 <= snd (fst line))%Q ->
  ForallOrdPairs glyphsApart (lineGlyphs title origin line).
Proof.
  destruct line as [[text size] py]. simpl. intros H.
  unfold lineGlyphs. now apply slots_apart.
Qed.

Lemma glyph_of_line title origin line g :
  In g (lineGlyphs title origin line) ->
  glyphSize g = snd (fst line) /\ glyphY g = snd line.
Proof.
  destruct line as [[text size] py]. unfold lineGlyphs. intros H.
  destruct (glyph_slot _ _ _ _ _ _ _ _ H) as (Hs & Hy & _). now split.
Qed.

(** Glyphs of a line and of a line below it are apart. *)
Lemma lines_cross t1 o1 l1 t2 o2 l2 g1 g2 :
  lineAbove l1 l2 ->
  In g1 (lineGlyphs t1 o1 l1) -> In g2 (lineGlyphs t2 o2 l2) ->
  glyphsApart g1 g2.
Proof.
  intros Hab H1 H2.
  apply glyph_of_line in H1 as [Hs1 Hy1].
  apply glyph_of_line in H2 as [Hs2 Hy2].
  right. right. left. unfold lineAbove in Hab.
  unfold maxY, minY, halfHeight, letterBody, newBody.
  cbn [position shape y]. now rewrite Hs1, Hy1, Hs2, Hy2.
Qed.

Lemma stacked_apart title origin ls :
  Forall (fun line => (0 <= snd (fst line))%Q) ls ->
  ForallOrdPairs lineAbove ls ->
  ForallOrdPairs glyphsApart (flat_map (lineGlyphs title origin) ls).
Proof.
  intros Hsize Hst. induction Hst as [|l ls Hl _ IH]; [constructor|].
  inversion Hsize; subst. simpl.
  apply FOP_app; [now apply line_apart|now apply IH|].
  intros a b Ha Hb. apply in_flat_map in Hb as (l' & Hl' & Hb).
  rewrite List.Forall_forall in Hl.
  exact (lines_cross _ _ _ _ _ _ _ _ (Hl l' Hl') Ha Hb).
Qed.

(** The description lines are stacked at steps of the line height. *)
Lemma descLines_stacked cfg y0 lines : forall k,
  (0 <= descFontSize cfg)%Q ->
  (descFontSize cfg * 1.1 <= descLineHeight cfg)%Q ->
  ForallOrdPairs lineAbove (descLinesFrom cfg y0 k lines)
  /\ Forall (fun line =>
               snd (fst line) = descFontSize cfg
               /\ exists i, k <= i
                   /\ snd line = (y0 + ofIndex i * descLineHeight cfg)%Q)
            (descLinesFrom cfg y0 k lines).
Proof.
  induction lines as [|text lines IH]; intros k H0 Hd; [split; constructor|].
  destruct (IH (S k) H0 Hd) as [Hst Hall]. cbn [descLinesFrom]. split.
  - constructor; [|exact Hst].
    rewrite List.Forall_forall in *. intros line Hin.
    destruct (Hall line Hin) as (Hs & i & Hi & Hy).
    unfold lineAbove. cbn [fst snd]. rewrite Hs, Hy.
    assert (Hh : (0 <= descLineHeight cfg)%Q) by lra.
    pose proof (slot_gap k i _ Hi Hh). qhalves. lra.
  - constructor.
    + cbn [fst snd]. split; [reflexivity|]. exists k. now split.
    + rewrite List.Forall_forall in *. intros line Hin.
      destruct (Hall line Hin) as (Hs & i & Hi & Hy).
      split; [exact Hs|]. exists i. split; [lia|exact Hy].
Qed.

Lemma layout_apart v w ox oy : ForallOrdPairs glyphsApart (layout v w ox oy).
Proof.
  unfold layout.
  set (cfg := getResponsiveConfig v w).
  assert (Hnum : (0 <= titleFontSize cfg)%Q /\ (0 <= descFontSize cfg)%Q
                 /\ (titleFontSize cfg * 1.1 <= lineHeight cfg)%Q
                 /\ (descFontSize cfg * 1.1 <= descLineHeight cfg)%Q
                 /\ (titleFontSize cfg * 1.1 / 2 + descFontSize cfg * 1.1 / 2
                     <= lineHeight cfg + 40)%Q).
  { unfold cfg, getResponsiveConfig, bySize. cbn [titleFontSize descFontSize
      lineHeight descLineHeight].
    destruct (isMobile w); [|destruct (isTablet w)];
      repeat split; qhalves; lra. }
  destruct Hnum as (Ht & Hd & Htl & Hdl & Hgap).
  destruct (descLines_stacked cfg
              (titleY v oy + lineHeight cfg * 2 + 40)%Q
              (descriptionLines cfg) 0 Hd Hdl) as [Hst Hall].
  apply FOP_app.
  - apply stacked_apart.
    + unfold titleLines. repeat constructor; exact Ht.
    + unfold titleLines. repeat constructor.
      unfold lineAbove. cbn [fst snd]. qhalves. lra.
  - apply stacked_apart; [|exact Hst].
    unfold descLines. eapply List.Forall_impl; [|exact Hall].
    intros line [Hs _]. cbn beta. now rewrite Hs.
  - intros a b Ha Hb.
    apply in_flat_map in Ha as (l1 & Hl1 & Ha).
    apply in_flat_map in Hb as (l2 & Hl2 & Hb).
    apply (lines_cross true (originX v ox) l1 false (originX v ox) l2);
      try assumption.
    unfold descLines in Hl2. rewrite List.Forall_forall in Hall.
    destruct (Hall l2 Hl2) as (Hs & i & _ & Hy).
    pose proof (ofIndex_le 0 i (Nat.le_0_l i)) as Hi.
    assert (Hh : (0 <= descLineHeight cfg)%Q) by lra.
    apply (Qmult_le_compat_r _ _ _ Hi) in Hh.
    change (ofIndex 0) with 0%Q in Hh.
    unfold lineAbove. rewrite Hs, Hy.
    unfold titleLines in Hl1.
    destruct Hl1 as [<-|[<-|[]]]; cbn [fst snd]; qhalves; lra.
Qed.

Lemma apart_sym b1 b2 : apart b1 b2 -> apart b2 b1.
Proof. unfold apart. tauto. Qed.

Lemma number_apart gs : forall n,
  ForallOrdPairs glyphsApart gs ->
  ForallOrdPairs (fun t1 t2 => glyphsApart (glyphOf t1) (glyphOf t2))
                 (number n gs).
Proof.
  induction gs as [|g gs IH]; intros n H; [constructor|].
  inversion H as [|? ? Hg Hgs]; subst. simpl. constructor; [|now apply IH].
  apply List.Forall_forall. intros t Ht.
  rewrite glyphOf_textBodyOf.
  apply (in_map glyphOf) in Ht. rewrite number_glyphs in Ht.
  rewrite List.Forall_forall in Hg. now apply Hg.
Qed.

(** X13. The factory creates the letters clear of each other: on a
    scene with a world, for every width and origin, the rectangles of
    any two different letters do not overlap: letters of one line are
    side by side and lines are stacked with room to spare. *)
Theorem letters_created_apart :
  forall (v : Revision) (containerWidth offsetX offsetY : Q) (s : Scene)
         (world : list handle),
    engineRef s = Some world ->
    let s' := createLetterBodies v containerWidth offsetX offsetY s in
    forall tb1 tb2 b1 b2,
      In tb1 (textBodiesRef s') -> In tb2 (textBodiesRef s') ->
      body tb1 <> body tb2 ->
      heap s' !! body tb1 = Some b1 -> heap s' !! body tb2 = Some b2 ->
      apart b1 b2.
Proof.
  intros v w ox oy s world E s' tb1 tb2 b1 b2 H1 H2 Hne Hb1 Hb2.
  assert (Es' : s' = placeAll (number (nextHandle s) (layout v w ox oy))
                       (setTextBodies [] (withWorld (removeAll (letterHandles s)) s)))
    by (apply createLetterBodies_layout; eauto).
  assert (Et : textBodiesRef s' = number (nextHandle s) (layout v w ox oy))
    by now rewrite Es'.
  rewrite Et in H1, H2.
  assert (Hb : forall tb b, In tb (number (nextHandle s) (layout v w ox oy)) ->
                            heap s' !! body tb = Some b ->
                            b = letterBody (glyphOf tb)).
  { intros tb b Hin Hl.
    assert (Hp : heap s' !! body tb = Some (letterBody (glyphOf tb))).
    { rewrite Es'.
      exact (placeAll_letter (layout v w ox oy)
               (setTextBodies [] (withWorld (removeAll (letterHandles s)) s))
               tb Hin). }
    rewrite Hp in Hl. now injection Hl. }
  rewrite (Hb tb1 b1 H1 Hb1), (Hb tb2 b2 H2 Hb2).
  pose proof (number_apart _ (nextHandle s) (layout_apart v w ox oy)) as Hfop.
  destruct (ForallOrdPairs_In Hfop tb1 tb2 H1 H2) as [->|[H|H]].
  - contradiction.
  - exact H.
  - now apply apart_sym.
Qed.

(* ================================================================= *)
(** * The render pass *)

Lemma nonSpace_split s :
  nonSpace s = flat_map list_ascii_of_string (Str.split SPACE s).
Proof.
  induction s as [|c s IH]; [reflexivity|]. cbn [nonSpace Str.split].
  destruct (Ascii.eqb c SPACE); [exact IH|].
  rewrite IH. destruct (Str.split SPACE s) as [|w ws] eqn:E;
    [now apply split_nonempty in E|reflexivity].
Qed.

Lemma glyphs_chars title size py startX cw text : forall k,
  map glyph (flat_map (glyphAt title size py startX cw) (Str.indexedFrom k text))
  = nonSpace text.
Proof.
  induction text as [|c text IH]; intros k; [reflexivity|].
  cbn [Str.indexedFrom flat_map nonSpace]. rewrite map_app, IH.
  unfold glyphAt. cbn [snd fst].
  destruct (Ascii.eqb c SPACE); reflexivity.
Qed.

Lemma lineGlyphs_chars title origin text size py :
  map glyph (lineGlyphs title origin (text, size, py)) = nonSpace text.
Proof. apply glyphs_chars. Qed.

Lemma descGlyphs_chars origin cfg y0 lines : forall k,
  map glyph (flat_map (lineGlyphs false origin) (descLinesFrom cfg y0 k lines))
  = flat_map nonSpace lines.
Proof.
  induction lines as [|text lines IH]; intros k; [reflexivity|].
  cbn [descLinesFrom flat_map].
  now rewrite map_app, IH, lineGlyphs_chars.
Qed.

Lemma flat_map_nested {A B C} (f : A -> list B) (g : B -> list C) l :
  flat_map g (flat_map f l) = flat_map (fun a => flat_map g (f a)) l.
Proof.
  induction l as [|a l IH]; [reflexivity|]. simpl.
  now rewrite flat_map_app, IH.
Qed.

(** Wrapping moves no character other than a space. *)
Lemma wrapWords_chars limit s :
  Forall properWord (Str.split SPACE s) ->
  flat_map nonSpace (wrapWords limit (Str.split SPACE s)) = nonSpace s.
Proof.
  intros Hw. rewrite (nonSpace_split s).
  rewrite <- (wrapWords_words limit _ Hw) at 2.
  rewrite flat_map_nested. apply flat_map_ext. intros line.
  apply nonSpace_split.
Qed.

Lemma layout_chars v w ox oy : map glyph (layout v w ox oy) = pageText v.
Proof.
  unfold layout, descLines, titleLines, pageText.
  rewrite map_app, descGlyphs_chars. cbn [flat_map].
  rewrite !map_app, !lineGlyphs_chars. cbn [map]. rewrite app_nil_r, <- app_assoc.
  do 2 f_equal. apply wrapWords_chars, description_words_proper.
Qed.

Lemma number_chars gs : forall h, map char (number h gs) = map glyph gs.
Proof.
  induction gs as [|g gs IH]; intros h; simpl; [reflexivity|].
  now rewrite IH.
Qed.

Lemma step_letters v s e :
  (forall p, e <> Resize p) -> textBodiesRef (step v s e) = textBodiesRef s.
Proof.
  intros He. destruct e as [f| |cx cy c|ts c|p|]; cbn [step].
  - reflexivity.
  - unfold checkForMovement. destruct (hasMoved s); [|reflexivity].
    destruct (negb _); reflexivity.
  - unfold handleMouseMove. destruct (mouseBodyRef s); reflexivity.
  - unfold handleTouchMove, handleMouseMove.
    destruct ts as [|[cx cy] ?]; [reflexivity|].
    destruct (mouseBodyRef s); reflexivity.
  - now destruct (He p).
  - now destruct (resetText_rest s) as (_ & _ & -> & _).
Qed.

(** Once the effect has run, the recorded letters spell the page. *)
Lemma reachable_text v s :
  reachable v s -> is_Some (engineRef s) ->
  map char (textBodiesRef s) = pageText v.
Proof.
  induction 1 as [|p s Hr IH|e s Hr IH]; intros He.
  - now destruct He.
  - destruct (sceneRef p) eqn:Hs;
      [|unfold mount in *; rewrite Hs in *; now apply IH].
    destruct (heroRef p) as [heroRect|] eqn:Hp;
      [|unfold mount in *; rewrite Hs, Hp in *; now apply IH].
    rewrite (mount_unfold v p heroRect s Hs Hp). cbv zeta.
    rewrite pointer_letters, placeAll_letters.
    cbn [textBodiesRef setTextBodies app].
    now rewrite number_chars, layout_chars.
  - destruct e as [f| |cx cy c|ts c|p|];
      try (match goal with
           | |- context [step v s ?e] =>
               assert (Hn : forall p, e <> Resize p) by (intros; discriminate);
               rewrite (step_letters v s e Hn); apply IH;
               rewrite <- (proj1 (step_refs v s e Hn)); exact He
           end).
    cbn [step] in *.
    destruct (heroRef p) as [heroRect|] eqn:Hp;
      [|unfold handleResize in *; rewrite Hp in *; now apply IH].
    destruct (engineRef s) as [world|] eqn:E;
      [|rewrite (handleResize_unmounted v p s E) in He; now destruct He].
    rewrite (handleResize_unfold v p heroRect s Hp) by eauto. cbv zeta.
    destruct (hasBeenTouchedRef s).
    + apply IH. eauto.
    + rewrite placeAll_letters. cbn [textBodiesRef setTextBodies app].
      now rewrite number_chars, layout_chars.
Qed.

Lemma stackAfter_app a : forall d b,
  stackAfter d (a ++ b)
  = match stackAfter d a with
    | Some d' => stackAfter d' b
    | None => None
    end.
Proof.
  induction a as [|c a IH]; intros d b; [reflexivity|].
  destruct c; cbn [app stackAfter]; try apply IH.
  destruct d; [reflexivity|apply IH].
Qed.

Lemma drawLetter_balanced s tb d : stackAfter d (drawLetter s tb) = Some d.
Proof. unfold drawLetter. destruct (heap s !! body tb); reflexivity. Qed.

Lemma renderLetters_balanced s tbs : forall d,
  stackAfter d (flat_map (drawLetter s) tbs) = Some d.
Proof.
  induction tbs as [|tb tbs IH]; intros d; [reflexivity|].
  cbn [flat_map]. now rewrite stackAfter_app, drawLetter_balanced.
Qed.

Lemma renderLetters_drawn s tbs :
  (forall tb, In tb tbs -> is_Some (heap s !! body tb)) ->
  drawn (flat_map (drawLetter s) tbs) = map char tbs
  /\ length (flat_map (drawLetter s) tbs) = 9 * length tbs.
Proof.
  induction tbs as [|tb tbs IH]; intros H; [now split|].
  destruct IH as [IH1 IH2]; [intros; apply H; now right|].
  destruct (H tb (or_introl eq_refl)) as [b Hb].
  cbn [flat_map]. unfold drawn in *. rewrite flat_map_app, length_app, IH1, IH2.
  unfold drawLetter. rewrite Hb. split; [reflexivity|]. simpl. lia.
Qed.

(** X18. In every scene the page can be in once the effect has run,
    whatever the physics has done to the bodies, one render pass draws
    the characters of the two title lines and of the description, in
    reading order and without the spaces; it makes nine context calls
    per recorded letter and leaves the context's state stack as it found
    it. *)
Theorem render_draws_page_text :
  forall (v : Revision) (s : Scene) (world : list handle),
    reachable v s -> engineRef s = Some world ->
    drawn (renderPass s) = pageText v
    /\ length (renderPass s) = 9 * length (textBodiesRef s)
    /\ stackAfter 0 (renderPass s) = Some 0.
Proof.
  intros v s world Hr E.
  pose proof (reachable_inv v s Hr) as Hinv.
  destruct (renderLetters_drawn s (textBodiesRef s)) as [Hd Hl].
  { intros tb Hin. apply (inv_letters s Hinv). unfold letterHandles.
    now apply in_map. }
  unfold renderPass. rewrite Hd, Hl, renderLetters_balanced.
  rewrite (reachable_text v s Hr) by eauto. now repeat split.
Qed.

(* ================================================================= *)
(** * The subscription endpoint and the form *)

Section Subscription.

Import Subscribe.

Lemma notSpaceAt_not_space u : notSpaceAt u = true -> isSpace u = false.
Proof.
  unfold notSpaceAt. rewrite negb_true_iff, orb_false_iff. now intros [H _].
Qed.

Lemma truthy_string (a : jsString) : truthy (Some (JString a)) = true <-> a <> [].
Proof. destruct a; simpl; split; intros H; congruence. Qed.

(** The four ways through the handler. *)
Lemma POST_cases resend body :
  (emailOf body = None
   /\ POST resend body = respond 500 (ErrorMessage "Something went wrong") [])
  \/ (exists email, emailOf body = Some email
        /\ (truthy email = false \/ asString email = None)
        /\ POST resend body = respond 400 (ErrorMessage "Email is required") [])
  \/ (exists addr, emailOf body = Some (Some (JString addr))
        /\ addr <> [] /\ test emailRegex addr = false
        /\ POST resend body
           = respond 400 (ErrorMessage "Invalid email format") [])
  \/ (exists addr, emailOf body = Some (Some (JString addr))
        /\ test emailRegex addr = true
        /\ POST resend body
           = match resend addr with
             | Threw => respond 500 (ErrorMessage "Something went wrong") [addr]
             | Refused => respond 500 (ErrorMessage "Failed to subscribe") [addr]
             | Created id => respond 200 (Success id) [addr]
             end).
Proof.
  unfold POST, emailOf. destruct body as [value|]; [|now left].
  destruct (destructureEmail value) as [email|]; [|now left].
  right. destruct (truthy email) eqn:Ht.
  - destruct email as [[| | |addr| |]|]; cbn [asString];
      try (left; eexists; split; [reflexivity|]; split; [now right|reflexivity]).
    right. destruct (test emailRegex addr) eqn:Hm; cbn [negb].
    + right. exists addr. now repeat split.
    + left. exists addr. split; [reflexivity|]. split; [|now split].
      now apply truthy_string.
  - left. exists email. split; [reflexivity|]. split; [now left|reflexivity].
Qed.

(** X14. The handler answers 200, 400 or 500 and calls
    [resend.contacts.create] at most once.  It answers 200 exactly when
    the [email] it read is a string of the accepted form and [resend]
    created the contact; the payload then carries the id it got and the
    contact was created for that address.  When [resend] reports an
    error or throws for such an address, the answer is 500 after that
    one call. *)
Theorem POST_success_exactly :
  forall (resend : jsString -> CreateResult) (body : option Json),
    let out := POST resend body in
    (status out = 200 \/ status out = 400 \/ status out = 500)%Z
    /\ length (createCalls out) <= 1
    /\ (status out = 200%Z <->
        exists addr id,
          emailOf body = Some (Some (JString addr))
          /\ wellFormed addr /\ resend addr = Created id)
    /\ (forall addr id,
           emailOf body = Some (Some (JString addr)) ->
           wellFormed addr -> resend addr = Created id ->
           payload out = Success id /\ createCalls out = [addr])
    /\ (forall addr,
           emailOf body = Some (Some (JString addr)) ->
           wellFormed addr -> resend addr = Refused \/ resend addr = Threw ->
           status out = 500%Z /\ createCalls out = [addr]).
Proof.
  intros resend body out. unfold out.
  destruct (POST_cases resend body)
    as [[Hb ->]|[(email & Hb & Hbad & ->)|[(a & Hb & Hne & Hm & ->)
        |(a & Hb & Hm & ->)]]].
  - split; [auto|]. split; [simpl; lia|]. split; [|split].
    + split; [discriminate|]. intros (addr & id & H & _). congruence.
    + intros addr id H. congruence.
    + intros addr H. congruence.
  - split; [auto|]. split; [simpl; lia|].
    assert (Hno : forall addr, emailOf body = Some (Some (JString addr)) ->
                               ~ wellFormed addr).
    { intros addr H Hw. rewrite Hb in H. injection H as ->.
      destruct Hbad as [Ht|Hs]; [|discriminate].
      destruct Hw as (x & y & z & -> & Hx & _).
      destruct x; [congruence|discriminate]. }
    split; [|split].
    + split; [discriminate|]. intros (addr & id & H & Hw & _).
      now destruct (Hno addr).
    + intros addr id H Hw. now destruct (Hno addr).
    + intros addr H Hw. now destruct (Hno addr).
  - split; [auto|]. split; [simpl; lia|].
    assert (Hno : forall addr, emailOf body = Some (Some (JString addr)) ->
                               ~ wellFormed addr).
    { intros addr H Hw. rewrite Hb in H. injection H as <-.
      apply emailRegex_spec in Hw. congruence. }
    split; [|split].
    + split; [discriminate|]. intros (addr & id & H & Hw & _).
      now destruct (Hno addr).
    + intros addr id H Hw. now destruct (Hno addr).
    + intros addr H Hw. now destruct (Hno addr).
  - assert (Hw : wellFormed a) by now apply emailRegex_spec.
    assert (Hsame : forall addr, emailOf body = Some (Some (JString addr)) ->
                                 addr = a).
    { intros addr H. rewrite Hb in H. now injection H. }
    split; [destruct (resend a); auto|].
    split; [destruct (resend a); simpl; lia|].
    split; [|split].
    + split.
      * intros H. exists a. destruct (resend a) as [id| |] eqn:Er;
          try discriminate. now exists id.
      * intros (addr & id & H & _ & Er). rewrite (Hsame addr H) in Er.
        now rewrite Er.
    + intros addr id H _ Er. rewrite (Hsame addr H) in *. now rewrite Er.
    + intros addr H _ Er. rewrite (Hsame addr H) in *.
      destruct Er as [-> | ->]; now split.
Qed.

Lemma wellFormed_shape addr :
  wellFormed addr ->
  Forall (fun u => isSpace u = false) addr
  /\ count_occ N.eq_dec addr AT = 1
  /\ 5 <= length addr.
Proof.
  intros (a & b & c & -> & Ha & Hb & Hc & Fa & Fb & Fc).
  assert (Hsp : forall l, Forall (fun u => notSpaceAt u = true) l ->
                          Forall (fun u => isSpace u = false) l).
  { intros l. apply List.Forall_impl. exact notSpaceAt_not_space. }
  assert (Hat : forall l, Forall (fun u => notSpaceAt u = true) l ->
                          count_occ N.eq_dec l AT = 0).
  { intros l Fl. apply count_occ_not_In. now apply at_free. }
  split; [|split].
  - repeat (apply Forall_app; split); auto; now repeat constructor.
  - rewrite !count_occ_app, (Hat a Fa), (Hat b Fb), (Hat c Fc). reflexivity.
  - rewrite !length_app. simpl.
    destruct a; [congruence|]. destruct b; [congruence|].
    destruct c; [congruence|]. simpl. lia.
Qed.

(** X15. Every address the handler creates a contact for has no white
    space in it, has exactly one ['@'] and is at least five code units
    long. *)
Theorem created_address_shape :
  forall (resend : jsString -> CreateResult) (body : option Json)
         (addr : jsString),
    In addr (createCalls (POST resend body)) ->
    Forall (fun u => isSpace u = false) addr
    /\ count_occ N.eq_dec addr AT = 1
    /\ 5 <= length addr.
Proof.
  intros resend body addr Hin. apply wellFormed_shape.
  destruct (POST_cases resend body)
    as [[_ E]|[(email & _ & _ & E)|[(a & _ & _ & _ & E)|(a & _ & Hm & E)]]];
    rewrite E in Hin; try now destruct Hin.
  apply emailRegex_spec.
  destruct (resend a); destruct Hin as [<-|[]]; exact Hm.
Qed.

Import Client.

Lemma beginSubmit_some f :
  email f <> [] -> subscribeStatus f <> loading ->
  beginSubmit f
  = Some {| email := email f; subscribeStatus := loading;
            posted := posted f ++ [email f]; confetti := confetti f |}.
Proof.
  intros He Hs. unfold beginSubmit.
  rewrite (proj2 (truthy_string (email f)) He).
  destruct (subscribeStatus f); try reflexivity. congruence.
Qed.

Lemma beginSubmit_none f :
  email f = [] \/ subscribeStatus f = loading -> beginSubmit f = None.
Proof.
  unfold beginSubmit. intros [E|E]; rewrite E; [reflexivity|].
  cbn [isLoading]. now rewrite orb_true_r.
Qed.

(** X16. The form: with no e-mail typed, or while a request is still
    loading, submitting posts nothing and changes nothing; in particular
    a second submit while the first is in flight is ignored.  Otherwise
    the typed e-mail is posted once, and the form ends in [success]
    exactly when the response is ok, with the field cleared and one
    confetti burst, and in [error] otherwise, with the field kept. *)
Theorem handleSubscribe_outcome :
  forall (fetch : jsString -> FetchResult) (f : Form),
    (email f = [] \/ subscribeStatus f = loading ->
     handleSubscribe fetch f = f)
    /\ (forall f1 fetch', beginSubmit f = Some f1 ->
                          handleSubscribe fetch' f1 = f1)
    /\ (email f <> [] -> subscribeStatus f <> loading ->
        let f' := handleSubscribe fetch f in
        posted f' = posted f ++ [email f]
        /\ (subscribeStatus f' = success <-> fetch (email f) = Response true)
        /\ (subscribeStatus f' = error <-> fetch (email f) <> Response true)
        /\ (subscribeStatus f' = success ->
            email f' = [] /\ confetti f' = S (confetti f))
        /\ (subscribeStatus f' = error ->
            email f' = email f /\ confetti f' = confetti f)).
Proof.
  intros fetch f. split; [|split].
  - intros H. unfold handleSubscribe. now rewrite beginSubmit_none.
  - intros f1 fetch' H. unfold handleSubscribe.
    rewrite beginSubmit_none; [reflexivity|]. right.
    unfold beginSubmit in H. destruct (_ || _); [discriminate|].
    now injection H as <-.
  - intros He Hs f'. unfold f', handleSubscribe.
    rewrite (beginSubmit_some f He Hs).
    destruct (fetch (email f)) as [|[|]]; cbn;
      repeat split; try congruence; try discriminate; auto.
Qed.

Lemma POST_form resend (a : jsString) :
  a <> [] ->
  POST resend (requestFor a)
  = if test emailRegex a
    then match resend a with
         | Threw => respond 500 (ErrorMessage "Something went wrong") [a]
         | Refused => respond 500 (ErrorMessage "Failed to subscribe") [a]
         | Created id => respond 200 (Success id) [a]
         end
    else respond 400 (ErrorMessage "Invalid email format") [].
Proof.
  intros Ha. destruct a as [|u a]; [congruence|].
  unfold POST, requestFor, destructureEmail.
  change (getField (codeUnits "email")
            [(codeUnits "email", JString (u :: a))])
    with (Some (JString (u :: a))).
  cbn [truthy asString]. now destruct (test emailRegex (u :: a)).
Qed.

(** X17. The form posting to the endpoint: a submit that passes the
    form's guard ends in [success] exactly when the typed e-mail has the
    accepted form and [resend] creates the contact, and in [error]
    otherwise.  The endpoint is asked to create a contact, for the typed
    e-mail, exactly when that e-mail has the accepted form, and it never
    answers such a request with [Email is required]. *)
Theorem subscribe_end_to_end :
  forall (resend : jsString -> CreateResult) (f : Form),
    email f <> [] -> subscribeStatus f <> loading ->
    let f' := handleSubscribe (throughEndpoint resend) f in
    let out := POST resend (requestFor (email f)) in
    (subscribeStatus f' = success <->
     wellFormed (email f) /\ exists id, resend (email f) = Created id)
    /\ (subscribeStatus f' = error <->
        ~ wellFormed (email f)
        \/ resend (email f) = Refused \/ resend (email f) = Threw)
    /\ (wellFormed (email f) -> createCalls out = [email f])
    /\ (~ wellFormed (email f) -> createCalls out = [] /\ status out = 400%Z)
    /\ payload out <> ErrorMessage "Email is required".
Proof.
  intros resend f He Hs f' out.
  assert (Hf : subscribeStatus f'
               = if okStatus (status out) then success else error).
  { unfold f', handleSubscribe, throughEndpoint.
    rewrite (beginSubmit_some f He Hs). fold out.
    now destruct (okStatus (status out)). }
  assert (Hout : out = POST resend (requestFor (email f))) by reflexivity.
  rewrite (POST_form resend (email f) He) in Hout.
  pose proof (emailRegex_spec (email f)) as Hspec.
  destruct (test emailRegex (email f)).
  - assert (Hw : wellFormed (email f)) by now apply Hspec.
    destruct (resend (email f)) as [id| |] eqn:Er; rewrite Hout in *;
      cbn in Hf; rewrite Hf; repeat split; try discriminate; try tauto;
      try (intros [_ [? ?]]; discriminate); eauto;
      try (intros [?|[?|?]]; try discriminate; tauto).
  - assert (Hw : ~ wellFormed (email f)).
    { intros H. apply Hspec in H. discriminate. }
    rewrite Hout in *. cbn in Hf. rewrite Hf.
    repeat split; try discriminate; try tauto.
Qed.

End Subscription.

(* ================================================================= *)
(** * The further properties on sample inputs *)

Lemma descriptionLines_greedy_witness :
  (maxCharsPerLine (descFontSize (getResponsiveConfig FullViewport 300)) 300
   < Str.len (nth 0 lines300 EmptyString) + 1
     + Str.len (firstWord (nth 1 lines300 EmptyString)))%Z.
Proof.
  apply (descriptionLines_greedy FullViewport 300 []
           (nth 0 lines300 EmptyString) (nth 1 lines300 EmptyString)
           (skipn 2 lines300)).
  vm_compute. reflexivity.
Defined.

Lemma descriptionLines_narrow_witness :
  descriptionLines (getResponsiveConfig FullViewport 40)
  = Str.split SPACE (DESCRIPTION_TEXT FullViewport).
Proof.
  apply (descriptionLines_narrow FullViewport 40). reflexivity.
Defined.

Lemma descriptionLines_wide_witness :
  descriptionLines (getResponsiveConfig ContainerCanvas 2000)
  = [DESCRIPTION_TEXT ContainerCanvas].
Proof.
  apply (descriptionLines_wide ContainerCanvas 2000).
  unfold Qle. simpl. lia.
Defined.

Lemma letter_count_any_width_witness :
  length (textBodiesRef (createLetterBodies FullViewport 300 24 100 fresh))
  = Str.countNot SPACE "AMMAN VEDI"
    + Str.countNot SPACE (titleLine2 FullViewport)
    + Str.countNot SPACE (DESCRIPTION_TEXT FullViewport).
Proof.
  apply (letter_count_any_width FullViewport 300 24 100 fresh []).
  reflexivity.
Defined.

Lemma untouched_without_physics_witness :
  hasBeenTouchedRef
    (run FullViewport mounted
         [MouseMove 10 10 canvas0; Resize page900; AfterRender; ResetClick])
  = false.
Proof.
  apply (untouched_without_physics FullViewport page300
           [MouseMove 10 10 canvas0; Resize page900; AfterRender; ResetClick]).
  reflexivity.
Defined.

Lemma check_after_reset_witness :
  checkForMovement (resetText shaken) = resetText shaken.
Proof.
  apply (check_after_reset FullViewport shaken).
  apply reach_step, reach_mount, reach_initial.
Defined.

Lemma button_shows_touched_witness :
  showResetButton noticed = true <-> hasBeenTouchedRef noticed = true.
Proof.
  apply (button_shows_touched FullViewport noticed).
  apply reach_step, reach_step, reach_mount, reach_initial.
Defined.


Lemma mount_rebuilds_witness :
  wallsRef (mount FullViewport page900 shaken) = seq (nextHandle shaken) 4
  /\ allAtRest (mount FullViewport page900 shaken).
Proof.
  destruct (mount_rebuilds FullViewport page900 hero900 shaken)
    as (_ & Hw & _ & _ & _ & Hr & _).
  - reflexivity.
  - reflexivity.
  - split; [exact Hw|exact Hr].
Defined.

Lemma world_holds_what_is_referenced_witness :
  NoDup (seq 0 198) /\ (forall h, In h (seq 0 198) <-> referenced mounted h).
Proof.
  apply (world_holds_what_is_referenced FullViewport mounted (seq 0 198)).
  - apply reach_mount, reach_initial.
  - vm_compute. reflexivity.
Defined.

Lemma createWalls_encloses_witness :
  wallsRef (createWalls FullViewport 390 844 fresh) = [0; 1; 2; 3].
Proof.
  destruct (createWalls_encloses FullViewport 390 844 fresh [])
    as (fl & ce & le & ri & _ & _ & _ & _ & Hw & _).
  - reflexivity.
  - exact Hw.
Defined.

Lemma letters_created_apart_witness :
  apart (letterBody (glyphOf letterA)) (letterBody (glyphOf letterM)).
Proof.
  apply (letters_created_apart FullViewport 300 24 100 fresh []
           eq_refl letterA letterM).
  - vm_compute. left. reflexivity.
  - vm_compute. right. left. reflexivity.
  - simpl. lia.
  - vm_compute. reflexivity.
  - vm_compute. reflexivity.
Defined.

Lemma render_draws_page_text_witness :
  drawn (renderPass mounted) = pageText FullViewport.
Proof.
  apply (render_draws_page_text FullViewport mounted (seq 0 198)).
  - apply reach_mount, reach_initial.
  - vm_compute. reflexivity.
Defined.

Lemma POST_success_exactly_witness :
  Subscribe.payload (Subscribe.POST (fun _ => Subscribe.Created None)
                       (requestWith "a@b.co"))
  = Subscribe.Success None
  /\ Subscribe.createCalls (Subscribe.POST (fun _ => Subscribe.Created None)
                              (requestWith "a@b.co"))
     = [Subscribe.codeUnits "a@b.co"].
Proof.
  apply (proj1 (proj2 (proj2 (proj2
           (POST_success_exactly (fun _ => Subscribe.Created None)
              (requestWith "a@b.co")))))).
  - reflexivity.
  - apply emailRegex_spec. reflexivity.
  - reflexivity.
Defined.

Lemma created_address_shape_witness :
  count_occ N.eq_dec (Subscribe.codeUnits "a@b.co") Subscribe.AT = 1.
Proof.
  apply (created_address_shape (fun _ => Subscribe.Refused)
           (requestWith "a@b.co") (Subscribe.codeUnits "a@b.co")).
  left. reflexivity.
Defined.

Lemma handleSubscribe_outcome_witness :
  Client.posted (Client.handleSubscribe (fun _ => Client.Response false) form0)
  = [Subscribe.codeUnits "a@b.co"].
Proof.
  apply (proj2 (proj2 (handleSubscribe_outcome
                         (fun _ => Client.Response false) form0))).
  - discriminate.
  - discriminate.
Defined.

Lemma subscribe_end_to_end_witness :
  Client.subscribeStatus
    (Client.handleSubscribe
       (Client.throughEndpoint (fun _ => Subscribe.Created None)) form0)
  = Client.success.
Proof.
  apply (proj1 (subscribe_end_to_end (fun _ => Subscribe.Created None) form0
                  ltac:(discriminate) ltac:(discriminate))).
  split.
  - apply emailRegex_spec. reflexivity.
  - exists None. reflexivity.
Defined.
